(** * SimpleVector: a shallow embedding of [simple_vector.h] and [array_ptr.h]

    The two headers implement an owning array handle ([ArrayPtr]) and a
    growable vector ([SimpleVector]) on top of it.  The embedding keeps the
    heap explicit: an array allocated by [new Type[n]] is a block of [n]
    cells at some location, raw pointers are a location and an offset, and
    every member function is a computation over the heap that either
    returns, throws, aborts on a failed [assert], or has undefined
    behaviour (an access outside a live block).

    What is fixed, and what is left open:
    - [size_t] has 64 bits and its arithmetic wraps;
    - the element type is a parameter: its default value, what a new
      array element holds, what a move leaves in its source, its
      [operator==] and, for the ordering operators, its [operator<];
      copying, moving and comparing elements do not throw;
    - [new Type[n]] throws for arrays longer than the build allows and
      succeeds otherwise; running out of memory is not modelled;
    - the argument of [PushBack] is a reference, to an object outside
      the heap or to a cell of it, read where the source reads it; the
      value argument of [Insert], and the arguments of the calls a
      program makes, are objects of the caller's outside the vector's
      storage, passed by value;
    - whether [assert] is compiled out is a parameter of the build.

    The file has the model first (pointers, the algorithms of
    [<algorithm>] that the headers call, [ArrayPtr], [SimpleVector],
    programs over several vectors), then the notions the theorems are
    stated with, then the proofs. *)

From stdpp Require Import gmap list numbers.
From Stdlib Require Import ZArith Lia.

Local Open Scope N_scope.

(** ** Parameters of the embedding *)

(** What the template parameter [Type] has to provide. *)
Class ElementType (T : Type) := {
  Type_default : T;          (* the value of [Type()] *)
  new_elem : T;              (* the content of one element of [new Type[n]] *)
  moved_from : T -> T;       (* what a move leaves behind in its source *)
  Type_eqb : T -> T -> bool; (* [operator==] of [Type] *)
}.

(** The build: whether [assert] is compiled out, and the longest array
    [new Type[n]] can deliver (longer requests throw).  An array has at
    most [PTRDIFF_MAX] bytes, so fewer than [2^63] elements whatever
    [sizeof(Type)] is. *)
Class Build := {
  NDEBUG : bool;
  max_array_len : N;
  max_array_len_bound : max_array_len < 2 ^ 63;
}.

(** ** [size_t] arithmetic (64 bit, wrapping) *)

Definition size_t_wrap (x : N) : N := x mod 2 ^ 64.
Definition size_t_add (a b : N) : N := size_t_wrap (a + b).
Definition size_t_mul (a b : N) : N := size_t_wrap (a * b).
Definition size_t_sub (a b : N) : N := size_t_wrap (a + 2 ^ 64 - b).

(** ** Pointers and the heap *)

Abbreviation loc := positive (only parsing).

(** The address of a vector object. *)
Abbreviation addr := nat (only parsing).

(** A [Type*]: null, or cell [i] of the block at [l], or the result of
    arithmetic on the null pointer, which no later use accepts. *)
Inductive ptr := nullptr | at_ (l : loc) (i : nat) | invalid_ptr.

(** [p + n].  Only [nullptr + 0] is defined on the null pointer; a step
    out of a block shows at the first access through the result. *)
Definition ptr_add (p : ptr) (n : N) : ptr :=
  match p with
  | nullptr => if n =? 0 then nullptr else invalid_ptr
  | at_ l i => at_ l (i + N.to_nat n)
  | invalid_ptr => invalid_ptr
  end.

(** [--p]; stepping in front of a block is undefined. *)
Definition ptr_dec (p : ptr) : option ptr :=
  match p with
  | at_ l (S i) => Some (at_ l i)
  | _ => None
  end.

(** [q - p] for pointers into the same block, as a cell count. *)
Definition ptr_diff (q p : ptr) : option Z :=
  match q, p with
  | nullptr, nullptr => Some 0%Z
  | at_ l j, at_ k i => if decide (l = k) then Some (Z.of_nat j - Z.of_nat i)%Z else None
  | _, _ => None
  end.

Global Instance ptr_eq_dec : EqDecision ptr.
Proof. solve_decision. Defined.

Inductive exn := out_of_range | bad_alloc.

(** How a call ends: it returns [a] in state [s], throws in state [s],
    aborts on a failed [assert], or runs into undefined behaviour. *)
Inductive outcome (S A : Type) :=
| Ret (a : A) (s : S)
| Throw (e : exn) (s : S)
| Abort
| Undefined.
Arguments Ret {S A} a s.
Arguments Throw {S A} e s.
Arguments Abort {S A}.
Arguments Undefined {S A}.

(** [ArrayPtr<Type>]: its one data member. *)
Record ArrayPtr := mkArrayPtr { raw_ptr_ : ptr }.

(** [ReserveProxyObj]. *)
Record ReserveProxyObj := mkReserveProxyObj { capacity_to_reserve_ : N }.

(** [SimpleVector<Type>]: its data members, in declaration order. *)
Record SimpleVector := mkSimpleVector {
  items_ : ArrayPtr;
  capacity_ : N;
  size_ : N;
}.

Definition set_items (a : ArrayPtr) (v : SimpleVector) : SimpleVector :=
  {| items_ := a; capacity_ := capacity_ v; size_ := size_ v |}.
Definition set_capacity (c : N) (v : SimpleVector) : SimpleVector :=
  {| items_ := items_ v; capacity_ := c; size_ := size_ v |}.
Definition set_size (n : N) (v : SimpleVector) : SimpleVector :=
  {| items_ := items_ v; capacity_ := capacity_ v; size_ := n |}.

Section Model.
Context {T : Type} `{ET : ElementType T} `{B : Build}.

Abbreviation heap := (gmap loc (list T)) (only parsing).

Definition M (A : Type) := heap -> outcome heap A.

Definition ret {A} (a : A) : M A := fun h => Ret a h.

Definition bind {A B'} (m : M A) (k : A -> M B') : M B' :=
  fun h =>
    match m h with
    | Ret a h' => k a h'
    | Throw e h' => Throw e h'
    | Abort => Abort
    | Undefined => Undefined
    end.

Definition throw {A} (e : exn) : M A := fun h => Throw e h.
Definition undefined {A} : M A := fun _ => Undefined.

Definition abort {A} : M A := fun _ => Abort.

Notation "x <- m ;; k" := (bind m (fun x => k))
  (at level 100, m at next level, right associativity).
Notation "m ;;; k" := (bind m (fun _ => k))
  (at level 100, right associativity).

(** [assert(c)]: the condition is not even evaluated when [NDEBUG] is
    defined. *)
Definition assert_ (c : M bool) : M unit :=
  if NDEBUG then ret tt
  else b <- c ;; if b then ret tt else abort.

(** [*p] as an rvalue. *)
Definition load (p : ptr) : M T :=
  fun h =>
    match p with
    | at_ l i =>
        match h !! l with
        | Some b => match b !! i with Some v => Ret v h | None => Undefined end
        | None => Undefined
        end
    | _ => Undefined
    end.

(** [*p = v]. *)
Definition store (p : ptr) (v : T) : M unit :=
  fun h =>
    match p with
    | at_ l i =>
        match h !! l with
        | Some b =>
            if decide (i < length b)%nat then Ret tt (<[l := <[i := v]> b]> h)
            else Undefined
        | None => Undefined
        end
    | _ => Undefined
    end.

(** [new Type[n]] for [n > 0]. *)
Definition new_array (n : N) : M ptr :=
  fun h =>
    if max_array_len <? n then Throw bad_alloc h
    else let l := fresh (dom h) in
         Ret (at_ l 0) (<[l := replicate (N.to_nat n) new_elem]> h).

(** [delete[] p]. *)
Definition delete_array (p : ptr) : M unit :=
  fun h =>
    match p with
    | nullptr => Ret tt h
    | at_ l O => match h !! l with Some _ => Ret tt (delete l h) | None => Undefined end
    | _ => Undefined
    end.

(** ** The algorithms of [<algorithm>] the headers use, on raw pointers *)

(** The number of steps of a loop [for (; first != last; ++first)]; a
    [last] the loop cannot reach makes it run out of the block. *)
Definition range_len (first last : ptr) : M nat :=
  match ptr_diff last first with
  | Some d => if (d <? 0)%Z then undefined else ret (Z.to_nat d)
  | None => undefined
  end.

Fixpoint fill_loop (n : nat) (first : ptr) (value : T) : M unit :=
  match n with
  | O => ret tt
  | S n' => store first value ;;; fill_loop n' (ptr_add first 1) value
  end.

Definition std_fill (first last : ptr) (value : T) : M unit :=
  n <- range_len first last ;; fill_loop n first value.

Fixpoint copy_loop (n : nat) (first d_first : ptr) : M unit :=
  match n with
  | O => ret tt
  | S n' =>
      v <- load first ;;
      store d_first v ;;;
      copy_loop n' (ptr_add first 1) (ptr_add d_first 1)
  end.

Definition std_copy (first last d_first : ptr) : M unit :=
  n <- range_len first last ;; copy_loop n first d_first.

(** [*d = std::move( *s )]: the target takes the value, the source keeps
    what a move leaves behind. *)
Definition move_assign (d s : ptr) : M unit :=
  v <- load s ;; store d v ;;; store s (moved_from v).

Fixpoint move_loop (n : nat) (first d_first : ptr) : M unit :=
  match n with
  | O => ret tt
  | S n' =>
      move_assign d_first first ;;;
      move_loop n' (ptr_add first 1) (ptr_add d_first 1)
  end.

Definition std_move (first last d_first : ptr) : M unit :=
  n <- range_len first last ;; move_loop n first d_first.

Definition dec (p : ptr) : M ptr :=
  match ptr_dec p with Some q => ret q | None => undefined end.

Fixpoint copy_backward_loop (n : nat) (last d_last : ptr) : M unit :=
  match n with
  | O => ret tt
  | S n' =>
      d <- dec d_last ;;
      s <- dec last ;;
      v <- load s ;;
      store d v ;;;
      copy_backward_loop n' s d
  end.

Definition std_copy_backward (first last d_last : ptr) : M unit :=
  n <- range_len first last ;; copy_backward_loop n last d_last.

Fixpoint move_backward_loop (n : nat) (last d_last : ptr) : M unit :=
  match n with
  | O => ret tt
  | S n' =>
      d <- dec d_last ;;
      s <- dec last ;;
      move_assign d s ;;;
      move_backward_loop n' s d
  end.

Definition std_move_backward (first last d_last : ptr) : M unit :=
  n <- range_len first last ;; move_backward_loop n last d_last.

Fixpoint equal_loop (n : nat) (first1 first2 : ptr) : M bool :=
  match n with
  | O => ret true
  | S n' =>
      a <- load first1 ;;
      b <- load first2 ;;
      if Type_eqb a b then equal_loop n' (ptr_add first1 1) (ptr_add first2 1)
      else ret false
  end.

Definition std_equal (first1 last1 first2 : ptr) : M bool :=
  n <- range_len first1 last1 ;; equal_loop n first1 first2.

(** Copying out of a [std::initializer_list], which lives outside the heap. *)
Fixpoint copy_init (init : list T) (d_first : ptr) : M unit :=
  match init with
  | [] => ret tt
  | v :: init' => store d_first v ;;; copy_init init' (ptr_add d_first 1)
  end.

(** Pointer comparisons and differences; between unrelated blocks they
    have no defined result. *)
Definition ptr_le (p q : ptr) : M bool :=
  match ptr_diff q p with
  | Some d => ret (0 <=? d)%Z
  | None => undefined
  end.

Definition ptr_lt (p q : ptr) : M bool :=
  match ptr_diff q p with
  | Some d => ret (0 <? d)%Z
  | None => undefined
  end.

(** [size_t count = q - p]. *)
Definition ptr_sub (q p : ptr) : M N :=
  match ptr_diff q p with
  | Some d => ret (Z.to_N (d mod 2 ^ 64))
  | None => undefined
  end.

(** ** [ArrayPtr] *)

(** [ArrayPtr()]. *)
Definition ArrayPtr_default : ArrayPtr := {| raw_ptr_ := nullptr |}.

(** [explicit ArrayPtr(size_t size)]. *)
Definition ArrayPtr_new (size : N) : M ArrayPtr :=
  if size =? 0 then ret {| raw_ptr_ := nullptr |}
  else p <- new_array size ;; ret {| raw_ptr_ := p |}.

(** [ArrayPtr(ArrayPtr&& other)]: the pair (this, other).  The pointer
    is copied; [other] keeps it. *)
Definition ArrayPtr_move (other : ArrayPtr) : ArrayPtr * ArrayPtr :=
  ({| raw_ptr_ := raw_ptr_ other |}, other).

(** [explicit ArrayPtr(Type* raw_ptr)]. *)
Definition ArrayPtr_adopt (raw_ptr : ptr) : ArrayPtr := {| raw_ptr_ := raw_ptr |}.

(** [explicit operator bool()]. *)
Definition ArrayPtr_bool (this : ArrayPtr) : bool :=
  bool_decide (raw_ptr_ this ≠ nullptr).

(** [~ArrayPtr()]. *)
Definition ArrayPtr_destroy (this : ArrayPtr) : M unit :=
  delete_array (raw_ptr_ this).

(** [operator=(ArrayPtr&& other)] between two distinct handles; the
    result is the pair (this, other). *)
Definition ArrayPtr_move_assign (this other : ArrayPtr) : M (ArrayPtr * ArrayPtr) :=
  delete_array (raw_ptr_ this) ;;;
  ret ({| raw_ptr_ := raw_ptr_ other |}, {| raw_ptr_ := nullptr |}).

(** [Release()]: the raw pointer and the emptied handle. *)
Definition Release (this : ArrayPtr) : ptr * ArrayPtr :=
  (raw_ptr_ this, {| raw_ptr_ := nullptr |}).

(** [operator[](size_t index)]: the reference [raw_ptr_[index]]. *)
Definition ArrayPtr_index (this : ArrayPtr) (index : N) : ptr :=
  ptr_add (raw_ptr_ this) index.

Definition Get (this : ArrayPtr) : ptr := raw_ptr_ this.

(** [swap(ArrayPtr& other)]: the pair (this, other) afterwards. *)
Definition ArrayPtr_swap (this other : ArrayPtr) : ArrayPtr * ArrayPtr :=
  let temp := raw_ptr_ this in
  ({| raw_ptr_ := raw_ptr_ other |}, {| raw_ptr_ := temp |}).

(** ** [SimpleVector]: observers *)

Definition GetSize (this : SimpleVector) : N := size_ this.
Definition GetCapacity (this : SimpleVector) : N := capacity_ this.
Definition IsEmpty (this : SimpleVector) : bool := size_ this =? 0.

Definition begin_ (this : SimpleVector) : ptr := Get (items_ this).
Definition end_ (this : SimpleVector) : ptr := ptr_add (Get (items_ this)) (size_ this).

(** [operator[]]: the reference, unchecked. *)
Definition index (this : SimpleVector) (i : N) : ptr := ArrayPtr_index (items_ this) i.

(** [At]: the reference, or [std::out_of_range]. *)
Definition At (this : SimpleVector) (i : N) : M ptr :=
  if size_ this <=? i then throw out_of_range
  else ret (ArrayPtr_index (items_ this) i).

(** ** [SimpleVector]: private [Fill] *)

Definition Fill (first last : ptr) : M unit :=
  assert_ (ptr_lt first last) ;;;
  n <- range_len first last ;;
  fill_loop n first Type_default.

(** ** [SimpleVector]: size and capacity *)

Definition Clear (this : SimpleVector) : SimpleVector := set_size 0 this.

Definition Resize (new_size : N) (this : SimpleVector) : M SimpleVector :=
  let this := if new_size <=? size_ this then set_size new_size this else this in
  (if new_size <=? capacity_ this
   then Fill (ptr_add (Get (items_ this)) (size_ this))
             (ptr_add (ptr_add (Get (items_ this)) (size_ this)) new_size)
   else ret tt) ;;;
  if capacity_ this <? new_size then
    let new_capacity := N.max new_size (size_t_mul (capacity_ this) 2) in
    temp <- ArrayPtr_new new_capacity ;;
    Fill (Get temp) (ptr_add (Get temp) new_capacity) ;;;
    std_move (Get (items_ this)) (ptr_add (Get (items_ this)) (capacity_ this)) (Get temp) ;;;
    let '(items', temp') := ArrayPtr_swap (items_ this) temp in
    let this := set_capacity new_capacity (set_size new_size (set_items items' this)) in
    ArrayPtr_destroy temp' ;;;
    ret this
  else ret this.

Definition Reserve (new_capacity : N) (this : SimpleVector) : M SimpleVector :=
  if capacity_ this <? new_capacity then
    temp <- ArrayPtr_new new_capacity ;;
    (if 0 <? size_ this
     then std_copy (Get (items_ this)) (ptr_add (Get (items_ this)) (size_ this)) (Get temp)
     else ret tt) ;;;
    let '(items', temp') := ArrayPtr_swap (items_ this) temp in
    let this := set_capacity new_capacity (set_items items' this) in
    ArrayPtr_destroy temp' ;;;
    ret this
  else ret this.

(** ** [SimpleVector]: element insertion and removal *)

(** An argument taken by reference ([const Type&], [Type&&]): the
    object it refers to is one of the caller's outside the storage the
    heap records, known by its value, or a cell of the heap, which the
    callee reads where the source reads the parameter. *)
Inductive ref : Type :=
  | outside (v : T)
  | inside (p : ptr).

(** [*d = item], for [const Type& item]. *)
Definition assign_from (d : ptr) (item : ref) : M unit :=
  match item with
  | outside v => store d v
  | inside p => v <- load p ;; store d v
  end.

(** [*d = std::move(item)], for [Type&& item]. *)
Definition move_from (d : ptr) (item : ref) : M unit :=
  match item with
  | outside v => store d v
  | inside p => move_assign d p
  end.

(** [PushBack(const Type& item)]: in the full branch [item] is read
    after [Resize] has returned. *)
Definition PushBack (item : ref) (this : SimpleVector) : M SimpleVector :=
  if size_ this <? capacity_ this then
    assign_from (ArrayPtr_index (items_ this) (size_ this)) item ;;;
    ret (set_size (size_t_add (size_ this) 1) this)
  else if size_ this =? capacity_ this then
    this <- Resize (size_t_add (capacity_ this) 1) this ;;
    assign_from (ArrayPtr_index (items_ this) (size_t_sub (size_ this) 1)) item ;;;
    ret this
  else ret this.

(** [PushBack(Type&& item)]: the same statements, the argument moved
    from instead of copied. *)
Definition PushBack_move (item : ref) (this : SimpleVector) : M SimpleVector :=
  if size_ this <? capacity_ this then
    move_from (ArrayPtr_index (items_ this) (size_ this)) item ;;;
    ret (set_size (size_t_add (size_ this) 1) this)
  else if size_ this =? capacity_ this then
    this <- Resize (size_t_add (capacity_ this) 1) this ;;
    move_from (ArrayPtr_index (items_ this) (size_t_sub (size_ this) 1)) item ;;;
    ret this
  else ret this.

(** [Insert(ConstIterator pos, const Type& value)].  The statement
    [*pos = value] stores through a pointer to const, which a compiler
    rejects once this overload is instantiated; it is embedded as the
    store it spells. *)
Definition Insert (pos : ptr) (value : T) (this : SimpleVector) : M (ptr * SimpleVector) :=
  assert_ (c <- ptr_le (begin_ this) pos ;;
           if c then ptr_le pos (end_ this) else ret false) ;;;
  count <- ptr_sub pos (begin_ this) ;;
  this <-
    (if size_ this <? capacity_ this then
       std_copy_backward (ptr_add (begin_ this) count) (end_ this) (ptr_add (end_ this) 1) ;;;
       store pos value ;;;
       ret this
     else
       let new_capacity := N.max (size_t_add (size_ this) 1) (size_t_mul (capacity_ this) 2) in
       temp <- ArrayPtr_new new_capacity ;;
       let new_pos := ptr_add (Get temp) count in
       std_copy (begin_ this) pos (Get temp) ;;;
       store new_pos value ;;;
       std_copy pos (end_ this) (ptr_add new_pos 1) ;;;
       let '(items', temp') := ArrayPtr_swap (items_ this) temp in
       let this := set_capacity new_capacity (set_items items' this) in
       ArrayPtr_destroy temp' ;;;
       ret this) ;;
  let this := set_size (size_t_add (size_ this) 1) this in
  ret (ptr_add (begin_ this) count, this).

(** [Insert(ConstIterator pos, Type&& value)]. *)
Definition Insert_move (pos : ptr) (value : T) (this : SimpleVector) : M (ptr * SimpleVector) :=
  assert_ (c <- ptr_le (begin_ this) pos ;;
           if c then ptr_le pos (end_ this) else ret false) ;;;
  count <- ptr_sub pos (Get (items_ this)) ;;
  this <-
    (if capacity_ this =? 0 then
       temp <- ArrayPtr_new 1 ;;
       store (ArrayPtr_index temp count) value ;;;
       let '(items', temp') := ArrayPtr_swap (items_ this) temp in
       let this := set_capacity (size_t_add (capacity_ this) 1) (set_items items' this) in
       ArrayPtr_destroy temp' ;;;
       ret this
     else if size_ this <? capacity_ this then
       std_move_backward (ptr_add (Get (items_ this)) count)
                         (ptr_add (Get (items_ this)) (size_ this))
                         (ptr_add (ptr_add (Get (items_ this)) (size_ this)) 1) ;;;
       store (ArrayPtr_index (items_ this) count) value ;;;
       ret this
     else
       let new_capacity := N.max (size_t_add (size_ this) 1) (size_t_mul (capacity_ this) 2) in
       temp <- ArrayPtr_new new_capacity ;;
       std_move (Get (items_ this)) (ptr_add (Get (items_ this)) (size_ this)) (Get temp) ;;;
       std_move_backward (ptr_add (Get (items_ this)) count)
                         (ptr_add (Get (items_ this)) (size_ this))
                         (ptr_add (ptr_add (Get temp) (size_ this)) 1) ;;;
       store (ArrayPtr_index temp count) value ;;;
       let '(items', temp') := ArrayPtr_swap (items_ this) temp in
       let this := set_capacity new_capacity (set_items items' this) in
       ArrayPtr_destroy temp' ;;;
       ret this) ;;
  let this := set_size (size_t_add (size_ this) 1) this in
  ret (ArrayPtr_index (items_ this) count, this).

Definition PopBack (this : SimpleVector) : M SimpleVector :=
  assert_ (ret (negb (IsEmpty this))) ;;;
  ret (set_size (size_t_sub (size_ this) 1) this).

Definition Erase (pos : ptr) (this : SimpleVector) : M (ptr * SimpleVector) :=
  assert_ (ret (bool_decide (pos ≠ end_ this))) ;;;
  assert_ (ptr_le (begin_ this) pos) ;;;
  count <- ptr_sub pos (Get (items_ this)) ;;
  std_move (ptr_add (ptr_add (Get (items_ this)) count) 1)
           (ptr_add (Get (items_ this)) (size_ this))
           (ptr_add (Get (items_ this)) count) ;;;
  let this := set_size (size_t_sub (size_ this) 1) this in
  ret (ArrayPtr_index (items_ this) count, this).

(** [swap(SimpleVector& other)]: the pair (this, other) afterwards. *)
Definition swap (this other : SimpleVector) : SimpleVector * SimpleVector :=
  let '(i1, i2) := ArrayPtr_swap (items_ this) (items_ other) in
  ({| items_ := i1; capacity_ := capacity_ other; size_ := size_ other |},
   {| items_ := i2; capacity_ := capacity_ this; size_ := size_ this |}).

(** ** [SimpleVector]: constructors, destructor, comparison *)

(** [SimpleVector()]: the default member initialisers. *)
Definition SimpleVector_default : SimpleVector :=
  {| items_ := ArrayPtr_default; capacity_ := 0; size_ := 0 |}.

(** [SimpleVector(size_t size, const Type& value)]. *)
Definition SimpleVector_size_value (size : N) (value : T) : M SimpleVector :=
  items <- ArrayPtr_new size ;;
  let this := {| items_ := items; capacity_ := size; size_ := size |} in
  std_fill (Get (items_ this)) (ptr_add (Get (items_ this)) (size_ this)) value ;;;
  ret this.

(** [explicit SimpleVector(size_t size)]. *)
Definition SimpleVector_size (size : N) : M SimpleVector :=
  SimpleVector_size_value size Type_default.

(** [SimpleVector(std::initializer_list<Type> init)]. *)
Definition SimpleVector_init (init : list T) : M SimpleVector :=
  let n := N.of_nat (length init) in
  items <- ArrayPtr_new n ;;
  let this := {| items_ := items; capacity_ := n; size_ := n |} in
  copy_init init (Get (items_ this)) ;;;
  ret this.

(** [SimpleVector(const SimpleVector& other)]. *)
Definition SimpleVector_copy (other : SimpleVector) : M SimpleVector :=
  items <- ArrayPtr_new (size_ other) ;;
  let this := {| items_ := items; capacity_ := size_ other; size_ := size_ other |} in
  std_copy (begin_ other) (end_ other) (Get (items_ this)) ;;;
  ret this.

(** The free function [Reserve(size_t capacity_to_reserve)]. *)
Definition Reserve_proxy (capacity_to_reserve : N) : ReserveProxyObj :=
  {| capacity_to_reserve_ := capacity_to_reserve |}.

(** [SimpleVector(ReserveProxyObj obj)]. *)
Definition SimpleVector_reserve (obj : ReserveProxyObj) : M SimpleVector :=
  Reserve (capacity_to_reserve_ obj) SimpleVector_default.

(** [SimpleVector(SimpleVector&& other)]: the pair (this, other). *)
Definition SimpleVector_move (other : SimpleVector) : M (SimpleVector * SimpleVector) :=
  items <- ArrayPtr_new (capacity_ other) ;;
  let this := {| items_ := items; capacity_ := 0; size_ := 0 |} in
  ret (swap this other).

(** The implicit destructor: it destroys [items_]. *)
Definition SimpleVector_destroy (this : SimpleVector) : M unit :=
  ArrayPtr_destroy (items_ this).

(** [operator==]; [same_object] is the test [&lhs == &rhs]. *)
Definition SimpleVector_eq (same_object : bool) (lhs rhs : SimpleVector) : M bool :=
  if same_object then ret true
  else if GetSize lhs =? GetSize rhs
       then std_equal (begin_ lhs) (end_ lhs) (begin_ rhs)
       else ret false.

(** ** Several vectors side by side

    Assignment and comparison test object identity ([this != &rhs]), and
    ownership is about who else can reach a block; both need the vectors
    of a program as objects at addresses. *)


Record world := mkWorld {
  objects : gmap addr SimpleVector;
  memory : heap;
}.

Definition W (A : Type) := world -> outcome world A.

(** Calling a member function on the object at [this].  No member
    function assigns a field of a well-formed vector before the one point
    where it can throw, the allocation, so a call that throws leaves the
    object's fields as they were. *)
Definition call {A} (this : addr) (f : SimpleVector -> M (A * SimpleVector)) : W A :=
  fun w =>
    match objects w !! this with
    | None => Undefined
    | Some v =>
        match f v (memory w) with
        | Ret (a, v') h' => Ret a {| objects := <[this := v']> (objects w); memory := h' |}
        | Throw e h' => Throw e {| objects := objects w; memory := h' |}
        | Abort => Abort
        | Undefined => Undefined
        end
    end.

(** Constructing a new object at the unused address [this]. *)
Definition construct (this : addr) (c : M SimpleVector) : W unit :=
  fun w =>
    match objects w !! this with
    | Some _ => Undefined
    | None =>
        match c (memory w) with
        | Ret v h' => Ret tt {| objects := <[this := v]> (objects w); memory := h' |}
        | Throw e h' => Throw e {| objects := objects w; memory := h' |}
        | Abort => Abort
        | Undefined => Undefined
        end
    end.

(** Move construction of a new object at [this] from the object at [other]. *)
Definition construct_move (this other : addr) : W unit :=
  fun w =>
    match objects w !! this, objects w !! other with
    | None, Some o =>
        match SimpleVector_move o (memory w) with
        | Ret (v, o') h' =>
            Ret tt {| objects := <[this := v]> (<[other := o']> (objects w)); memory := h' |}
        | Throw e h' => Throw e {| objects := objects w; memory := h' |}
        | Abort => Abort
        | Undefined => Undefined
        end
    | _, _ => Undefined
    end.

(** The end of an object's lifetime. *)
Definition destroy (this : addr) : W unit :=
  fun w =>
    match objects w !! this with
    | None => Undefined
    | Some v =>
        match SimpleVector_destroy v (memory w) with
        | Ret _ h' => Ret tt {| objects := delete this (objects w); memory := h' |}
        | Throw e h' => Throw e {| objects := objects w; memory := h' |}
        | Abort => Abort
        | Undefined => Undefined
        end
    end.

(** [this->swap(other)]. *)
Definition swap_objects (this other : addr) : W unit :=
  fun w =>
    match objects w !! this, objects w !! other with
    | Some a, Some b =>
        let '(a', b') := swap a b in
        Ret tt {| objects := <[other := b']> (<[this := a']> (objects w)); memory := memory w |}
    | _, _ => Undefined
    end.

(** [operator=(const SimpleVector& rhs)]. *)
Definition assign (this rhs : addr) : W unit :=
  fun w =>
    match objects w !! this, objects w !! rhs with
    | Some a, Some b =>
        if decide (this ≠ rhs) then
          match (temp <- SimpleVector_copy b ;;
                 let '(a', temp') := swap a temp in
                 SimpleVector_destroy temp' ;;;
                 ret a') (memory w) with
          | Ret a' h' => Ret tt {| objects := <[this := a']> (objects w); memory := h' |}
          | Throw e h' => Throw e {| objects := objects w; memory := h' |}
          | Abort => Abort
          | Undefined => Undefined
          end
        else Ret tt w
    | _, _ => Undefined
    end.

(** [operator=(SimpleVector&& rhs)]. *)
Definition assign_move (this rhs : addr) : W unit :=
  fun w =>
    match objects w !! this, objects w !! rhs with
    | Some a, Some b =>
        if decide (this ≠ rhs) then
          match ArrayPtr_move_assign (items_ a) (items_ b) (memory w) with
          | Ret (ia, ib) h' =>
              let a' := {| items_ := ia; capacity_ := capacity_ b; size_ := size_ b |} in
              let b' := {| items_ := ib; capacity_ := 0; size_ := 0 |} in
              Ret tt {| objects := <[rhs := b']> (<[this := a']> (objects w)); memory := h' |}
          | Throw e h' => Throw e {| objects := objects w; memory := h' |}
          | Abort => Abort
          | Undefined => Undefined
          end
        else Ret tt w
    | _, _ => Undefined
    end.

(** [lhs == rhs]. *)
Definition equal (lhs rhs : addr) : W bool :=
  fun w =>
    match objects w !! lhs, objects w !! rhs with
    | Some a, Some b =>
        match SimpleVector_eq (bool_decide (lhs = rhs)) a b (memory w) with
        | Ret r h' => Ret r {| objects := objects w; memory := h' |}
        | Throw e h' => Throw e {| objects := objects w; memory := h' |}
        | Abort => Abort
        | Undefined => Undefined
        end
    | _, _ => Undefined
    end.

End Model.

Arguments M : clear implicits.
Arguments W : clear implicits.
Arguments world : clear implicits.
Arguments ref : clear implicits.

Notation "x <- m ;; k" := (bind m (fun x => k))
  (at level 100, m at next level, right associativity).
Notation "m ;;; k" := (bind m (fun _ => k))
  (at level 100, right associativity).

(** ** The ordering operators

    [operator<] and its relatives need one more thing of [Type], its
    [operator<]; everything before this point does without. *)

Class ElementOrder (T : Type) := {
  Type_ltb : T → T → bool;   (* [operator<] of [Type] *)
}.

Section Ordering.
Context {T : Type} `{ET : ElementType T} `{EO : ElementOrder T} `{B : Build}.

(** [std::lexicographical_compare]: the loop runs while both ranges have
    elements left, [n1] and [n2] of them. *)
Fixpoint lexicographical_compare_loop (n1 n2 : nat) (first1 first2 : ptr) : M T bool :=
  match n1, n2 with
  | S n1', S n2' =>
      a <- load first1 ;;
      b <- load first2 ;;
      if Type_ltb a b then ret true
      else if Type_ltb b a then ret false
      else lexicographical_compare_loop n1' n2' (ptr_add first1 1) (ptr_add first2 1)
  | O, S _ => ret true
  | _, O => ret false
  end.

Definition std_lexicographical_compare (first1 last1 first2 last2 : ptr) : M T bool :=
  n1 <- range_len first1 last1 ;;
  n2 <- range_len first2 last2 ;;
  lexicographical_compare_loop n1 n2 first1 first2.

(** [operator!=]; [same_object] is the test [&lhs == &rhs] of [operator==]. *)
Definition SimpleVector_ne (same_object : bool) (lhs rhs : SimpleVector) : M T bool :=
  r <- SimpleVector_eq same_object lhs rhs ;; ret (negb r).

(** [operator<]. *)
Definition SimpleVector_lt (lhs rhs : SimpleVector) : M T bool :=
  std_lexicographical_compare (begin_ lhs) (end_ lhs) (begin_ rhs) (end_ rhs).

(** [operator<=]. *)
Definition SimpleVector_le (lhs rhs : SimpleVector) : M T bool :=
  r <- SimpleVector_lt rhs lhs ;; ret (negb r).

(** [operator>]. *)
Definition SimpleVector_gt (lhs rhs : SimpleVector) : M T bool :=
  SimpleVector_lt rhs lhs.

(** [operator>=]. *)
Definition SimpleVector_ge (lhs rhs : SimpleVector) : M T bool :=
  r <- SimpleVector_lt lhs rhs ;; ret (negb r).

(** What [operator<] is to compute: the lexicographic order on the
    sequences of elements, a proper prefix coming first. *)
Fixpoint lex_lt (xs ys : list T) : bool :=
  match xs, ys with
  | x :: xs', y :: ys' =>
      if Type_ltb x y then true
      else if Type_ltb y x then false
      else lex_lt xs' ys'
  | [], _ :: _ => true
  | _, [] => false
  end.

End Ordering.

(** ** What the theorems talk about *)

Section Specification.
Context {T : Type} `{ET : ElementType T} `{B : Build}.

Abbreviation heap := (gmap loc (list T)) (only parsing).

(** The blocks a pointer can reach. *)
Definition locs (p : ptr) : gset loc :=
  match p with
  | at_ l _ => {[ l ]}
  | _ => ∅
  end.

(** The block a vector's [items_] points to. *)
Definition block_of (h : heap) (v : SimpleVector) : list T :=
  match raw_ptr_ (items_ v) with
  | at_ l O => default [] (h !! l)
  | _ => []
  end.

(** The live elements: slots [0, size_) of the block. *)
Definition contents (h : heap) (v : SimpleVector) : list T :=
  take (N.to_nat (size_ v)) (block_of h v).

(** A well-formed vector: [size_ <= capacity_], the capacity is one an
    allocation can have delivered, and [items_] is null with capacity 0 or
    the start of a live block with room for [capacity_] elements. *)
Definition vec_ok (h : heap) (v : SimpleVector) : Prop :=
  size_ v ≤ capacity_ v ∧
  capacity_ v ≤ max_array_len ∧
  match raw_ptr_ (items_ v) with
  | nullptr => capacity_ v = 0
  | at_ l i => i = O ∧ ∃ b, h !! l = Some b ∧ (N.to_nat (capacity_ v) ≤ length b)%nat
  | invalid_ptr => False
  end.

(** Well-formed objects, no block owned twice. *)
Definition world_ok (w : world T) : Prop :=
  (∀ x v, objects w !! x = Some v → vec_ok (memory w) v) ∧
  (∀ x y vx vy l,
     objects w !! x = Some vx → objects w !! y = Some vy →
     l ∈ locs (raw_ptr_ (items_ vx)) → l ∈ locs (raw_ptr_ (items_ vy)) → x = y).

Definition empty_world : world T := {| objects := ∅; memory := ∅ |}.

(** What a move from the object at [a] (which was [va]) into the object at
    [b] leaves: [b] has the block, size and capacity [a] had, with the
    elements [a] had, and [a] has size and capacity 0. *)
Definition transferred (w w' : world T) (a b : addr) (va : SimpleVector) : Prop :=
  ∃ vb va',
    objects w' !! b = Some vb ∧ objects w' !! a = Some va' ∧
    raw_ptr_ (items_ vb) = raw_ptr_ (items_ va) ∧
    size_ vb = size_ va ∧ capacity_ vb = capacity_ va ∧
    contents (memory w') vb = contents (memory w) va ∧
    size_ va' = 0 ∧ capacity_ va' = 0.

(** The constructors that take no other vector. *)
Inductive ctor :=
| Ctor_default
| Ctor_size (size : N)
| Ctor_size_value (size : N) (value : T)
| Ctor_init (init : list T)
| Ctor_reserve (obj : ReserveProxyObj).

Definition run_ctor (c : ctor) : M T SimpleVector :=
  match c with
  | Ctor_default => ret SimpleVector_default
  | Ctor_size size => SimpleVector_size size
  | Ctor_size_value size value => SimpleVector_size_value size value
  | Ctor_init init => SimpleVector_init init
  | Ctor_reserve obj => SimpleVector_reserve obj
  end.

(** The member functions that change one vector; [Call_store i x] is
    [v[i] = x]. *)
Inductive mutator :=
| Call_Clear
| Call_Resize (new_size : N)
| Call_Reserve (new_capacity : N)
| Call_PushBack (item : T)
| Call_PushBack_move (item : T)
| Call_Insert (pos : ptr) (value : T)
| Call_Insert_move (pos : ptr) (value : T)
| Call_PopBack
| Call_Erase (pos : ptr)
| Call_store (i : N) (value : T).

Definition keep (m : M T SimpleVector) : M T (unit * SimpleVector) :=
  v <- m ;; ret (tt, v).

Definition forget {A} (m : M T (A * SimpleVector)) : M T (unit * SimpleVector) :=
  r <- m ;; ret (tt, snd r).

Definition run_mutator (m : mutator) (this : SimpleVector) : M T (unit * SimpleVector) :=
  match m with
  | Call_Clear => ret (tt, Clear this)
  | Call_Resize new_size => keep (Resize new_size this)
  | Call_Reserve new_capacity => keep (Reserve new_capacity this)
  | Call_PushBack item => keep (PushBack (outside item) this)
  | Call_PushBack_move item => keep (PushBack_move (outside item) this)
  | Call_Insert pos value => forget (Insert pos value this)
  | Call_Insert_move pos value => forget (Insert_move pos value this)
  | Call_PopBack => keep (PopBack this)
  | Call_Erase pos => forget (Erase pos this)
  | Call_store i value => store (index this i) value ;;; ret (tt, this)
  end.

(** One step of a program over several vectors. *)
Inductive op :=
| Construct (x : addr) (c : ctor)
| Construct_copy (x other : addr)
| Construct_move (x other : addr)
| Destroy (x : addr)
| Mutate (x : addr) (m : mutator)
| Swap (x y : addr)
| Assign (x y : addr)
| Assign_move (x y : addr).

Definition exec (o : op) : W T unit :=
  match o with
  | Construct x c => construct x (run_ctor c)
  | Construct_copy x other =>
      fun w => match objects w !! other with
               | Some o => construct x (SimpleVector_copy o) w
               | None => Undefined
               end
  | Construct_move x other => construct_move x other
  | Destroy x => destroy x
  | Mutate x m => call x (run_mutator m)
  | Swap x y => swap_objects x y
  | Assign x y => assign x y
  | Assign_move x y => assign_move x y
  end.

(** [PopBack] needs a non-empty vector.  It is the one precondition
    whose breach, in a build with [NDEBUG], neither aborts nor runs into
    undefined behaviour: [--size_] wraps around. *)
Definition precondition (o : op) (w : world T) : Prop :=
  match o with
  | Mutate x Call_PopBack =>
      match objects w !! x with Some v => size_ v ≠ 0 | None => True end
  | _ => True
  end.

(** The worlds a program can be in: a step is a call that returns or
    throws.  In a build with assertions any call will do; without them
    the caller has to keep [PopBack]'s precondition. *)
Inductive reachable : world T → Prop :=
| reachable_start : reachable empty_world
| reachable_step w o w' :
    reachable w → NDEBUG = false ∨ precondition o w →
    (exec o w = Ret tt w' ∨ ∃ e, exec o w = Throw e w') →
    reachable w'.

(** [PushBack] of each element of a list in turn. *)
Fixpoint push_all (items : list T) (this : SimpleVector) : M T SimpleVector :=
  match items with
  | [] => ret this
  | item :: items' => this <- PushBack (outside item) this ;; push_all items' this
  end.

(** *** Reasoning about computations *)

(** Partial correctness: if [m] returns, [Q] holds; if it throws, [E]. *)
Definition post {A} (m : M T A) (h : heap)
    (Q : A → heap → Prop) (E : exn → heap → Prop) : Prop :=
  match m h with
  | Ret a h' => Q a h'
  | Throw e h' => E e h'
  | Abort => True
  | Undefined => True
  end.

(** A condition that only looks at the heap. *)
Definition pure_cond (c : M T bool) : Prop :=
  ∀ h, match c h with
       | Ret _ h' => h' = h
       | Throw _ _ => False
       | _ => True
       end.

(** [h'] is [h] with the blocks at [L] rewritten in place: the same
    blocks are live, with the same lengths, and outside [L] the same
    contents. *)
Definition upd (L : gset loc) (h h' : heap) : Prop :=
  ∀ l, length <$> (h' !! l) = length <$> (h !! l) ∧ (l ∉ L → h' !! l = h !! l).

(** What a call on the vector [v] may do to the heap and to the vector:
    the result is well formed, every other live block is as before, and
    the block the vector ends with is the one it had or a new one. *)
Definition local_step (h : heap) (v v' : SimpleVector) (h' : heap) : Prop :=
  vec_ok h' v' ∧
  (∀ l b, h !! l = Some b → l ∉ locs (raw_ptr_ (items_ v)) → h' !! l = Some b) ∧
  (∀ l, l ∈ locs (raw_ptr_ (items_ v')) →
        l ∈ locs (raw_ptr_ (items_ v)) ∨ h !! l = None).

(** What a step leaves behind: a well-formed world when it returns, the
    world it started in when it throws. *)
Definition step_ok (w : world T) (o : outcome (world T) unit) : Prop :=
  match o with
  | Ret _ w' => world_ok w'
  | Throw _ w' => w' = w
  | _ => True
  end.

(** *** Ownership of the heap *)

(** The block at [l] belongs to one of the vectors. *)
Definition owned (w : world T) (l : loc) : Prop :=
  ∃ x v, objects w !! x = Some v ∧ l ∈ locs (raw_ptr_ (items_ v)).

(** No block is live that no vector owns. *)
Definition no_leak (w : world T) : Prop :=
  ∀ l, is_Some (memory w !! l) → owned w l.

(** Where the live blocks after a call on [v] come from: each is the
    block the vector ends with, or was live before and was not the
    vector's. *)
Definition dom_step (h : heap) (v v' : SimpleVector) (h' : heap) : Prop :=
  ∀ l, is_Some (h' !! l) →
       l ∈ locs (raw_ptr_ (items_ v')) ∨
       (is_Some (h !! l) ∧ l ∉ locs (raw_ptr_ (items_ v))).

(** What a computation can return, and what it can throw, whatever the
    heap. *)
Definition returns_only {A} (m : M T A) (P : A → Prop) : Prop :=
  ∀ h a h', m h = Ret a h' → P a.

Definition throws_only {A} (m : M T A) (e0 : exn) : Prop :=
  ∀ h e h', m h = Throw e h' → e = e0.

(** The object a reference denotes holds [x] in the heap [h]. *)
Definition refers_to (h : heap) (item : ref T) (x : T) : Prop :=
  match item with
  | outside v => v = x
  | inside p => load p h = Ret x h
  end.

(** The object a reference denotes is not in the block of [v]. *)
Definition apart (item : ref T) (v : SimpleVector) : Prop :=
  match item with
  | outside _ => True
  | inside p => locs p ## locs (raw_ptr_ (items_ v))
  end.

(** The capacity of a vector that grew by [PushBack] alone: none, or a
    power of two less than twice the size. *)
Definition doubled (v : SimpleVector) : Prop :=
  (size_ v = 0 ∧ capacity_ v = 0) ∨
  (∃ k, capacity_ v = 2 ^ k ∧ capacity_ v < 2 * size_ v).

End Specification.

(** ** Instances and programs for the examples *)

(** [int]: [Type()] is 0 and a move is a copy.  The elements of a new
    array are indeterminate; -1 stands for what they hold. *)
Definition int_element : ElementType Z :=
  {| Type_default := 0%Z; new_elem := (-1)%Z;
     moved_from := fun x => x; Type_eqb := Z.eqb |}.

(** A move-only handle in the way of [std::unique_ptr<int>], given by
    the value it owns: empty when default-constructed and empty after it
    was moved from. *)
Definition handle_element : ElementType (option Z) :=
  {| Type_default := None; new_elem := None;
     moved_from := fun _ => None;
     Type_eqb := fun a b => bool_decide (a = b) |}.

(** [operator<] of [int]. *)
Definition int_order : ElementOrder Z := {| Type_ltb := Z.ltb |}.

(** A build with assertions and one without, both with the largest
    array length a 64-bit target allows. *)
Definition debug_build : Build :=
  {| NDEBUG := false; max_array_len := 2 ^ 63 - 1; max_array_len_bound := eq_refl |}.

Definition release_build : Build :=
  {| NDEBUG := true; max_array_len := 2 ^ 63 - 1; max_array_len_bound := eq_refl |}.

Section Examples.
Local Existing Instance int_element.
Local Existing Instance handle_element.
Local Existing Instance debug_build.

(** [SimpleVector<int> v{7, 5, 5, 5}; v.PopBack(); v.PopBack();
    v.PopBack(); v.Resize(2);]: size 1, capacity 4, then a resize within
    the capacity. *)
Definition grow_within_capacity : M Z SimpleVector :=
  v <- SimpleVector_init [7; 5; 5; 5]%Z ;;
  v <- PopBack v ;;
  v <- PopBack v ;;
  v <- PopBack v ;;
  Resize 2 v.

(** [SimpleVector<int> v{1, 2, 3, 4}; v.Resize(1);]. *)
Definition shrink_with_room : M Z SimpleVector :=
  v <- SimpleVector_init [1; 2; 3; 4]%Z ;; Resize 1 v.

(** [SimpleVector<int> v{1, 2, 3}; v.Resize(2);]. *)
Definition shrink_without_room : M Z SimpleVector :=
  v <- SimpleVector_init [1; 2; 3]%Z ;; Resize 2 v.

(** [SimpleVector<Handle> v; v.PushBack(Handle(1)); v.PushBack(Handle(2));
    v.Insert(v.begin(), Handle(0));]: the vector is full (size 2,
    capacity 2) when [Insert] is called. *)
Definition insert_into_full : M (option Z) (ptr * SimpleVector) :=
  v <- PushBack_move (outside (Some 1%Z)) SimpleVector_default ;;
  v <- PushBack_move (outside (Some 2%Z)) v ;;
  Insert_move (begin_ v) (Some 0%Z) v.

(** The same with room to spare: [Reserve(3)] first. *)
Definition insert_with_room : M (option Z) (ptr * SimpleVector) :=
  v <- Reserve 3 SimpleVector_default ;;
  v <- PushBack_move (outside (Some 1%Z)) v ;;
  v <- PushBack_move (outside (Some 2%Z)) v ;;
  Insert_move (begin_ v) (Some 0%Z) v.

(** [SimpleVector<int> v{1, 2, 3}; v.PushBack(v[0]);]: the vector is
    full when [PushBack] is given a reference to its first element. *)
Definition push_own_element_full : M Z SimpleVector :=
  v <- SimpleVector_init [1; 2; 3]%Z ;;
  PushBack (inside (index v 0)) v.

(** The same with room to spare: [Reserve(4)] first. *)
Definition push_own_element_with_room : M Z SimpleVector :=
  v <- SimpleVector_init [1; 2; 3]%Z ;;
  v <- Reserve 4 v ;;
  PushBack (inside (index v 0)) v.

(** [SimpleVector<int> v{1, 2, 3}; int x = v[0]; v.PushBack(x);]. *)
Definition push_copy_of_element_full : M Z SimpleVector :=
  v <- SimpleVector_init [1; 2; 3]%Z ;;
  x <- load (index v 0) ;;
  PushBack (outside x) v.

(** [SimpleVector<Handle> v; v.PushBack(Handle(1)); v.PushBack(Handle(2));
    v.PushBack(std::move(v[0]));]: the vector is full (size 2,
    capacity 2) at the third call. *)
Definition push_moved_own_element_full : M (option Z) SimpleVector :=
  v <- PushBack_move (outside (Some 1%Z)) SimpleVector_default ;;
  v <- PushBack_move (outside (Some 2%Z)) v ;;
  PushBack_move (inside (index v 0)) v.

(** A vector [{1, 2, 3}] of [int] at block 1, and a world with it at
    address 0. *)
Definition vec_123 : SimpleVector :=
  {| items_ := {| raw_ptr_ := at_ 1 0 |}; capacity_ := 3; size_ := 3 |}.

Definition heap_123 : gmap loc (list Z) := {[ 1%positive := [1; 2; 3]%Z ]}.

Definition world_123 : world Z := {| objects := {[ O := vec_123 ]}; memory := heap_123 |}.

(** [SimpleVector<int> a{1, 2, 3}; a.PushBack(4);] as a program of
    steps, and the world it ends in. *)
Definition program_1234 : list (op (T := Z)) :=
  [Construct O (Ctor_init [1; 2; 3]%Z); Mutate O (Call_PushBack 4%Z)].

Fixpoint run (ops : list (op (T := Z))) (w : world Z) : world Z :=
  match ops with
  | [] => w
  | o :: ops' => match exec o w with
                 | Ret _ w' => run ops' w'
                 | _ => w
                 end
  end.

Definition world_1234 : world Z := run program_1234 empty_world.

(** [SimpleVector<int> a{1, 2, 3}; SimpleVector<int> b{4, 5};]: two
    vectors side by side, at addresses 0 and 1. *)
Definition program_two : list (op (T := Z)) :=
  [Construct O (Ctor_init [1; 2; 3]%Z); Construct 1%nat (Ctor_init [4; 5]%Z)].

Definition world_two : world Z := run program_two empty_world.

Definition vec_45 : SimpleVector :=
  {| items_ := {| raw_ptr_ := at_ 2 0 |}; capacity_ := 2; size_ := 2 |}.

Definition heap_two : gmap loc (list Z) :=
  {[ 1%positive := [1; 2; 3]%Z; 2%positive := [4; 5]%Z ]}.

End Examples.

(** * Proofs *)

Section Proofs.
Context {T : Type} `{ET : ElementType T} `{B : Build}.

Abbreviation heap := (gmap loc (list T)) (only parsing).

Implicit Types (h : gmap positive (list T)) (p q : ptr).

(** ** [size_t] arithmetic that does not wrap *)

Lemma size_t_add_small a b : a + b < 2 ^ 64 → size_t_add a b = a + b.
Proof. intros H. unfold size_t_add, size_t_wrap. by apply N.mod_small. Qed.

Lemma size_t_mul_small a b : a * b < 2 ^ 64 → size_t_mul a b = a * b.
Proof. intros H. unfold size_t_mul, size_t_wrap. by apply N.mod_small. Qed.

Lemma size_t_sub_small a b : b ≤ a → a < 2 ^ 64 → size_t_sub a b = a - b.
Proof.
  intros H1 H2. unfold size_t_sub, size_t_wrap.
  replace (a + 2 ^ 64 - b) with ((a - b) + 1 * 2 ^ 64) by lia.
  rewrite N.Div0.mod_add. apply N.mod_small. lia.
Qed.

(** ** Rules for [post] *)

Lemma post_ret {A} (a : A) h (Q : A → heap → Prop) E : Q a h → post (ret a) h Q E.
Proof. done. Qed.

Lemma post_bind {A A'} (m : M T A) (k : A → M T A') h Q E :
  post m h (λ a h', post (k a) h' Q E) E → post (bind m k) h Q E.
Proof. unfold post, bind. by destruct (m h). Qed.

Lemma post_mono {A} (m : M T A) h (Q Q' : A → heap → Prop) (E E' : exn → heap → Prop) :
  post m h Q E → (∀ a h', Q a h' → Q' a h') → (∀ e h', E e h' → E' e h') →
  post m h Q' E'.
Proof. unfold post. destruct (m h); auto. Qed.

Lemma post_abort {A} h (Q : A → heap → Prop) E : post abort h Q E.
Proof. done. Qed.

Lemma post_Ret {A} (m : M T A) h Q E a h' : post m h Q E → m h = Ret a h' → Q a h'.
Proof. unfold post. intros H Heq. by rewrite Heq in H. Qed.

Lemma post_Throw {A} (m : M T A) h Q E e h' : post m h Q E → m h = Throw e h' → E e h'.
Proof. unfold post. intros H Heq. by rewrite Heq in H. Qed.

Lemma post_assert c h (Q : unit → heap → Prop) E :
  pure_cond c → Q tt h → post (assert_ c) h Q E.
Proof.
  intros Hc HQ. unfold assert_. destruct NDEBUG; [done|].
  unfold post, bind. specialize (Hc h). destruct (c h) as [b h'| | |]; try done.
  subst. by destruct b.
Qed.

Lemma pure_cond_ret b : pure_cond (T:=T) (ret b).
Proof. by intros h. Qed.

Lemma pure_cond_ptr_le p q : pure_cond (T:=T) (ptr_le p q).
Proof. intros h. unfold ptr_le. by destruct (ptr_diff q p). Qed.

Lemma pure_cond_ptr_lt p q : pure_cond (T:=T) (ptr_lt p q).
Proof. intros h. unfold ptr_lt. by destruct (ptr_diff q p). Qed.

Lemma pure_cond_bind_if c (d : M T bool) :
  pure_cond c → pure_cond d →
  pure_cond (b <- c ;; if b then d else ret false).
Proof.
  intros Hc Hd h. unfold bind. specialize (Hc h).
  destruct (c h) as [b h'| | |]; try done. subst.
  destruct b; [apply Hd | done].
Qed.

(** ** In-place updates of the heap *)

Lemma upd_refl L (h : heap) : upd L h h.
Proof. done. Qed.

Lemma upd_trans L (h1 h2 h3 : heap) : upd L h1 h2 → upd L h2 h3 → upd L h1 h3.
Proof.
  intros H12 H23 l. destruct (H12 l) as [Ha Hb], (H23 l) as [Hc Hd].
  split; [congruence|]. intros Hl. rewrite Hd, Hb; done.
Qed.

Lemma upd_mono L L' (h h' : heap) : L ⊆ L' → upd L h h' → upd L' h h'.
Proof. intros HL H l. destruct (H l) as [Ha Hb]. split; [done|]. intros Hl. apply Hb. set_solver. Qed.

Lemma upd_insert l (b b' : list T) (h : heap) :
  h !! l = Some b → length b' = length b → upd {[ l ]} h (<[l := b']> h).
Proof.
  intros Hl Hlen k. destruct (decide (l = k)) as [<-|].
  - rewrite lookup_insert_eq, Hl. simpl. split; [by f_equal | set_solver].
  - by rewrite lookup_insert_ne.
Qed.

Lemma upd_lookup_length L (h h' : heap) l b :
  upd L h h' → h !! l = Some b → ∃ b', h' !! l = Some b' ∧ length b' = length b.
Proof.
  intros H Hl. destruct (H l) as [Hlen _]. rewrite Hl in Hlen.
  destruct (h' !! l) as [b'|]; simplify_eq/=. eauto.
Qed.

Lemma upd_lookup_frame L (h h' : heap) l : upd L h h' → l ∉ L → h' !! l = h !! l.
Proof. intros H. by apply H. Qed.

Lemma locs_ptr_add p n : locs (ptr_add p n) = locs p.
Proof. destruct p; simpl; [by destruct (n =? 0)|done..]. Qed.

Lemma locs_ptr_dec p q : ptr_dec p = Some q → locs q = locs p.
Proof. destruct p as [|l [|i]|]; naive_solver. Qed.

(** ** The primitives *)

Lemma load_at l i (h : heap) b x :
  h !! l = Some b → b !! i = Some x → load (at_ l i) h = Ret x h.
Proof. intros Hl Hi. unfold load. by rewrite Hl, Hi. Qed.

Lemma store_at l i v (h : heap) b :
  h !! l = Some b → (i < length b)%nat →
  store (at_ l i) v h = Ret tt (<[l := <[i := v]> b]> h).
Proof. intros Hl Hi. unfold store. rewrite Hl. by case_decide. Qed.

Lemma post_load p h E : post (load p : M T T) h (λ _ h', h' = h) E.
Proof.
  unfold post, load. destruct p as [|l i|]; [done| |done].
  destruct (h !! l) as [b|]; [|done]. by destruct (b !! i).
Qed.

Lemma post_store p v h E : post (store p v) h (λ _ h', upd (locs p) h h') E.
Proof.
  unfold post, store. destruct p as [|l i|]; [done| |done].
  destruct (h !! l) as [b|] eqn:Hl; [|done]. case_decide; [|done].
  apply (upd_insert l b); [done|]. by rewrite length_insert.
Qed.

Lemma post_dec p h (Q : ptr → heap → Prop) E :
  (∀ q, ptr_dec p = Some q → Q q h) → post (dec p : M T ptr) h Q E.
Proof. intros HQ. unfold post, dec. destruct (ptr_dec p); [by apply HQ | done]. Qed.

Lemma post_range_len first last h (Q : nat → heap → Prop) E :
  (∀ n, ptr_diff last first = Some (Z.of_nat n) → Q n h) →
  post (range_len first last : M T nat) h Q E.
Proof.
  intros HQ. unfold post, range_len. destruct (ptr_diff last first) as [d|]; [|done].
  destruct (Z.ltb_spec d 0); [done|]. apply HQ. f_equal. lia.
Qed.

(** ** What the loops may touch *)

Tactic Notation "post_step" uconstr(lem) :=
  apply post_bind; eapply post_mono;
  [apply lem | simpl | let H := fresh in intros ? ? H; exact H].

Lemma post_fill_loop n p v h E :
  post (fill_loop n p v) h (λ _ h', upd (locs p) h h') E.
Proof.
  revert p h. induction n as [|n IH]; intros p h; simpl; [done|].
  post_step post_store. intros _ h1 H1.
  eapply post_mono; [apply IH | simpl | done].
  intros _ h2 H2. rewrite locs_ptr_add in H2. by eapply upd_trans.
Qed.

Lemma post_copy_loop n p q h E :
  post (copy_loop n p q) h (λ _ h', upd (locs q) h h') E.
Proof.
  revert p q h. induction n as [|n IH]; intros p q h; simpl; [done|].
  post_step post_load. intros v ? ->.
  post_step post_store. intros _ h1 H1.
  eapply post_mono; [apply IH | simpl | done].
  intros _ h2 H2. rewrite locs_ptr_add in H2. by eapply upd_trans.
Qed.

Lemma post_move_assign d s h E :
  post (move_assign d s) h (λ _ h', upd (locs d ∪ locs s) h h') E.
Proof.
  unfold move_assign.
  post_step post_load. intros v ? ->.
  post_step post_store. intros _ h1 H1.
  eapply post_mono; [apply post_store | simpl | done].
  intros _ h2 H2. eapply upd_trans; eapply upd_mono; try eassumption; set_solver.
Qed.

Lemma post_assign_from d item h E :
  post (assign_from d item) h (λ _ h', upd (locs d) h h') E.
Proof.
  destruct item as [v|p]; simpl; [apply post_store|].
  post_step post_load. intros v ? ->. apply post_store.
Qed.

Lemma post_move_loop n p q h E :
  post (move_loop n p q) h (λ _ h', upd (locs p ∪ locs q) h h') E.
Proof.
  revert p q h. induction n as [|n IH]; intros p q h; simpl; [done|].
  post_step post_move_assign. intros _ h1 H1.
  eapply post_mono; [apply IH | simpl | done].
  intros _ h2 H2. rewrite !locs_ptr_add in H2.
  rewrite (union_comm_L (locs q)) in H1. by eapply upd_trans.
Qed.

Lemma post_copy_backward_loop n p q h E :
  post (copy_backward_loop n p q) h (λ _ h', upd (locs q) h h') E.
Proof.
  revert p q h. induction n as [|n IH]; intros p q h; simpl; [done|].
  apply post_bind; apply post_dec; intros d Hd.
  apply post_bind; apply post_dec; intros s Hs.
  post_step post_load. intros v ? ->.
  post_step post_store. intros _ h1 H1.
  eapply post_mono; [apply IH | simpl | done].
  intros _ h2 H2. rewrite <- (locs_ptr_dec _ _ Hd). by eapply upd_trans.
Qed.

Lemma post_move_backward_loop n p q h E :
  post (move_backward_loop n p q) h (λ _ h', upd (locs p ∪ locs q) h h') E.
Proof.
  revert p q h. induction n as [|n IH]; intros p q h; simpl; [done|].
  apply post_bind; apply post_dec; intros d Hd.
  apply post_bind; apply post_dec; intros s Hs.
  post_step post_move_assign. intros _ h1 H1.
  eapply post_mono; [apply IH | simpl | done].
  intros _ h2 H2. rewrite <- (locs_ptr_dec _ _ Hd), <- (locs_ptr_dec _ _ Hs).
  rewrite (union_comm_L (locs d)) in H1. by eapply upd_trans.
Qed.

Lemma post_copy_init init q h E :
  post (copy_init init q) h (λ _ h', upd (locs q) h h') E.
Proof.
  revert q h. induction init as [|v init IH]; intros q h; simpl; [done|].
  post_step post_store. intros _ h1 H1.
  eapply post_mono; [apply IH | simpl | done].
  intros _ h2 H2. rewrite locs_ptr_add in H2. by eapply upd_trans.
Qed.

Lemma post_equal_loop n p q h E :
  post (equal_loop n p q) h (λ _ h', h' = h) E.
Proof.
  revert p q h. induction n as [|n IH]; intros p q h; simpl; [done|].
  post_step post_load. intros a ? ->.
  post_step post_load. intros b ? ->.
  destruct (Type_eqb a b); [apply IH | done].
Qed.

Lemma post_std_fill first last v h E :
  post (std_fill first last v) h (λ _ h', upd (locs first) h h') E.
Proof. apply post_bind, post_range_len. intros n _. apply post_fill_loop. Qed.

Lemma post_std_copy first last d h E :
  post (std_copy first last d) h (λ _ h', upd (locs d) h h') E.
Proof. apply post_bind, post_range_len. intros n _. apply post_copy_loop. Qed.

Lemma post_std_move first last d h E :
  post (std_move first last d) h (λ _ h', upd (locs first ∪ locs d) h h') E.
Proof. apply post_bind, post_range_len. intros n _. apply post_move_loop. Qed.

Lemma post_std_copy_backward first last d h E :
  post (std_copy_backward first last d) h (λ _ h', upd (locs d) h h') E.
Proof. apply post_bind, post_range_len. intros n _. apply post_copy_backward_loop. Qed.

Lemma post_std_move_backward first last d h E :
  post (std_move_backward first last d) h (λ _ h', upd (locs last ∪ locs d) h h') E.
Proof. apply post_bind, post_range_len. intros n _. apply post_move_backward_loop. Qed.

Lemma post_Fill first last h E :
  post (Fill first last) h (λ _ h', upd (locs first) h h') E.
Proof.
  unfold Fill. apply post_bind, post_assert; [apply pure_cond_ptr_lt|].
  apply post_bind, post_range_len. intros n _. apply post_fill_loop.
Qed.

(** ** What the loops compute *)

Lemma ptr_add_at l i n : ptr_add (at_ l i) n = at_ l (i + N.to_nat n).
Proof. done. Qed.

Lemma ptr_add_1 l i : ptr_add (at_ l i) 1 = at_ l (S i).
Proof. simpl. f_equal. lia. Qed.

Lemma take_S_insert (b : list T) i x :
  (i < length b)%nat → take (S i) (<[i := x]> b) = take i b ++ [x].
Proof.
  intros Hi. rewrite (take_S_r _ _ x) by (by apply list_lookup_insert_eq).
  by rewrite take_insert_ge.
Qed.

Lemma take_S_drop (b : list T) k n x :
  b !! (k + n)%nat = Some x → take (S n) (drop k b) = take n (drop k b) ++ [x].
Proof. intros Hx. apply take_S_r. by rewrite lookup_drop. Qed.

Lemma fill_loop_at n l i x h b :
  h !! l = Some b → (i + n ≤ length b)%nat →
  fill_loop n (at_ l i) x h
  = Ret tt (<[l := take i b ++ replicate n x ++ drop (i + n) b]> h).
Proof.
  revert i h b. induction n as [|n IH]; intros i h b Hl Hn; cbn [fill_loop].
  - unfold ret. f_equal. rewrite Nat.add_0_r. simpl. rewrite take_drop. by rewrite insert_id.
  - unfold bind. rewrite (store_at _ _ _ _ b), ptr_add_1 by (done || lia).
    rewrite (IH _ _ (<[i := x]> b)); [|by rewrite lookup_insert_eq|rewrite length_insert; lia].
    rewrite insert_insert_eq. do 2 f_equal.
    rewrite take_S_insert by lia. rewrite drop_insert_lt by lia.
    rewrite <- app_assoc. simpl. by replace (i + S n)%nat with (S (i + n)) by lia.
Qed.

Lemma copy_loop_at n ls i ld j h bs bd :
  ls ≠ ld → h !! ls = Some bs → h !! ld = Some bd →
  (i + n ≤ length bs)%nat → (j + n ≤ length bd)%nat →
  copy_loop n (at_ ls i) (at_ ld j) h
  = Ret tt (<[ld := take j bd ++ take n (drop i bs) ++ drop (j + n) bd]> h).
Proof.
  revert i j h bd. induction n as [|n IH]; intros i j h bd Hne Hs Hd Hi Hj; cbn [copy_loop].
  - unfold ret. f_equal. rewrite Nat.add_0_r. simpl. rewrite take_drop. by rewrite insert_id.
  - destruct (lookup_lt_is_Some_2 bs i) as [x Hx]; [lia|].
    unfold bind. rewrite (load_at _ _ _ bs x) by done.
    rewrite (store_at _ _ _ _ bd), !ptr_add_1 by (done || lia).
    rewrite (IH _ _ _ (<[j := x]> bd)); try done.
    + rewrite insert_insert_eq. do 2 f_equal.
      rewrite take_S_insert by lia. rewrite drop_insert_lt by lia.
      rewrite (drop_S bs x i) by done. simpl.
      rewrite <- app_assoc. simpl. by replace (j + S n)%nat with (S (j + n)) by lia.
    + by rewrite lookup_insert_ne.
    + by rewrite lookup_insert_eq.
    + lia.
    + rewrite length_insert. lia.
Qed.

Lemma move_assign_at ls i ld j h bs bd x :
  ls ≠ ld → h !! ls = Some bs → h !! ld = Some bd →
  bs !! i = Some x → (j < length bd)%nat →
  move_assign (at_ ld j) (at_ ls i) h
  = Ret tt (<[ls := <[i := moved_from x]> bs]> (<[ld := <[j := x]> bd]> h)).
Proof.
  intros Hne Hs Hd Hx Hj. unfold move_assign, bind.
  rewrite (load_at _ _ _ bs x) by done.
  rewrite (store_at _ _ _ _ bd) by done.
  rewrite (store_at _ _ _ _ bs); [done|by rewrite lookup_insert_ne|].
  by eapply lookup_lt_Some.
Qed.

Lemma move_loop_at n ls i ld j h bs bd :
  ls ≠ ld → h !! ls = Some bs → h !! ld = Some bd →
  (i + n ≤ length bs)%nat → (j + n ≤ length bd)%nat →
  move_loop n (at_ ls i) (at_ ld j) h
  = Ret tt (<[ls := take i bs ++ (moved_from <$> take n (drop i bs)) ++ drop (i + n) bs]>
            (<[ld := take j bd ++ take n (drop i bs) ++ drop (j + n) bd]> h)).
Proof.
  revert i j h bs bd. induction n as [|n IH]; intros i j h bs bd Hne Hs Hd Hi Hj; cbn [move_loop].
  - unfold ret. f_equal. rewrite !Nat.add_0_r. simpl. rewrite !take_drop.
    rewrite (insert_id h ld) by done. by rewrite insert_id.
  - destruct (lookup_lt_is_Some_2 bs i) as [x Hx]; [lia|].
    unfold bind. rewrite (move_assign_at _ _ _ _ _ bs bd x), !ptr_add_1 by (done || lia).
    rewrite (IH _ _ _ (<[i := moved_from x]> bs) (<[j := x]> bd)); try done.
    + rewrite (insert_insert_ne _ ld ls) by done.
      rewrite !insert_insert_eq.
      f_equal. f_equal.
      * rewrite take_S_insert by lia. rewrite !drop_insert_lt by lia.
        rewrite (drop_S bs x i) by done. simpl.
        rewrite <- app_assoc. simpl. by replace (i + S n)%nat with (S (i + n)) by lia.
      * f_equal. rewrite take_S_insert by lia. rewrite !drop_insert_lt by lia.
        rewrite (drop_S bs x i) by done. simpl.
        rewrite <- app_assoc. simpl. by replace (j + S n)%nat with (S (j + n)) by lia.
    + by rewrite lookup_insert_eq.
    + rewrite lookup_insert_ne by done. by rewrite lookup_insert_eq.
    + rewrite length_insert. lia.
    + rewrite length_insert. lia.
Qed.
Lemma take_drop_insert_ge (b : list T) n k i x :
  (k + n ≤ i)%nat → take n (drop k (<[i := x]> b)) = take n (drop k b).
Proof.
  intros Hi. rewrite drop_insert_ge by lia. by rewrite take_insert_ge by lia.
Qed.

Lemma drop_insert_eq (b : list T) i x :
  (i < length b)%nat → drop i (<[i := x]> b) = x :: drop (S i) b.
Proof.
  intros Hi. rewrite (drop_S _ x i) by (by apply list_lookup_insert_eq).
  by rewrite drop_insert_lt by lia.
Qed.

Lemma dec_at l i h : dec (at_ l (S i)) h = Ret (at_ l i) h.
Proof. done. Qed.

Lemma copy_backward_loop_shift n l s h b :
  h !! l = Some b → (n ≤ s)%nat → (s < length b)%nat →
  copy_backward_loop n (at_ l s) (at_ l (S s)) h
  = Ret tt (<[l := take (S (s - n)) b ++ take n (drop (s - n) b) ++ drop (S s) b]> h).
Proof.
  revert s h b. induction n as [|n IH]; intros s h b Hl Hn Hs; cbn [copy_backward_loop].
  - unfold ret. f_equal. rewrite Nat.sub_0_r. simpl. rewrite take_drop. by rewrite insert_id.
  - destruct s as [|s']; [lia|].
    destruct (lookup_lt_is_Some_2 b s') as [x Hx]; [lia|].
    unfold bind. rewrite !dec_at. rewrite (load_at _ _ _ b x) by done.
    rewrite (store_at _ _ _ _ b) by done.
    rewrite (IH _ _ (<[S s' := x]> b));
      [|by rewrite lookup_insert_eq|lia|rewrite length_insert; lia].
    rewrite insert_insert_eq. do 2 f_equal.
    replace (S s' - S n)%nat with (s' - n)%nat by lia.
    rewrite take_insert_ge by lia. rewrite take_drop_insert_ge by lia.
    rewrite drop_insert_eq by lia.
    rewrite (take_S_drop b (s' - n) n x) by (rewrite <- Hx; f_equal; lia).
    by rewrite <- !app_assoc.
Qed.

Lemma move_assign_same l i j h b x :
  h !! l = Some b → b !! i = Some x → (j < length b)%nat →
  move_assign (at_ l j) (at_ l i) h
  = Ret tt (<[l := <[i := moved_from x]> (<[j := x]> b)]> h).
Proof.
  intros Hl Hx Hj. unfold move_assign, bind.
  rewrite (load_at _ _ _ b x) by done.
  rewrite (store_at _ _ _ _ b) by done.
  rewrite (store_at _ _ _ _ (<[j := x]> b)).
  - by rewrite insert_insert_eq.
  - by rewrite lookup_insert_eq.
  - rewrite length_insert. by eapply lookup_lt_Some.
Qed.

Lemma move_backward_loop_shift n l s h b :
  h !! l = Some b → (n ≤ s)%nat → (s < length b)%nat →
  ∃ b', move_backward_loop n (at_ l s) (at_ l (S s)) h = Ret tt (<[l := b']> h) ∧
        length b' = length b ∧
        take (s - n) b' = take (s - n) b ∧
        drop (S (s - n)) b' = take n (drop (s - n) b) ++ drop (S s) b.
Proof.
  revert s h b. induction n as [|n IH]; intros s h b Hl Hn Hs; cbn [move_backward_loop].
  - exists b. unfold ret. rewrite insert_id by done. by rewrite Nat.sub_0_r.
  - destruct s as [|s']; [lia|].
    destruct (lookup_lt_is_Some_2 b s') as [x Hx]; [lia|].
    unfold bind. rewrite !dec_at. rewrite (move_assign_same _ _ _ _ b x) by done.
    destruct (IH s' (<[l := <[s' := moved_from x]> (<[S s' := x]> b)]> h)
                (<[s' := moved_from x]> (<[S s' := x]> b)))
      as (b' & -> & Hlen & Htake & Hdrop);
      [by rewrite lookup_insert_eq|lia|rewrite !length_insert; lia|].
    exists b'. rewrite insert_insert_eq. split; [done|].
    rewrite !length_insert in Hlen. split; [done|].
    replace (S s' - S n)%nat with (s' - n)%nat by lia. split.
    + rewrite Htake. by rewrite !take_insert_ge by lia.
    + rewrite Hdrop. rewrite !take_drop_insert_ge by lia.
      rewrite drop_insert_lt by lia. rewrite drop_insert_eq by lia.
      rewrite (take_S_drop b (s' - n) n x) by (rewrite <- Hx; f_equal; lia).
      by rewrite <- !app_assoc.
Qed.

Lemma move_backward_loop_at n ls s ld e h bs bd :
  ls ≠ ld → h !! ls = Some bs → h !! ld = Some bd →
  (n ≤ s)%nat → (s ≤ length bs)%nat → (n ≤ e)%nat → (e ≤ length bd)%nat →
  move_backward_loop n (at_ ls s) (at_ ld e) h
  = Ret tt (<[ls := take (s - n) bs ++ (moved_from <$> take n (drop (s - n) bs)) ++ drop s bs]>
            (<[ld := take (e - n) bd ++ take n (drop (s - n) bs) ++ drop e bd]> h)).
Proof.
  revert s e h bs bd.
  induction n as [|n IH]; intros s e h bs bd Hne Hs Hd Hns Hsl Hne' Hel;
    cbn [move_backward_loop].
  - unfold ret. f_equal. rewrite !Nat.sub_0_r. simpl. rewrite !take_drop.
    rewrite (insert_id h ld) by done. by rewrite insert_id.
  - destruct s as [|s']; [lia|]. destruct e as [|e']; [lia|].
    destruct (lookup_lt_is_Some_2 bs s') as [x Hx]; [lia|].
    unfold bind. rewrite !dec_at.
    rewrite (move_assign_at _ _ _ _ _ bs bd x) by (done || lia).
    rewrite (IH _ _ _ (<[s' := moved_from x]> bs) (<[e' := x]> bd)); try done.
    + rewrite (insert_insert_ne _ ld ls) by done. rewrite !insert_insert_eq.
      replace (S s' - S n)%nat with (s' - n)%nat by lia.
      replace (S e' - S n)%nat with (e' - n)%nat by lia.
      f_equal. f_equal.
      * rewrite take_insert_ge by lia. rewrite take_drop_insert_ge by lia.
        rewrite drop_insert_eq by lia.
        rewrite (take_S_drop bs (s' - n) n x) by (rewrite <- Hx; f_equal; lia).
        rewrite fmap_app. by rewrite <- !app_assoc.
      * f_equal. rewrite take_insert_ge by lia. rewrite take_drop_insert_ge by lia.
        rewrite drop_insert_eq by lia.
        rewrite (take_S_drop bs (s' - n) n x) by (rewrite <- Hx; f_equal; lia).
        by rewrite <- !app_assoc.
    + by rewrite lookup_insert_eq.
    + rewrite lookup_insert_ne by done. by rewrite lookup_insert_eq.
    + lia.
    + rewrite length_insert. lia.
    + lia.
    + rewrite length_insert. lia.
Qed.

Lemma copy_init_at init l j h b :
  h !! l = Some b → (j + length init ≤ length b)%nat →
  copy_init init (at_ l j) h
  = Ret tt (<[l := take j b ++ init ++ drop (j + length init) b]> h).
Proof.
  revert j h b. induction init as [|x init IH]; intros j h b Hl Hj; cbn [copy_init].
  - unfold ret. f_equal. simpl. rewrite Nat.add_0_r, take_drop. by rewrite insert_id.
  - simpl in Hj. unfold bind. rewrite (store_at _ _ _ _ b), ptr_add_1 by (done || lia).
    rewrite (IH _ _ (<[j := x]> b));
      [|by rewrite lookup_insert_eq|rewrite length_insert; lia].
    rewrite insert_insert_eq. do 2 f_equal.
    rewrite take_S_insert by lia. rewrite drop_insert_lt by lia.
    rewrite <- app_assoc. simpl.
    by replace (j + S (length init))%nat with (S j + length init)%nat by lia.
Qed.

Lemma equal_loop_same n l1 i l2 j h b1 b2 :
  (∀ x, Type_eqb x x = true) →
  h !! l1 = Some b1 → h !! l2 = Some b2 →
  (i + n ≤ length b1)%nat → (j + n ≤ length b2)%nat →
  take n (drop i b1) = take n (drop j b2) →
  equal_loop n (at_ l1 i) (at_ l2 j) h = Ret true h.
Proof.
  intros Hrefl. revert i j. induction n as [|n IH]; intros i j H1 H2 Hi Hj Heq;
    cbn [equal_loop]; [done|].
  destruct (lookup_lt_is_Some_2 b1 i) as [x Hx]; [lia|].
  destruct (lookup_lt_is_Some_2 b2 j) as [y Hy]; [lia|].
  rewrite (drop_S b1 x i), (drop_S b2 y j) in Heq by done. simpl in Heq.
  injection Heq as -> Heq.
  unfold bind. rewrite (load_at _ _ _ b1 y), (load_at _ _ _ b2 y) by done.
  rewrite Hrefl, !ptr_add_1. apply IH; try done; lia.
Qed.

(** ** Allocation, deallocation, pointer differences *)

Lemma ptr_diff_locs q p d : ptr_diff q p = Some d → locs q = locs p.
Proof.
  destruct q as [|l j|], p as [|k i|]; simpl; try done.
  case_decide; [by subst | done].
Qed.

Lemma post_ptr_sub q p h (Q : N → heap → Prop) E :
  (∀ d, ptr_diff q p = Some d → Q (Z.to_N (d mod 2 ^ 64)) h) →
  post (ptr_sub q p) h Q E.
Proof. intros HQ. unfold post, ptr_sub. destruct (ptr_diff q p); [by apply HQ | done]. Qed.

Lemma post_ArrayPtr_new n h E (Q : ArrayPtr → heap → Prop) :
  (n = 0 → Q {| raw_ptr_ := nullptr |} h) →
  (∀ l, n ≠ 0 → n ≤ max_array_len → h !! l = None →
        Q {| raw_ptr_ := at_ l 0 |} (<[l := replicate (N.to_nat n) new_elem]> h)) →
  (max_array_len < n → E bad_alloc h) →
  post (ArrayPtr_new n) h Q E.
Proof.
  intros H0 Hnew Hthrow. unfold ArrayPtr_new. destruct (N.eqb_spec n 0) as [->|Hn].
  { by apply post_ret, H0. }
  unfold post, bind, new_array. destruct (N.ltb_spec max_array_len n); [by apply Hthrow|].
  simpl. apply Hnew; [done..|]. apply (not_elem_of_dom (D := gset positive)), is_fresh.
Qed.

Lemma post_delete_array p h E (Q : unit → heap → Prop) :
  (p = nullptr → Q tt h) →
  (∀ l b, p = at_ l 0 → h !! l = Some b → Q tt (delete l h)) →
  post (delete_array p) h Q E.
Proof.
  intros Hnull Hat. unfold post, delete_array. destruct p as [|l [|i]|]; try done.
  - by apply Hnull.
  - destruct (h !! l) as [b|] eqn:Hl; [|done]. by eapply Hat.
Qed.

(** ** Well-formedness under the steps a member function is made of *)

Lemma vec_ok_upd L h h' this : upd L h h' → vec_ok h this → vec_ok h' this.
Proof.
  intros Hupd (Hs & Hc & Hp). split; [done|]. split; [done|].
  destruct (raw_ptr_ (items_ this)) as [|l i|]; [done| |done].
  destruct Hp as (-> & b & Hl & Hlen). split; [done|].
  destruct (upd_lookup_length _ _ _ _ _ Hupd Hl) as (b' & Hl' & Hlen').
  exists b'. split; [done|]. lia.
Qed.

Lemma vec_ok_set_size h this n :
  vec_ok h this → n ≤ capacity_ this → vec_ok h (set_size n this).
Proof. intros (Hs & Hc & Hp) Hn. by split. Qed.

Lemma vec_ok_bounds h this :
  vec_ok h this → size_ this ≤ capacity_ this ∧ capacity_ this < 2 ^ 63.
Proof. intros (Hs & Hc & _). pose proof max_array_len_bound. lia. Qed.

(** A call that keeps its block and rewrites it in place. *)
Lemma local_step_in_place h this this' h' :
  vec_ok h this → items_ this' = items_ this → capacity_ this' = capacity_ this →
  size_ this' ≤ capacity_ this →
  upd (locs (raw_ptr_ (items_ this))) h h' →
  local_step h this this' h'.
Proof.
  intros Hok Hi Hc Hs Hupd. split; [|split].
  - eapply vec_ok_upd; [exact Hupd|]. destruct Hok as (? & ? & Hp).
    unfold vec_ok. rewrite Hi, Hc. done.
  - intros l b Hl Hnot. by rewrite (upd_lookup_frame _ _ _ _ Hupd).
  - intros l. rewrite Hi. auto.
Qed.

(** A call that moves to a new block [lt] and frees the old one. *)
Lemma local_step_realloc h this lt b0 h3 nc sz E :
  vec_ok h this → h !! lt = None →
  upd (locs (raw_ptr_ (items_ this)) ∪ {[ lt ]}) (<[lt := b0]> h) h3 →
  (N.to_nat nc ≤ length b0)%nat → nc ≤ max_array_len → sz ≤ nc →
  post (delete_array (raw_ptr_ (items_ this))) h3
       (λ _ h4, local_step h this
                  {| items_ := {| raw_ptr_ := at_ lt 0 |}; capacity_ := nc; size_ := sz |} h4)
       E.
Proof.
  intros Hok Hlt Hupd Hlen Hnc Hsz.
  destruct (upd_lookup_length _ _ _ lt b0 Hupd) as (b3 & Hb3 & Hlen3);
    [by rewrite lookup_insert_eq|].
  assert (Hframe : ∀ l b, h !! l = Some b → l ∉ locs (raw_ptr_ (items_ this)) →
                          h3 !! l = Some b).
  { intros l b Hl Hnot. assert (Hne : l ≠ lt) by congruence.
    rewrite (upd_lookup_frame _ _ _ _ Hupd).
    - by rewrite lookup_insert_ne.
    - apply not_elem_of_union. split; [done | by apply not_elem_of_singleton]. }
  apply post_delete_array.
  - intros Hnull. split; [|split].
    + split; [done|]. split; [done|]. simpl. split; [done|]. exists b3. split; [done|]. lia.
    + intros l b Hl Hnot. by apply Hframe.
    + intros l Hl. simpl in Hl. right. set_solver.
  - intros l b Hraw Hl3. destruct Hok as (_ & _ & Hp). rewrite Hraw in Hp.
    destruct Hp as (_ & b' & Hl & _). assert (l ≠ lt) by congruence.
    split; [|split].
    + split; [done|]. split; [done|]. simpl. split; [done|]. exists b3.
      rewrite lookup_delete_ne by done. split; [done|]. lia.
    + intros l' b1 Hl' Hnot. rewrite Hraw in Hnot.
      rewrite lookup_delete_ne by set_solver. apply Hframe; [done|]. by rewrite Hraw.
    + intros l' Hl'. simpl in Hl'. right. set_solver.
Qed.

(** A further in-place update of the block a call ends with. *)
Lemma local_step_then_upd h this this' h1 h2 :
  local_step h this this' h1 → upd (locs (raw_ptr_ (items_ this'))) h1 h2 →
  local_step h this this' h2.
Proof.
  intros (Hok & Hframe & Hown) Hupd. split; [|split].
  - by eapply vec_ok_upd.
  - intros l b Hl Hnot. rewrite (upd_lookup_frame _ _ _ _ Hupd); [by apply Hframe|].
    intros Hin. destruct (Hown _ Hin); [done|congruence].
  - done.
Qed.

Lemma local_step_set_size h this this' h' n :
  local_step h this this' h' → n ≤ capacity_ this' →
  local_step h this (set_size n this') h'.
Proof. intros (Hok & Hframe & Hown) Hn. split; [by apply vec_ok_set_size|done]. Qed.

Lemma local_step_refl h this : vec_ok h this → local_step h this this h.
Proof. intros Hok. split; [done|]. split; [done|auto]. Qed.

(** ** What each member function may do *)

Lemma Resize_local new_size this h :
  vec_ok h this →
  post (Resize new_size this) h
       (λ this' h', local_step h this this' h') (λ _ h', h' = h).
Proof.
  intros Hok. destruct (vec_ok_bounds _ _ Hok) as [Hsz Hcap].
  unfold Resize. cbv zeta.
  set (this1 := if new_size <=? size_ this then set_size new_size this else this).
  assert (H1 : items_ this1 = items_ this ∧ capacity_ this1 = capacity_ this ∧
               size_ this1 ≤ capacity_ this).
  { subst this1. destruct (N.leb_spec new_size (size_ this)); simpl;
      repeat split; try done; lia. }
  destruct H1 as (Hi & Hc & Hs). rewrite !Hi, !Hc.
  destruct (N.leb_spec new_size (capacity_ this)) as [Hle|Hgt].
  - replace (capacity_ this <? new_size) with false by (symmetry; apply N.ltb_ge; lia).
    post_step post_Fill. intros _ h1 Hupd. apply post_ret.
    rewrite locs_ptr_add in Hupd. by apply local_step_in_place.
  - replace (capacity_ this <? new_size) with true by (symmetry; apply N.ltb_lt; lia).
    apply post_bind, post_ret.
    set (new_capacity := N.max new_size (size_t_mul (capacity_ this) 2)).
    apply post_bind, post_ArrayPtr_new; [lia| |done].
    intros lt Hn0 Hmax Hlt. unfold Get. cbn [raw_ptr_].
    post_step post_Fill. intros _ h2 Hupd2. cbn [locs] in Hupd2.
    post_step post_std_move. intros _ h3 Hupd3.
    unfold ArrayPtr_swap, ArrayPtr_destroy, set_capacity, set_size, set_items.
    cbn [raw_ptr_ items_ capacity_ size_].
    apply post_bind.
    eapply post_mono;
      [apply (local_step_realloc h this lt (replicate (N.to_nat new_capacity) new_elem)
                h3 new_capacity new_size (λ _ h', h' = h)) | | ]; try done.
    + eapply upd_trans; eapply upd_mono; try eassumption; set_solver.
    + by rewrite length_replicate.
    + lia.
Qed.
Lemma Reserve_local new_capacity this h :
  vec_ok h this →
  post (Reserve new_capacity this) h
       (λ this' h', local_step h this this' h') (λ _ h', h' = h).
Proof.
  intros Hok. destruct (vec_ok_bounds _ _ Hok) as [Hsz Hcap].
  unfold Reserve. destruct (N.ltb_spec (capacity_ this) new_capacity) as [Hlt|Hge].
  - apply post_bind, post_ArrayPtr_new; [lia| |done].
    intros lt Hn0 Hmax Hfresh. unfold Get. cbn [raw_ptr_].
    apply post_bind.
    eapply post_mono with
      (Q := λ _ h2, upd {[ lt ]} (<[lt := replicate (N.to_nat new_capacity) new_elem]> h) h2)
      (E := λ _ h', h' = h); [| |done].
    { destruct (0 <? size_ this); [|by apply post_ret].
      eapply post_mono; [apply post_std_copy|simpl|]; [done|]. intros ? ? Hf. exact Hf. }
    intros _ h2 Hupd2.
    unfold ArrayPtr_swap, ArrayPtr_destroy, set_capacity, set_items.
    cbn [raw_ptr_ items_ capacity_ size_].
    apply post_bind.
    eapply post_mono;
      [apply (local_step_realloc h this lt (replicate (N.to_nat new_capacity) new_elem)
                h2 new_capacity (size_ this) (λ _ h', h' = h)) | | ]; try done.
    + eapply upd_mono; [apply union_subseteq_r|done].
    + by rewrite length_replicate.
    + lia.
  - by apply post_ret, local_step_refl.
Qed.

Lemma PushBack_local item this h :
  vec_ok h this →
  post (PushBack item this) h
       (λ this' h', local_step h this this' h') (λ _ h', h' = h).
Proof.
  intros Hok. destruct (vec_ok_bounds _ _ Hok) as [Hsz Hcap].
  unfold PushBack. destruct (N.ltb_spec (size_ this) (capacity_ this)) as [Hlt|Hge].
  - post_step post_assign_from. intros _ h1 Hupd. apply post_ret.
    unfold ArrayPtr_index in Hupd. rewrite locs_ptr_add in Hupd.
    apply local_step_in_place; try done. simpl.
    rewrite size_t_add_small by lia. lia.
  - destruct (N.eqb_spec (size_ this) (capacity_ this)) as [Heq|Hne].
    + apply post_bind. eapply post_mono; [by apply Resize_local| |done].
      intros this1 h1 Hstep. simpl.
      post_step post_assign_from. intros _ h2 Hupd. apply post_ret.
      unfold ArrayPtr_index in Hupd. rewrite locs_ptr_add in Hupd.
      by eapply local_step_then_upd.
    + by apply post_ret, local_step_refl.
Qed.

Lemma PushBack_move_local item this h :
  vec_ok h this →
  post (PushBack_move (outside item) this) h
       (λ this' h', local_step h this this' h') (λ _ h', h' = h).
Proof. apply (PushBack_local (outside item)). Qed.

Lemma pure_cond_in_range this pos :
  pure_cond (T := T)
    (c <- ptr_le (begin_ this) pos ;; if c then ptr_le pos (end_ this) else ret false).
Proof. apply pure_cond_bind_if; apply pure_cond_ptr_le. Qed.

Lemma Insert_local pos value this h :
  vec_ok h this →
  post (Insert pos value this) h
       (λ r h', local_step h this (snd r) h') (λ _ h', h' = h).
Proof.
  intros Hok. destruct (vec_ok_bounds _ _ Hok) as [Hsz Hcap].
  unfold Insert. apply post_bind, post_assert; [apply pure_cond_in_range|].
  apply post_bind, post_ptr_sub. intros d Hd.
  set (count := Z.to_N (d mod 2 ^ 64)). cbv zeta.
  apply post_bind.
  eapply post_mono with
    (Q := λ this' h', local_step h this this' h' ∧ size_ this' = size_ this ∧
                      size_ this + 1 ≤ capacity_ this')
    (E := λ _ h', h' = h); [| |done].
  2:{ intros this' h' (Hstep & Hs & Hc). apply post_ret. simpl.
      apply local_step_set_size; [done|]. rewrite Hs, size_t_add_small; lia. }
  destruct (N.ltb_spec (size_ this) (capacity_ this)) as [Hlt|Hge].
  - post_step post_std_copy_backward. intros _ h1 Hupd1.
    post_step post_store. intros _ h2 Hupd2. apply post_ret.
    unfold end_, begin_, Get in *. rewrite !locs_ptr_add in Hupd1.
    rewrite (ptr_diff_locs _ _ _ Hd) in Hupd2.
    split; [|split; [done|lia]].
    apply local_step_in_place; try done. by eapply upd_trans.
  - set (new_capacity := N.max (size_t_add (size_ this) 1) (size_t_mul (capacity_ this) 2)).
    assert (size_ this + 1 ≤ new_capacity).
    { subst new_capacity. rewrite size_t_add_small; lia. }
    apply post_bind, post_ArrayPtr_new; [lia| |done].
    intros lt Hn0 Hmax Hfresh. unfold Get. cbn [raw_ptr_].
    post_step post_std_copy. intros _ h2 Hupd2.
    post_step post_store. intros _ h3 Hupd3.
    post_step post_std_copy. intros _ h4 Hupd4.
    unfold ArrayPtr_swap, ArrayPtr_destroy, set_capacity, set_items.
    cbn [raw_ptr_ items_ capacity_ size_].
    apply post_bind.
    eapply post_mono;
      [apply (local_step_realloc h this lt (replicate (N.to_nat new_capacity) new_elem)
                h4 new_capacity (size_ this) (λ _ h', h' = h)) | | ]; try done.
    + eapply upd_mono with (L := {[ lt ]}); [apply union_subseteq_r|].
      eapply upd_trans; [|done]. by eapply upd_trans.
    + by rewrite length_replicate.
    + lia.
Qed.

Lemma Insert_move_local pos value this h :
  vec_ok h this →
  post (Insert_move pos value this) h
       (λ r h', local_step h this (snd r) h') (λ _ h', h' = h).
Proof.
  intros Hok. destruct (vec_ok_bounds _ _ Hok) as [Hsz Hcap].
  unfold Insert_move. apply post_bind, post_assert; [apply pure_cond_in_range|].
  apply post_bind, post_ptr_sub. intros d Hd.
  set (count := Z.to_N (d mod 2 ^ 64)). cbv zeta.
  apply post_bind.
  eapply post_mono with
    (Q := λ this' h', local_step h this this' h' ∧ size_ this' = size_ this ∧
                      size_ this + 1 ≤ capacity_ this')
    (E := λ _ h', h' = h); [| |done].
  2:{ intros this' h' (Hstep & Hs & Hc). apply post_ret. simpl.
      apply local_step_set_size; [done|]. rewrite Hs, size_t_add_small; lia. }
  destruct (N.eqb_spec (capacity_ this) 0) as [Hc0|Hc0].
  { apply post_bind, post_ArrayPtr_new; [done| |done].
    intros lt Hn0 Hmax Hfresh. unfold ArrayPtr_index. cbn [raw_ptr_].
    post_step post_store. intros _ h2 Hupd2.
    unfold ArrayPtr_swap, ArrayPtr_destroy, set_capacity, set_items.
    cbn [raw_ptr_ items_ capacity_ size_].
    rewrite Hc0. change (size_t_add 0 1) with 1.
    apply post_bind.
    eapply post_mono;
      [apply (local_step_realloc h this lt (replicate (N.to_nat 1) new_elem)
                h2 1 (size_ this) (λ _ h', h' = h)) | | ]; try done.
    + eapply upd_mono; [apply union_subseteq_r|done].
    + lia.
    + intros ? h3 Hstep. apply post_ret. split; [done|]. simpl. split; [done|lia]. }
  destruct (N.ltb_spec (size_ this) (capacity_ this)) as [Hlt|Hge].
  - post_step post_std_move_backward. intros _ h1 Hupd1.
    post_step post_store. intros _ h2 Hupd2. apply post_ret.
    unfold ArrayPtr_index, Get in *.
    rewrite !locs_ptr_add in Hupd1. rewrite locs_ptr_add in Hupd2.
    rewrite union_idemp_L in Hupd1.
    split; [|split; [done|lia]].
    apply local_step_in_place; try done. by eapply upd_trans.
  - set (new_capacity := N.max (size_t_add (size_ this) 1) (size_t_mul (capacity_ this) 2)).
    assert (size_ this + 1 ≤ new_capacity).
    { subst new_capacity. rewrite size_t_add_small; lia. }
    apply post_bind, post_ArrayPtr_new; [lia| |done].
    intros lt Hn0 Hmax Hfresh. unfold Get, ArrayPtr_index. cbn [raw_ptr_].
    post_step post_std_move. intros _ h2 Hupd2.
    post_step post_std_move_backward. intros _ h3 Hupd3.
    post_step post_store. intros _ h4 Hupd4.
    unfold ArrayPtr_swap, ArrayPtr_destroy, set_capacity, set_items.
    cbn [raw_ptr_ items_ capacity_ size_].
    rewrite !locs_ptr_add in Hupd3.
    apply post_bind.
    eapply post_mono;
      [apply (local_step_realloc h this lt (replicate (N.to_nat new_capacity) new_elem)
                h4 new_capacity (size_ this) (λ _ h', h' = h)) | | ]; try done.
    + eapply upd_trans; [|eapply upd_mono; [apply union_subseteq_r|done]].
      by eapply upd_trans.
    + by rewrite length_replicate.
    + lia.
Qed.

Lemma PopBack_local this h :
  vec_ok h this → NDEBUG = false ∨ size_ this ≠ 0 →
  post (PopBack this) h
       (λ this' h', local_step h this this' h') (λ _ h', h' = h).
Proof.
  intros Hok Hpre. destruct (vec_ok_bounds _ _ Hok) as [Hsz Hcap].
  unfold PopBack, assert_, IsEmpty.
  assert (Hgoal : size_ this ≠ 0 →
    post (ret (set_size (size_t_sub (size_ this) 1) this)) h
         (λ this' h', local_step h this this' h') (λ _ h', h' = h)).
  { intros Hne. apply post_ret, local_step_set_size; [by apply local_step_refl|].
    rewrite size_t_sub_small; lia. }
  destruct NDEBUG.
  - apply post_bind, post_ret. apply Hgoal. by destruct Hpre.
  - apply post_bind, post_bind, post_ret. destruct (N.eqb_spec (size_ this) 0); simpl.
    + apply post_abort.
    + apply post_ret. by apply Hgoal.
Qed.

Lemma post_std_move_range first last d h E :
  post (std_move first last d) h
       (λ _ h', upd (locs first ∪ locs d) h h' ∧
                ∃ n, ptr_diff last first = Some (Z.of_nat n)) E.
Proof.
  apply post_bind, post_range_len. intros n Hn.
  eapply post_mono; [apply post_move_loop| |done]. simpl. eauto.
Qed.

Lemma Erase_local pos this h :
  vec_ok h this →
  post (Erase pos this) h
       (λ r h', local_step h this (snd r) h') (λ _ h', h' = h).
Proof.
  intros Hok. destruct (vec_ok_bounds _ _ Hok) as [Hsz Hcap].
  unfold Erase. apply post_bind, post_assert; [apply pure_cond_ret|].
  apply post_bind, post_assert; [apply pure_cond_ptr_le|].
  apply post_bind, post_ptr_sub. intros d Hd.
  set (count := Z.to_N (d mod 2 ^ 64)).
  post_step post_std_move_range. intros _ h1 (Hupd & n & Hn). apply post_ret. simpl.
  unfold Get in *. rewrite !locs_ptr_add in Hupd.
  assert (size_ this ≠ 0).
  { destruct (raw_ptr_ (items_ this)) as [|l i|]; simpl in Hn.
    - by destruct (count =? 0), (size_ this =? 0).
    - case_decide; [|done]. injection Hn as Hn. lia.
    - done. }
  apply local_step_set_size.
  - apply local_step_in_place; try done. by rewrite union_idemp_L in Hupd.
  - rewrite size_t_sub_small; lia.
Qed.

Lemma run_mutator_local m this h :
  vec_ok h this →
  NDEBUG = false ∨ (m = Call_PopBack → size_ this ≠ 0) →
  post (run_mutator m this) h
       (λ r h', local_step h this (snd r) h') (λ _ h', h' = h).
Proof.
  intros Hok Hpre. destruct m; simpl; unfold keep, forget.
  - apply post_ret. simpl. apply local_step_set_size; [by apply local_step_refl|lia].
  - post_step Resize_local; [done|]. intros. by apply post_ret.
  - post_step Reserve_local; [done|]. intros. by apply post_ret.
  - post_step PushBack_local; [done|]. intros. by apply post_ret.
  - post_step PushBack_move_local; [done|]. intros. by apply post_ret.
  - post_step Insert_local; [done|]. intros. by apply post_ret.
  - post_step Insert_move_local; [done|]. intros. by apply post_ret.
  - post_step PopBack_local; [done| |].
    + destruct Hpre as [?|Hp]; [by left | right; by apply Hp].
    + intros. by apply post_ret.
  - post_step Erase_local; [done|]. intros. by apply post_ret.
  - post_step post_store. intros _ h1 Hupd. apply post_ret. simpl.
    unfold index, ArrayPtr_index in Hupd. rewrite locs_ptr_add in Hupd.
    apply local_step_in_place; try done. by destruct Hok.
Qed.

(** ** What each constructor may do *)

Lemma vec_ok_default h : vec_ok h SimpleVector_default.
Proof. split; [done|]. split; [|done]. simpl. lia. Qed.

Lemma vec_ok_live h this l :
  vec_ok h this → l ∈ locs (raw_ptr_ (items_ this)) → is_Some (h !! l).
Proof.
  intros (_ & _ & Hp). destruct (raw_ptr_ (items_ this)) as [|k i|]; simpl; [set_solver| |done].
  destruct Hp as (_ & b & Hk & _). intros ->%elem_of_singleton. eauto.
Qed.

(** A constructor that takes a new block [lt]. *)
Lemma local_step_new h lt b0 h3 nc sz :
  h !! lt = None → upd {[ lt ]} (<[lt := b0]> h) h3 →
  (N.to_nat nc ≤ length b0)%nat → nc ≤ max_array_len → sz ≤ nc →
  local_step h SimpleVector_default
    {| items_ := {| raw_ptr_ := at_ lt 0 |}; capacity_ := nc; size_ := sz |} h3.
Proof.
  intros Hlt Hupd Hlen Hnc Hsz.
  assert (Hupd' : upd (locs (raw_ptr_ (items_ SimpleVector_default)) ∪ {[ lt ]})
                       (<[lt := b0]> h) h3).
  { simpl. by rewrite union_empty_l_L. }
  exact (local_step_realloc h SimpleVector_default lt b0 h3 nc sz (λ _ _, True)
           (vec_ok_default h) Hlt Hupd' Hlen Hnc Hsz).
Qed.

(** A constructor that takes no block. *)
Lemma local_step_null h h' :
  upd ∅ h h' →
  local_step h SimpleVector_default
    {| items_ := {| raw_ptr_ := nullptr |}; capacity_ := 0; size_ := 0 |} h'.
Proof.
  intros Hupd. apply local_step_in_place; try done. apply vec_ok_default.
Qed.

Lemma SimpleVector_size_value_local size value h :
  post (SimpleVector_size_value size value) h
       (λ this' h', local_step h SimpleVector_default this' h') (λ _ h', h' = h).
Proof.
  unfold SimpleVector_size_value. apply post_bind, post_ArrayPtr_new; [| |done].
  - intros ->. cbv zeta. unfold Get. cbn [raw_ptr_ items_ size_].
    post_step post_std_fill. intros _ h1 Hupd. apply post_ret. by apply local_step_null.
  - intros lt Hn0 Hmax Hfresh. cbv zeta. unfold Get. cbn [raw_ptr_ items_ size_].
    post_step post_std_fill. intros _ h1 Hupd. apply post_ret.
    eapply local_step_new; try done. by rewrite length_replicate.
Qed.

Lemma SimpleVector_init_local init h :
  post (SimpleVector_init init) h
       (λ this' h', local_step h SimpleVector_default this' h') (λ _ h', h' = h).
Proof.
  unfold SimpleVector_init. cbv zeta. apply post_bind, post_ArrayPtr_new; [| |done].
  - intros Hn. rewrite Hn. unfold Get. cbn [raw_ptr_ items_ size_].
    post_step post_copy_init. intros _ h1 Hupd. apply post_ret. by apply local_step_null.
  - intros lt Hn0 Hmax Hfresh. unfold Get. cbn [raw_ptr_ items_ size_].
    post_step post_copy_init. intros _ h1 Hupd. apply post_ret.
    eapply local_step_new; try done. by rewrite length_replicate.
Qed.

Lemma SimpleVector_copy_local other h :
  post (SimpleVector_copy other) h
       (λ this' h', local_step h SimpleVector_default this' h') (λ _ h', h' = h).
Proof.
  unfold SimpleVector_copy. apply post_bind, post_ArrayPtr_new; [| |done].
  - intros Hn. rewrite Hn. cbv zeta. unfold Get. cbn [raw_ptr_ items_ size_].
    post_step post_std_copy. intros _ h1 Hupd. apply post_ret. by apply local_step_null.
  - intros lt Hn0 Hmax Hfresh. cbv zeta. unfold Get. cbn [raw_ptr_ items_ size_].
    post_step post_std_copy. intros _ h1 Hupd. apply post_ret.
    eapply local_step_new; try done. by rewrite length_replicate.
Qed.

Lemma run_ctor_local c h :
  post (run_ctor c) h
       (λ this' h', local_step h SimpleVector_default this' h') (λ _ h', h' = h).
Proof.
  destruct c; simpl.
  - apply post_ret, local_step_refl, vec_ok_default.
  - apply SimpleVector_size_value_local.
  - apply SimpleVector_size_value_local.
  - apply SimpleVector_init_local.
  - apply Reserve_local, vec_ok_default.
Qed.

(** A call that gives up its block and takes none. *)
Lemma local_step_release h this h3 E :
  upd ∅ h h3 →
  post (delete_array (raw_ptr_ (items_ this))) h3
       (λ _ h4, local_step h this
                  {| items_ := {| raw_ptr_ := nullptr |}; capacity_ := 0; size_ := 0 |} h4)
       E.
Proof.
  intros Hupd.
  assert (Hok : ∀ h4, vec_ok h4 {| items_ := {| raw_ptr_ := nullptr |};
                                   capacity_ := 0; size_ := 0 |}).
  { intros h4. apply (vec_ok_default h4). }
  apply post_delete_array.
  - intros Hnull. split; [done|]. split; [|set_solver].
    intros l b Hl _. by rewrite (upd_lookup_frame _ _ _ _ Hupd).
  - intros l b Hraw Hl3. split; [done|]. split; [|set_solver].
    intros l' b' Hl' Hnot. rewrite Hraw in Hnot.
    rewrite lookup_delete_ne by set_solver.
    by rewrite (upd_lookup_frame _ _ _ _ Hupd).
Qed.

(** Copy-and-swap, as [operator=] does it on the target [this]. *)
Lemma copy_and_swap_local this rhs h :
  vec_ok h this →
  post (temp <- SimpleVector_copy rhs ;;
        let '(this', temp') := swap this temp in
        SimpleVector_destroy temp' ;;;
        ret this') h
       (λ this' h', local_step h this this' h') (λ _ h', h' = h).
Proof.
  intros Hok. unfold SimpleVector_copy.
  apply post_bind, post_bind, post_ArrayPtr_new; [| |done].
  - intros Hn. rewrite Hn. cbv zeta. unfold Get. cbn [raw_ptr_ items_ size_].
    post_step post_std_copy. intros _ h1 Hupd. apply post_ret.
    unfold swap, ArrayPtr_swap, SimpleVector_destroy, ArrayPtr_destroy.
    cbn [raw_ptr_ items_ size_ capacity_]. apply post_bind.
    eapply post_mono; [by apply (local_step_release h this h1 (λ _ h', h' = h))| |done].
    intros ? h2 Hstep. by apply post_ret.
  - intros lt Hn0 Hmax Hfresh. cbv zeta. unfold Get. cbn [raw_ptr_ items_ size_].
    post_step post_std_copy. intros _ h1 Hupd. apply post_ret.
    unfold swap, ArrayPtr_swap, SimpleVector_destroy, ArrayPtr_destroy.
    cbn [raw_ptr_ items_ size_ capacity_]. apply post_bind.
    eapply post_mono;
      [apply (local_step_realloc h this lt (replicate (N.to_nat (size_ rhs)) new_elem)
                h1 (size_ rhs) (size_ rhs) (λ _ h', h' = h)) | | ]; try done.
    + eapply upd_mono; [apply union_subseteq_r|done].
    + by rewrite length_replicate.
Qed.

(** ** Several vectors: ownership is preserved *)

Lemma vec_ok_frame h h' this :
  vec_ok h this →
  (∀ l b, l ∈ locs (raw_ptr_ (items_ this)) → h !! l = Some b → h' !! l = Some b) →
  vec_ok h' this.
Proof.
  intros (Hs & Hc & Hp) Hframe. split; [done|]. split; [done|].
  destruct (raw_ptr_ (items_ this)) as [|l i|]; [done| |done].
  destruct Hp as (-> & b & Hl & Hlen). split; [done|]. exists b. split; [|done].
  apply Hframe; [set_solver|done].
Qed.

(** Replacing the object at [x] (or creating it) by a well-formed one
    whose block no other object owns, while the blocks of the other
    objects stay as they are. *)
Lemma world_ok_update (w : world T) x this' h' :
  world_ok w →
  vec_ok h' this' →
  (∀ y vy l b, y ≠ x → objects w !! y = Some vy →
               l ∈ locs (raw_ptr_ (items_ vy)) → memory w !! l = Some b →
               h' !! l = Some b) →
  (∀ y vy l, y ≠ x → objects w !! y = Some vy →
             l ∈ locs (raw_ptr_ (items_ this')) → l ∉ locs (raw_ptr_ (items_ vy))) →
  world_ok {| objects := <[x := this']> (objects w); memory := h' |}.
Proof.
  intros [Hvec Hown] Hok' Hframe Hfresh. split; simpl.
  - intros y vy. rewrite lookup_insert. case_decide as Hxy.
    + by intros [= <-].
    + intros Hy. apply (vec_ok_frame (memory w)); [by eapply Hvec|].
      intros l b Hl Hb. by eapply (Hframe y vy).
  - intros y z vy vz l. rewrite !lookup_insert.
    case_decide as Hxy; case_decide as Hxz; try congruence.
    + intros [= <-] Hz Hl Hl'. by destruct (Hfresh z vz l).
    + intros Hy [= <-] Hl Hl'. by destruct (Hfresh y vy l).
    + apply Hown.
Qed.

(** The same for a step of a member function or constructor. *)
Lemma world_ok_local (w : world T) x this this' h' :
  world_ok w →
  objects w !! x = Some this ∨
    (objects w !! x = None ∧ locs (raw_ptr_ (items_ this)) = ∅) →
  local_step (memory w) this this' h' →
  world_ok {| objects := <[x := this']> (objects w); memory := h' |}.
Proof.
  intros Hw Hx (Hok' & Hframe & Hnew).
  assert (Hother : ∀ y vy l, y ≠ x → objects w !! y = Some vy →
                     l ∈ locs (raw_ptr_ (items_ vy)) →
                     l ∉ locs (raw_ptr_ (items_ this))).
  { intros y vy l Hxy Hy Hl Hl'. destruct Hx as [Hx|[_ Hx]].
    - destruct Hw as [_ Hown]. by specialize (Hown _ _ _ _ _ Hy Hx Hl Hl').
    - rewrite Hx in Hl'. set_solver. }
  apply world_ok_update; [done..| |].
  - intros y vy l b Hxy Hy Hl Hb. apply Hframe; [done|]. by eapply Hother.
  - intros y vy l Hxy Hy Hl Hl'. destruct (Hnew _ Hl) as [Hold|Hnone].
    + by eapply Hother.
    + destruct Hw as [Hvec _]. destruct (vec_ok_live _ _ _ (Hvec _ _ Hy) Hl') as [b Hb].
      congruence.
Qed.

Lemma call_step_ok x f (w : world T) :
  world_ok w →
  (∀ this, objects w !! x = Some this →
           post (f this) (memory w)
                (λ r h', local_step (memory w) this (snd r) h') (λ _ h', h' = memory w)) →
  step_ok w (call x f w).
Proof.
  intros Hw Hf. unfold call. destruct (objects w !! x) as [this|] eqn:Hx; [|done].
  specialize (Hf _ eq_refl). unfold post in Hf.
  destruct (f this (memory w)) as [[a this'] h'|e h'| |]; simpl; try done.
  - eapply world_ok_local; eauto.
  - subst. by destruct w.
Qed.

Lemma construct_step_ok x c (w : world T) :
  world_ok w →
  post c (memory w)
       (λ this' h', local_step (memory w) SimpleVector_default this' h')
       (λ _ h', h' = memory w) →
  step_ok w (construct x c w).
Proof.
  intros Hw Hc. unfold construct. destruct (objects w !! x) as [this|] eqn:Hx; [done|].
  unfold post in Hc.
  destruct (c (memory w)) as [this' h'|e h'| |]; simpl; try done.
  - eapply world_ok_local; [done| |exact Hc]. right. by split.
  - subst. by destruct w.
Qed.

Lemma world_eta (w : world T) : {| objects := objects w; memory := memory w |} = w.
Proof. by destruct w. Qed.

Lemma delete_array_Ret p h r h' :
  delete_array p h = Ret r h' →
  (p = nullptr ∧ h' = h) ∨ (∃ l b, p = at_ l 0 ∧ h !! l = Some b ∧ h' = delete l h).
Proof.
  unfold delete_array. destruct p as [|l [|i]|]; try done.
  - intros [= _ <-]. by left.
  - destruct (h !! l) as [b|] eqn:Hl; [|done]. intros [= _ <-]. right. eauto.
Qed.

Lemma delete_array_Throw p h e h' : delete_array p h = Throw e h' → False.
Proof.
  unfold delete_array. destruct p as [|l [|i]|]; try done. by destruct (h !! l).
Qed.

(** Freeing the block of the object at [x] leaves the blocks of the
    other objects alone. *)
Lemma delete_array_frame (w : world T) x this r h' :
  world_ok w → objects w !! x = Some this →
  delete_array (raw_ptr_ (items_ this)) (memory w) = Ret r h' →
  ∀ y vy l b, y ≠ x → objects w !! y = Some vy →
              l ∈ locs (raw_ptr_ (items_ vy)) → memory w !! l = Some b →
              h' !! l = Some b.
Proof.
  intros [Hvec Hown] Hx Hdel y vy l b Hxy Hy Hl Hb.
  destruct (delete_array_Ret _ _ _ _ Hdel) as [[_ ->]|(l' & b' & Hraw & Hl' & ->)]; [done|].
  rewrite lookup_delete_ne; [done|]. intros <-.
  apply Hxy. apply (Hown y x vy this l'); try done. rewrite Hraw. set_solver.
Qed.

Lemma destroy_step_ok x (w : world T) : world_ok w → step_ok w (destroy x w).
Proof.
  intros Hw. unfold destroy. destruct (objects w !! x) as [this|] eqn:Hx; [|done].
  unfold SimpleVector_destroy, ArrayPtr_destroy.
  destruct (delete_array (raw_ptr_ (items_ this)) (memory w)) as [[] h'|e h'| |] eqn:Hdel;
    simpl; try done.
  - pose proof (delete_array_frame w x this _ _ Hw Hx Hdel) as Hframe.
    destruct Hw as [Hvec Hown]. split; simpl.
    + intros y vy [Hxy Hy]%lookup_delete_Some.
      apply (vec_ok_frame (memory w)); [by eapply Hvec|].
      intros l b Hl Hb. by eapply Hframe.
    + intros y z vy vz l [_ Hy]%lookup_delete_Some [_ Hz]%lookup_delete_Some.
      by apply Hown.
  - by destruct (delete_array_Throw _ _ _ _ Hdel).
Qed.

Lemma vec_ok_fields h this this' :
  raw_ptr_ (items_ this') = raw_ptr_ (items_ this) →
  capacity_ this' = capacity_ this → size_ this' = size_ this →
  vec_ok h this → vec_ok h this'.
Proof. unfold vec_ok. by intros -> -> ->. Qed.

Lemma vec_ok_empty h :
  vec_ok h {| items_ := {| raw_ptr_ := nullptr |}; capacity_ := 0; size_ := 0 |}.
Proof. apply (vec_ok_default h). Qed.

Lemma assign_step_ok x y (w : world T) : world_ok w → step_ok w (assign x y w).
Proof.
  intros Hw. unfold assign.
  destruct (objects w !! x) as [a|] eqn:Hx; [|done].
  destruct (objects w !! y) as [b|] eqn:Hy; [|done].
  case_decide; [|done].
  pose proof (copy_and_swap_local a b (memory w)) as Hpost. unfold post in Hpost.
  match goal with |- context [?m (memory w)] =>
    destruct (m (memory w)) as [a' h'|e h'| |] end; simpl; try done.
  - eapply world_ok_local; [done|by left|]. apply Hpost. destruct Hw as [Hvec _]. eauto.
  - rewrite Hpost; [apply world_eta|]. destruct Hw as [Hvec _]. eauto.
Qed.

Lemma assign_move_step_ok x y (w : world T) : world_ok w → step_ok w (assign_move x y w).
Proof.
  intros Hw. unfold assign_move.
  destruct (objects w !! x) as [a|] eqn:Hx; [|done].
  destruct (objects w !! y) as [b|] eqn:Hy; [|done].
  case_decide as Hxy; [|done].
  unfold ArrayPtr_move_assign, bind.
  destruct (delete_array (raw_ptr_ (items_ a)) (memory w)) as [[] h'|e h'| |] eqn:Hdel;
    simpl; try done.
  2:{ by destruct (delete_array_Throw _ _ _ _ Hdel). }
  pose proof (delete_array_frame w x a _ _ Hw Hx Hdel) as Hframe.
  set (a' := {| items_ := {| raw_ptr_ := raw_ptr_ (items_ b) |};
                capacity_ := capacity_ b; size_ := size_ b |}).
  set (b' := {| items_ := {| raw_ptr_ := nullptr |}; capacity_ := 0; size_ := 0 |}).
  assert (Hw1 : world_ok {| objects := <[y := b']> (objects w); memory := memory w |}).
  { apply world_ok_update; [done|apply vec_ok_empty|auto|set_solver]. }
  destruct Hw as [Hvec Hown].
  rewrite insert_insert_ne by done.
  change (world_ok {| objects := <[x := a']>
                        (objects {| objects := <[y := b']> (objects w);
                                    memory := memory w |});
                      memory := h' |}).
  apply world_ok_update; [done| | |]; simpl.
  - apply (vec_ok_frame (memory w)).
    + apply (vec_ok_fields _ b); try done. by eapply Hvec.
    + simpl. intros l b0 Hl Hb0. by eapply (Hframe y b).
  - intros z vz l b0 Hzx. rewrite lookup_insert. case_decide as Hyz.
    + intros [= <-]. set_solver.
    + intros Hz Hl Hb0. by eapply Hframe.
  - intros z vz l Hzx. rewrite lookup_insert. case_decide as Hyz.
    + intros [= <-]. set_solver.
    + intros Hz Hl Hl'. apply Hyz. by eapply (Hown y z b vz l).
Qed.

Lemma ArrayPtr_new_Ret n h a h' :
  ArrayPtr_new n h = Ret a h' →
  (n = 0 ∧ a = {| raw_ptr_ := nullptr |} ∧ h' = h) ∨
  (∃ l, n ≠ 0 ∧ n ≤ max_array_len ∧ h !! l = None ∧ a = {| raw_ptr_ := at_ l 0 |} ∧
        h' = <[l := replicate (N.to_nat n) new_elem]> h).
Proof.
  intros Heq.
  assert (Hpost : post (ArrayPtr_new n) h
    (λ a h', (n = 0 ∧ a = {| raw_ptr_ := nullptr |} ∧ h' = h) ∨
             (∃ l, n ≠ 0 ∧ n ≤ max_array_len ∧ h !! l = None ∧
                   a = {| raw_ptr_ := at_ l 0 |} ∧
                   h' = <[l := replicate (N.to_nat n) new_elem]> h))
    (λ _ _, True)).
  { apply post_ArrayPtr_new; [auto| |done]. intros l ? ? ?. right. exists l. auto. }
  exact (post_Ret _ _ _ _ _ _ Hpost Heq).
Qed.

Lemma ArrayPtr_new_Throw n h e h' : ArrayPtr_new n h = Throw e h' → h' = h.
Proof.
  intros Heq.
  eapply (post_Throw _ _ (λ _ _, True) (λ _ h', h' = h)); [|exact Heq].
  by apply post_ArrayPtr_new.
Qed.

Lemma construct_move_step_ok x y (w : world T) :
  world_ok w → step_ok w (construct_move x y w).
Proof.
  intros Hw. unfold construct_move.
  destruct (objects w !! x) as [a|] eqn:Hx; [done|].
  destruct (objects w !! y) as [b|] eqn:Hy; [|done].
  assert (Hxy : x ≠ y) by congruence.
  unfold SimpleVector_move, bind.
  destruct (ArrayPtr_new (capacity_ b) (memory w)) as [items h'|e h'| |] eqn:Hnew;
    simpl; try done.
  2:{ rewrite (ArrayPtr_new_Throw _ _ _ _ Hnew). apply world_eta. }
  unfold ArrayPtr_swap. cbn [raw_ptr_ items_ capacity_ size_].
  set (v := {| items_ := {| raw_ptr_ := raw_ptr_ (items_ b) |};
               capacity_ := capacity_ b; size_ := size_ b |}).
  set (o' := {| items_ := {| raw_ptr_ := raw_ptr_ items |}; capacity_ := 0; size_ := 0 |}).
  assert (Hstep : local_step (memory w) SimpleVector_default o' h').
  { destruct (ArrayPtr_new_Ret _ _ _ _ Hnew)
      as [(_ & -> & ->)|(l & Hn0 & Hmax & Hl & -> & ->)].
    - by apply local_step_null.
    - apply (local_step_new _ l (replicate (N.to_nat (capacity_ b)) new_elem));
        [done|apply upd_refl|simpl; lia|lia|lia]. }
  destruct Hstep as (Hok' & Hframe & Hnone).
  assert (Hw1 : world_ok {| objects := <[y := o']> (objects w); memory := h' |}).
  { apply world_ok_update; [done..| |].
    - intros z vz l b0 _ Hz Hl Hb0. apply Hframe; [done|set_solver].
    - intros z vz l _ Hz Hl Hl'. destruct (Hnone _ Hl) as [?|Hn]; [set_solver|].
      destruct Hw as [Hvec _]. destruct (vec_ok_live _ _ _ (Hvec _ _ Hz) Hl'). congruence. }
  destruct Hw as [Hvec Hown].
  change (world_ok {| objects := <[x := v]>
                        (objects {| objects := <[y := o']> (objects w); memory := h' |});
                      memory := memory {| objects := <[y := o']> (objects w);
                                          memory := h' |} |}).
  apply world_ok_update; [done| |auto|]; simpl.
  - apply (vec_ok_frame (memory w)).
    + apply (vec_ok_fields _ b); try done. by eapply Hvec.
    + simpl. intros l b0 Hl Hb0. apply Hframe; [done|set_solver].
  - intros z vz l Hzx. rewrite lookup_insert. case_decide as Hyz.
    + intros [= <-] Hl Hl'. destruct (Hnone _ Hl') as [?|Hn]; [set_solver|].
      destruct (vec_ok_live _ _ _ (Hvec _ _ Hy) Hl). congruence.
    + intros Hz Hl Hl'. apply Hyz. by eapply (Hown y z b vz l).
Qed.

Lemma swap_objects_step_ok x y (w : world T) :
  world_ok w → step_ok w (swap_objects x y w).
Proof.
  intros [Hvec Hown]. unfold swap_objects.
  destruct (objects w !! x) as [a|] eqn:Hx; [|done].
  destruct (objects w !! y) as [b|] eqn:Hy; [|done].
  unfold swap, ArrayPtr_swap. simpl.
  set (a' := {| items_ := {| raw_ptr_ := raw_ptr_ (items_ b) |};
                capacity_ := capacity_ b; size_ := size_ b |}).
  set (b' := {| items_ := {| raw_ptr_ := raw_ptr_ (items_ a) |};
                capacity_ := capacity_ a; size_ := size_ a |}).
  assert (Ha' : vec_ok (memory w) a') by (apply (vec_ok_fields _ b); eauto).
  assert (Hb' : vec_ok (memory w) b') by (apply (vec_ok_fields _ a); eauto).
  (* where the block of each object of the new world was before *)
  assert (Horigin : ∀ z vz, <[y := b']> (<[x := a']> (objects w)) !! z = Some vz →
            ∃ z' vz', objects w !! z' = Some vz' ∧
                      raw_ptr_ (items_ vz) = raw_ptr_ (items_ vz') ∧
                      z' = (if decide (z = y) then x else if decide (z = x) then y else z)).
  { intros z vz. rewrite !lookup_insert.
    destruct (decide (y = z)) as [->|Hyz].
    { intros [= <-]. exists x, a. by rewrite decide_True by done. }
    destruct (decide (x = z)) as [->|Hxz].
    { intros [= <-]. exists y, b. rewrite decide_False by done.
      by rewrite decide_True by done. }
    intros Hz. exists z, vz. by rewrite !decide_False by done. }
  split; simpl.
  - intros z vz. rewrite !lookup_insert. repeat case_decide; try by intros [= <-].
    apply Hvec.
  - intros z1 z2 v1 v2 l H1 H2 Hl1 Hl2.
    destruct (Horigin _ _ H1) as (z1' & v1' & H1' & Hr1 & Hz1).
    destruct (Horigin _ _ H2) as (z2' & v2' & H2' & Hr2 & Hz2).
    rewrite Hr1 in Hl1. rewrite Hr2 in Hl2.
    pose proof (Hown _ _ _ _ _ H1' H2' Hl1 Hl2) as Heq. subst z1' z2'.
    repeat case_decide; congruence.
Qed.

(** ** Every step keeps the worlds well formed *)

Lemma exec_step_ok o (w : world T) :
  world_ok w → NDEBUG = false ∨ precondition o w → step_ok w (exec o w).
Proof.
  intros Hw Hpre. destruct o as [x c|x y|x y|x|x m|x y|x y|x y]; simpl.
  - apply construct_step_ok; [done|]. apply run_ctor_local.
  - destruct (objects w !! y) as [o|]; [|done].
    apply construct_step_ok; [done|]. apply SimpleVector_copy_local.
  - by apply construct_move_step_ok.
  - by apply destroy_step_ok.
  - apply call_step_ok; [done|]. intros this Hx. apply run_mutator_local.
    + destruct Hw as [Hvec _]. eauto.
    + destruct Hpre as [?|Hpre]; [by left|]. right. intros ->. simpl in Hpre.
      by rewrite Hx in Hpre.
  - by apply swap_objects_step_ok.
  - by apply assign_step_ok.
  - by apply assign_move_step_ok.
Qed.

Lemma world_ok_empty : world_ok (empty_world (T := T)).
Proof. split; intros *; simpl; by rewrite lookup_empty. Qed.

Lemma reachable_world_ok (w : world T) : reachable w → world_ok w.
Proof.
  induction 1 as [|w o w' _ IH Hpre Hstep]; [apply world_ok_empty|].
  pose proof (exec_step_ok o w IH Hpre) as Hok.
  destruct Hstep as [Heq|[e Heq]]; rewrite Heq in Hok; simpl in Hok; by subst.
Qed.

(** In a build with assertions, a step that returns or throws had its
    precondition. *)
Lemma assertions_check_precondition o (w w' : world T) :
  NDEBUG = false →
  (exec o w = Ret tt w' ∨ ∃ e, exec o w = Throw e w') →
  precondition o w.
Proof.
  intros Hdebug Hstep. destruct o as [| | | |x m| | |]; try done.
  destruct m; try done. simpl in *.
  destruct (objects w !! x) as [this|] eqn:Hx; [|done].
  intros Hempty. unfold call in Hstep. rewrite Hx in Hstep.
  unfold run_mutator, keep, PopBack, assert_, bind, IsEmpty, ret in Hstep.
  rewrite Hdebug, Hempty in Hstep.
  simpl in Hstep. by destruct Hstep as [?|[? ?]].
Qed.

(** C9: in every world a program can reach, every vector has
    [size_ <= capacity_].  The program is any sequence of constructor
    calls, destructions, [PushBack], [PopBack], [Insert], [Erase],
    [Resize], [Reserve], [Clear], element stores, [swap], copy and move
    assignment, with any arguments, each call returning or throwing.  In
    a build without assertions [PopBack] has to be called as its contract
    asks, on a non-empty vector. *)
Theorem size_le_capacity_invariant (w : world T) x this :
  reachable w → objects w !! x = Some this → size_ this ≤ capacity_ this.
Proof.
  intros Hreach Hx. destruct (reachable_world_ok w Hreach) as [Hvec _].
  by destruct (Hvec x this Hx).
Qed.

(** ** Running the pieces on well-formed vectors *)

Lemma vec_ok_cases h this :
  vec_ok h this →
  (raw_ptr_ (items_ this) = nullptr ∧ capacity_ this = 0 ∧ size_ this = 0 ∧
   block_of h this = []) ∨
  (∃ l b, raw_ptr_ (items_ this) = at_ l 0 ∧ h !! l = Some b ∧ block_of h this = b ∧
          (N.to_nat (capacity_ this) ≤ length b)%nat).
Proof.
  intros (Hs & Hc & Hp). unfold block_of.
  destruct (raw_ptr_ (items_ this)) as [|l i|]; [|destruct Hp as (-> & b & Hl & Hlen)|done].
  - left. repeat split; try done. lia.
  - right. exists l, b. by rewrite Hl.
Qed.

Lemma range_len_at l i j h :
  (i ≤ j)%nat → range_len (at_ l i) (at_ l j) h = Ret (j - i)%nat h.
Proof.
  intros Hij. unfold range_len. simpl. rewrite decide_True by done.
  destruct (Z.ltb_spec (Z.of_nat j - Z.of_nat i) 0); [lia|].
  unfold ret. f_equal. lia.
Qed.

Lemma range_len_null h : range_len nullptr nullptr h = Ret O h.
Proof. done. Qed.

Lemma ptr_lt_at l i j h : ptr_lt (at_ l i) (at_ l j) h = Ret (bool_decide (i < j)%nat) h.
Proof.
  unfold ptr_lt. simpl. rewrite decide_True by done. unfold ret. f_equal.
  case_bool_decide; [apply Z.ltb_lt|apply Z.ltb_ge]; lia.
Qed.

Lemma ptr_le_at l i j h : ptr_le (at_ l i) (at_ l j) h = Ret (bool_decide (i ≤ j)%nat) h.
Proof.
  unfold ptr_le. simpl. rewrite decide_True by done. unfold ret. f_equal.
  case_bool_decide; [apply Z.leb_le|apply Z.leb_gt]; lia.
Qed.

Lemma ptr_sub_at l i j h :
  (i ≤ j)%nat → (N.of_nat (j - i) < 2 ^ 64) →
  ptr_sub (at_ l j) (at_ l i) h = Ret (N.of_nat (j - i)) h.
Proof.
  intros Hij Hsmall. unfold ptr_sub. simpl. rewrite decide_True by done.
  unfold ret. f_equal. rewrite Z.mod_small by lia. lia.
Qed.

Lemma ArrayPtr_new_ok n h :
  n ≠ 0 → n ≤ max_array_len →
  ∃ l, h !! l = None ∧
       ArrayPtr_new n h
       = Ret {| raw_ptr_ := at_ l 0 |} (<[l := replicate (N.to_nat n) new_elem]> h).
Proof.
  intros Hn Hmax. exists (fresh (dom h)). split.
  - apply (not_elem_of_dom (D := gset positive)), is_fresh.
  - unfold ArrayPtr_new. rewrite (proj2 (N.eqb_neq n 0)) by done.
    unfold bind, new_array. by rewrite (proj2 (N.ltb_ge max_array_len n)) by done.
Qed.

Lemma ArrayPtr_new_0 h : ArrayPtr_new 0 h = Ret {| raw_ptr_ := nullptr |} h.
Proof. done. Qed.

Lemma ArrayPtr_new_bad_alloc n h :
  max_array_len < n → ArrayPtr_new n h = Throw bad_alloc h.
Proof.
  intros Hmax. unfold ArrayPtr_new. rewrite (proj2 (N.eqb_neq n 0)) by lia.
  unfold bind, new_array. by rewrite (proj2 (N.ltb_lt max_array_len n)) by done.
Qed.

Lemma delete_array_at l h b :
  h !! l = Some b → delete_array (at_ l 0) h = Ret tt (delete l h).
Proof. intros Hl. unfold delete_array. by rewrite Hl. Qed.

Lemma assert_true c h : c h = Ret true h → assert_ c h = Ret tt h.
Proof. intros Hc. unfold assert_, bind. destruct NDEBUG; [done|]. by rewrite Hc. Qed.

Lemma Fill_at l i j h b :
  h !! l = Some b → (i < j)%nat → (j ≤ length b)%nat →
  Fill (at_ l i) (at_ l j) h
  = Ret tt (<[l := take i b ++ replicate (j - i) Type_default ++ drop j b]> h).
Proof.
  intros Hl Hij Hj. unfold Fill, bind.
  rewrite assert_true by (rewrite ptr_lt_at; by rewrite bool_decide_eq_true_2).
  rewrite range_len_at by lia. rewrite (fill_loop_at _ _ _ _ _ b) by (done || lia).
  by replace (i + (j - i))%nat with j by lia.
Qed.

Lemma std_copy_at ls i j ld k h bs bd :
  ls ≠ ld → h !! ls = Some bs → h !! ld = Some bd →
  (i ≤ j)%nat → (j ≤ length bs)%nat → (k + (j - i) ≤ length bd)%nat →
  std_copy (at_ ls i) (at_ ls j) (at_ ld k) h
  = Ret tt (<[ld := take k bd ++ take (j - i) (drop i bs) ++ drop (k + (j - i)) bd]> h).
Proof.
  intros Hne Hs Hd Hij Hj Hk. unfold std_copy, bind. rewrite range_len_at by done.
  by rewrite (copy_loop_at _ _ _ _ _ _ bs bd) by (done || lia).
Qed.

Lemma std_move_at ls i j ld k h bs bd :
  ls ≠ ld → h !! ls = Some bs → h !! ld = Some bd →
  (i ≤ j)%nat → (j ≤ length bs)%nat → (k + (j - i) ≤ length bd)%nat →
  std_move (at_ ls i) (at_ ls j) (at_ ld k) h
  = Ret tt (<[ls := take i bs ++ (moved_from <$> take (j - i) (drop i bs)) ++ drop j bs]>
            (<[ld := take k bd ++ take (j - i) (drop i bs) ++ drop (k + (j - i)) bd]> h)).
Proof.
  intros Hne Hs Hd Hij Hj Hk. unfold std_move, bind. rewrite range_len_at by done.
  rewrite (move_loop_at _ _ _ _ _ _ bs bd) by (done || lia).
  by replace (i + (j - i))%nat with j by lia.
Qed.

(** [Resize] to more than the capacity: a new block of
    [max(new_size, 2 * capacity)] elements, all of them [Type()] except
    the first [capacity_], which are the old block's; the old block is
    freed. *)
Lemma Resize_grow new_size this h :
  vec_ok h this → capacity_ this < new_size →
  N.max new_size (2 * capacity_ this) ≤ max_array_len →
  ∃ l h',
    Resize new_size this h
    = Ret {| items_ := {| raw_ptr_ := at_ l 0 |};
             capacity_ := N.max new_size (2 * capacity_ this);
             size_ := new_size |} h' ∧
    h !! l = None ∧
    h' !! l = Some (take (N.to_nat (capacity_ this)) (block_of h this) ++
                    replicate (N.to_nat (N.max new_size (2 * capacity_ this))
                               - N.to_nat (capacity_ this)) Type_default) ∧
    (∀ k, k ≠ l → k ∉ locs (raw_ptr_ (items_ this)) → h' !! k = h !! k).
Proof.
  intros Hok Hgt Hmax. destruct (vec_ok_bounds _ _ Hok) as [Hsz Hcap].
  set (nc := N.max new_size (2 * capacity_ this)) in *.
  unfold Resize. cbv zeta.
  rewrite (proj2 (N.leb_gt new_size (size_ this))) by lia.
  rewrite (proj2 (N.leb_gt new_size (capacity_ this))) by lia.
  rewrite (proj2 (N.ltb_lt (capacity_ this) new_size)) by lia.
  rewrite size_t_mul_small, (N.mul_comm _ 2) by lia. fold nc.
  destruct (ArrayPtr_new_ok nc h) as (l & Hl & Hnew); [lia|done|].
  exists l. unfold bind at 1. unfold ret at 1. unfold bind at 1. rewrite Hnew.
  unfold Get. cbn [raw_ptr_]. unfold bind at 1.
  rewrite ptr_add_at. rewrite Nat.add_0_l.
  rewrite (Fill_at _ _ _ _ (replicate (N.to_nat nc) new_elem));
    [|by rewrite lookup_insert_eq|lia|by rewrite length_replicate].
  rewrite insert_insert_eq.
  rewrite Nat.sub_0_r, drop_ge, app_nil_r by (by rewrite length_replicate).
  rewrite take_0, app_nil_l.
  unfold ArrayPtr_swap, ArrayPtr_destroy, set_capacity, set_size, set_items.
  cbn [raw_ptr_ items_ capacity_ size_].
  destruct (vec_ok_cases _ _ Hok) as [(Hraw & Hc0 & Hs0 & Hb)|(lo & b & Hraw & Hlo & Hb & Hlen)];
    rewrite Hraw, Hb.
  - rewrite Hc0. simpl ptr_add. unfold bind, std_move, bind. rewrite range_len_null. simpl.
    eexists. split; [done|]. split; [done|]. split.
    + rewrite lookup_insert_eq. by rewrite Nat.sub_0_r.
    + intros k Hk _. by rewrite lookup_insert_ne.
  - assert (Hne : lo ≠ l) by congruence.
    rewrite ptr_add_at, Nat.add_0_l. unfold bind at 1.
    rewrite (std_move_at _ _ _ _ _ _ b (replicate (N.to_nat nc) Type_default));
      [|done|by rewrite lookup_insert_ne|by rewrite lookup_insert_eq|lia|lia|
       rewrite length_replicate; lia].
    unfold bind. rewrite (delete_array_at _ _ _ (lookup_insert_eq _ _ _)).
    eexists. split; [done|]. split; [done|]. split.
    + rewrite lookup_delete_ne by done. rewrite lookup_insert_ne by done.
      rewrite insert_insert_eq, lookup_insert_eq. f_equal. simpl.
      rewrite Nat.sub_0_r, drop_0. f_equal. by rewrite drop_replicate.
    + intros k Hk Hk'. rewrite lookup_delete_ne by set_solver.
      rewrite lookup_insert_ne by set_solver. rewrite insert_insert_eq.
      by rewrite lookup_insert_ne.
Qed.

Lemma contents_length h this :
  vec_ok h this → length (contents h this) = N.to_nat (size_ this).
Proof.
  intros Hok. destruct (vec_ok_bounds _ _ Hok) as [Hsz _]. unfold contents.
  rewrite length_take.
  destruct (vec_ok_cases _ _ Hok) as [(_ & _ & Hs0 & ->)|(l & b & _ & _ & -> & Hlen)];
    simpl; lia.
Qed.

Lemma block_of_at h l c s b :
  h !! l = Some b →
  block_of h {| items_ := {| raw_ptr_ := at_ l 0 |}; capacity_ := c; size_ := s |} = b.
Proof. intros Hl. unfold block_of. simpl. by rewrite Hl. Qed.

(** [PushBack], in either overload, of an object outside the heap, on a
    well-formed vector for which the allocation it may need can
    succeed. *)
Lemma PushBack_returns item this h push :
  vec_ok h this →
  size_ this < capacity_ this ∨
    N.max (capacity_ this + 1) (2 * capacity_ this) ≤ max_array_len →
  push = PushBack ∨ push = PushBack_move →
  ∃ this' h',
    push (outside item) this h = Ret this' h' ∧
    vec_ok h' this' ∧
    size_ this' = size_ this + 1 ∧
    contents h' this' = contents h this ++ [item] ∧
    contents h' this' !! N.to_nat (size_ this) = Some item ∧
    (size_ this < capacity_ this →
       capacity_ this' = capacity_ this ∧ items_ this' = items_ this) ∧
    (¬ size_ this < capacity_ this →
       capacity_ this' = N.max (capacity_ this + 1) (2 * capacity_ this) ∧
       2 * capacity_ this ≤ capacity_ this') ∧
    1 ≤ capacity_ this' ∧
    capacity_ this ≤ capacity_ this'.
Proof.
  intros Hok Halloc Hpush.
  assert (push (outside item) = PushBack (outside item)) as ->
    by (by destruct Hpush as [->| ->]).
  destruct (vec_ok_bounds _ _ Hok) as [Hsz Hcap].
  pose proof (PushBack_local (outside item) this h Hok) as Hlocal.
  pose proof (contents_length _ _ Hok) as Hlen.
  cut (∃ this' h', PushBack (outside item) this h = Ret this' h' ∧
         size_ this' = size_ this + 1 ∧
         contents h' this' = contents h this ++ [item] ∧
         (size_ this < capacity_ this →
            capacity_ this' = capacity_ this ∧ items_ this' = items_ this) ∧
         (¬ size_ this < capacity_ this →
            capacity_ this' = N.max (capacity_ this + 1) (2 * capacity_ this))).
  { intros (this' & h' & Heq & Hs & Hc & Hsame & Hgrow). exists this', h'.
    split; [done|]. destruct (post_Ret _ _ _ _ _ _ Hlocal Heq) as [Hok' _].
    split; [done|]. split; [done|]. split; [done|]. split.
    { rewrite Hc, lookup_app_r by lia. by rewrite Hlen, Nat.sub_diag. }
    split; [done|]. split; [intros Hn; specialize (Hgrow Hn); lia|].
    destruct (N.lt_ge_cases (size_ this) (capacity_ this)) as [Hlt|Hge].
    - destruct (Hsame Hlt) as [-> _]. lia.
    - rewrite Hgrow by lia. lia. }
  unfold PushBack, assign_from.
  destruct (N.ltb_spec (size_ this) (capacity_ this)) as [Hlt|Hge].
  - destruct (vec_ok_cases _ _ Hok) as [(_ & Hc0 & _)|(l & b & Hraw & Hl & Hb & Hblen)]; [lia|].
    unfold ArrayPtr_index, bind. rewrite Hraw, ptr_add_at, Nat.add_0_l.
    rewrite (store_at _ _ _ _ b) by (done || lia).
    eexists _, _. split; [done|]. simpl. rewrite size_t_add_small by lia.
    split; [done|]. split; [|split; [done|lia]].
    unfold contents, block_of. simpl. rewrite Hraw, Hl, lookup_insert_eq. simpl.
    replace (N.to_nat (size_ this + 1)) with (S (N.to_nat (size_ this))) by lia.
    apply take_S_insert. lia.
  - assert (Heq : size_ this = capacity_ this) by lia.
    destruct Halloc as [?|Halloc]; [lia|].
    rewrite (proj2 (N.eqb_eq _ _) Heq). rewrite size_t_add_small by lia.
    destruct (Resize_grow (capacity_ this + 1) this h) as (l & h1 & Hres & Hfresh & Hl & _);
      [done|lia|done|].
    unfold bind. rewrite Hres. unfold ArrayPtr_index. cbn [raw_ptr_ items_ size_].
    rewrite size_t_sub_small by lia. rewrite ptr_add_at, Nat.add_0_l.
    assert (Hblock : (N.to_nat (capacity_ this) ≤ length (block_of h this))%nat).
    { destruct (vec_ok_cases _ _ Hok) as [(_ & Hc0 & _)|(? & b & _ & _ & -> & ?)]; lia. }
    erewrite store_at; [|exact Hl|].
    2:{ rewrite length_app, length_take, length_replicate. lia. }
    eexists _, _. split; [done|]. simpl. split; [lia|]. split; [|split; [lia|done]].
    unfold contents at 1. erewrite block_of_at by apply lookup_insert_eq. simpl.
    replace (N.to_nat (capacity_ this + 1)) with (S (N.to_nat (capacity_ this + 1 - 1))) by lia.
    rewrite take_S_insert.
    2:{ rewrite length_app, length_take, length_replicate. lia. }
    f_equal. rewrite take_app_le by (rewrite length_take; lia).
    rewrite take_take. unfold contents. rewrite Heq. f_equal. lia.
Qed.

(** [PushBack] on a full vector when the new block cannot be had: the
    allocation throws and nothing has changed. *)
Lemma PushBack_bad_alloc item this h push :
  vec_ok h this → size_ this = capacity_ this →
  max_array_len < N.max (capacity_ this + 1) (2 * capacity_ this) →
  push = PushBack ∨ push = PushBack_move →
  push item this h = Throw bad_alloc h.
Proof.
  intros Hok Heq Hmax Hpush. destruct (vec_ok_bounds _ _ Hok) as [Hsz Hcap].
  cut (Resize (size_t_add (capacity_ this) 1) this h = Throw bad_alloc h).
  { intros Hres. destruct Hpush as [->| ->]; unfold PushBack, PushBack_move;
      rewrite (proj2 (N.ltb_ge _ _)) by lia;
      rewrite (proj2 (N.eqb_eq _ _) Heq); unfold bind at 1; by rewrite Hres. }
  rewrite size_t_add_small by lia.
  unfold Resize. cbv zeta.
  rewrite (proj2 (N.leb_gt (capacity_ this + 1) (size_ this))) by lia.
  rewrite (proj2 (N.leb_gt (capacity_ this + 1) (capacity_ this))) by lia.
  rewrite (proj2 (N.ltb_lt (capacity_ this) (capacity_ this + 1))) by lia.
  rewrite size_t_mul_small, (N.mul_comm _ 2) by lia.
  unfold bind, ret. by rewrite ArrayPtr_new_bad_alloc.
Qed.

(** C4: [At(index)] on a well-formed vector throws [std::out_of_range]
    exactly when [index >= size]; otherwise it returns the reference
    [items_[index]], through which the element at that index is read; in
    both cases the heap is as before (the function has no access to the
    vector's fields other than reading them). *)
Theorem At_spec this i h :
  vec_ok h this →
  (size_ this ≤ i → At this i h = Throw out_of_range h) ∧
  (i < size_ this →
     ∃ x, contents h this !! N.to_nat i = Some x ∧
          At this i h = Ret (index this i) h ∧
          load (index this i) h = Ret x h) ∧
  ((∃ e h', At this i h = Throw e h') ↔ size_ this ≤ i).
Proof.
  intros Hok. destruct (vec_ok_bounds _ _ Hok) as [Hsz Hcap].
  assert (Hthrow : size_ this ≤ i → At this i h = Throw out_of_range h).
  { intros Hi. unfold At. by rewrite (proj2 (N.leb_le _ _)) by done. }
  assert (Hret : i < size_ this → At this i h = Ret (index this i) h).
  { intros Hi. unfold At. by rewrite (proj2 (N.leb_gt _ _)) by done. }
  split; [done|]. split.
  - intros Hi.
    destruct (vec_ok_cases _ _ Hok) as [(_ & _ & Hs0 & _)|(l & b & Hraw & Hl & Hb & Hlen)];
      [lia|].
    destruct (lookup_lt_is_Some_2 b (N.to_nat i)) as [x Hx]; [lia|].
    exists x. split; [|split; [by apply Hret|]].
    + unfold contents. rewrite Hb. rewrite lookup_take_lt by lia. done.
    + unfold index, ArrayPtr_index. rewrite Hraw, ptr_add_at, Nat.add_0_l.
      by apply (load_at _ _ _ b).
  - split; [|by eauto].
    intros (e & h' & Heq). destruct (N.le_gt_cases (size_ this) i) as [|Hi]; [done|].
    rewrite Hret in Heq by lia. done.
Qed.

(** C10: assigning a vector to itself, by copy or by move, is the
    identity on the whole world: the object's fields and the heap,
    so its size, capacity, elements and block, are as before. *)
Theorem self_assignment_identity (w : world T) x this :
  objects w !! x = Some this →
  assign x x w = Ret tt w ∧ assign_move x x w = Ret tt w.
Proof.
  intros Hx. unfold assign, assign_move. rewrite Hx.
  by destruct (decide (x ≠ x)).
Qed.

Lemma block_of_frame h h' this this' :
  raw_ptr_ (items_ this') = raw_ptr_ (items_ this) →
  (∀ l, l ∈ locs (raw_ptr_ (items_ this)) → h' !! l = h !! l) →
  block_of h' this' = block_of h this.
Proof.
  intros Hraw Hframe. unfold block_of. rewrite Hraw.
  destruct (raw_ptr_ (items_ this)) as [|l [|i]|]; try done.
  rewrite Hframe; [done|set_solver].
Qed.

Lemma contents_frame h h' this this' :
  raw_ptr_ (items_ this') = raw_ptr_ (items_ this) → size_ this' = size_ this →
  (∀ l, l ∈ locs (raw_ptr_ (items_ this)) → h' !! l = h !! l) →
  contents h' this' = contents h this.
Proof.
  intros Hraw Hs Hframe. unfold contents. by rewrite Hs, (block_of_frame h h' this this').
Qed.

(** C5: a move out of the well-formed vector at [a], by move
    construction of a new object [b] or by move assignment to another
    object [b], returns; afterwards [b] has the block, size, capacity and
    elements [a] had and [a] has size 0 and capacity 0. *)
Theorem move_transfer (w : world T) a va :
  world_ok w → objects w !! a = Some va →
  (∀ b, objects w !! b = None →
        ∃ w', construct_move b a w = Ret tt w' ∧ transferred w w' a b va) ∧
  (∀ b vb, b ≠ a → objects w !! b = Some vb →
        ∃ w', assign_move b a w = Ret tt w' ∧ transferred w w' a b va).
Proof.
  intros Hw Ha. pose proof Hw as [Hvec Hown]. pose proof (Hvec _ _ Ha) as Hoka.
  split.
  - intros b Hb. assert (Hba : b ≠ a) by congruence.
    unfold construct_move. rewrite Hb, Ha. unfold SimpleVector_move, bind.
    assert (Hnew : ∃ items h', ArrayPtr_new (capacity_ va) (memory w) = Ret items h' ∧
              ∀ l, l ∈ locs (raw_ptr_ (items_ va)) → h' !! l = memory w !! l).
    { destruct (N.eq_dec (capacity_ va) 0) as [Hc|Hc].
      - rewrite Hc. eexists _, _. split; [apply ArrayPtr_new_0|done].
      - destruct (ArrayPtr_new_ok (capacity_ va) (memory w)) as (l & Hl & ->);
          [done|by destruct Hoka as (_ & ? & _)|].
        eexists _, _. split; [done|]. intros k Hk.
        destruct (vec_ok_live _ _ _ Hoka Hk) as [bk Hbk].
        rewrite lookup_insert_ne; [done|congruence]. }
    destruct Hnew as (items & h' & -> & Hframe). unfold ret. simpl.
    eexists. split; [done|]. eexists _, _. simpl.
    rewrite lookup_insert_eq. rewrite lookup_insert_ne by done. rewrite lookup_insert_eq.
    repeat split; try done. by apply contents_frame.
  - intros b vb Hba Hb. unfold assign_move. rewrite Hb, Ha.
    rewrite decide_True by done. unfold ArrayPtr_move_assign, bind.
    assert (Hdel : ∃ h', delete_array (raw_ptr_ (items_ vb)) (memory w) = Ret tt h' ∧
              ∀ l, l ∈ locs (raw_ptr_ (items_ va)) → h' !! l = memory w !! l).
    { destruct (vec_ok_cases _ _ (Hvec _ _ Hb))
        as [(Hraw & _)|(l & blk & Hraw & Hl & _)]; rewrite Hraw.
      - by eexists.
      - rewrite (delete_array_at _ _ _ Hl). eexists. split; [done|].
        intros k Hk. rewrite lookup_delete_ne; [done|]. intros <-.
        apply Hba. apply (Hown b a vb va l); try done. rewrite Hraw. set_solver. }
    destruct Hdel as (h' & -> & Hframe). unfold ret. simpl.
    eexists. split; [done|]. eexists _, _. simpl.
    rewrite lookup_insert_ne by done. rewrite lookup_insert_eq.
    rewrite lookup_insert_eq.
    repeat split; try done. by apply contents_frame.
Qed.

(** [Reserve] of more than the capacity: a new block of exactly
    [new_capacity] elements whose first [size_] are the live elements; the
    old block is freed. *)
Lemma Reserve_grow new_capacity this h :
  vec_ok h this → capacity_ this < new_capacity → new_capacity ≤ max_array_len →
  ∃ l h',
    Reserve new_capacity this h
    = Ret {| items_ := {| raw_ptr_ := at_ l 0 |};
             capacity_ := new_capacity; size_ := size_ this |} h' ∧
    h !! l = None ∧
    h' !! l = Some (contents h this ++
                    replicate (N.to_nat new_capacity - N.to_nat (size_ this)) new_elem) ∧
    (∀ k, k ≠ l → k ∉ locs (raw_ptr_ (items_ this)) → h' !! k = h !! k).
Proof.
  intros Hok Hgt Hmax. destruct (vec_ok_bounds _ _ Hok) as [Hsz Hcap].
  unfold Reserve. rewrite (proj2 (N.ltb_lt _ _)) by done.
  destruct (ArrayPtr_new_ok new_capacity h) as (l & Hl & Hnew); [lia|done|].
  exists l. unfold bind at 1. rewrite Hnew. unfold Get. cbn [raw_ptr_].
  unfold ArrayPtr_swap, ArrayPtr_destroy, set_capacity, set_items.
  cbn [raw_ptr_ items_ capacity_ size_]. unfold contents.
  destruct (vec_ok_cases _ _ Hok) as [(Hraw & Hc0 & Hs0 & Hb)|(lo & b & Hraw & Hlo & Hb & Hlen)];
    rewrite Hraw, Hb.
  - rewrite Hs0. simpl. unfold bind, ret. simpl.
    eexists. split; [done|]. split; [done|]. split.
    + rewrite lookup_insert_eq. by rewrite Nat.sub_0_r.
    + intros k Hk _. by rewrite lookup_insert_ne.
  - assert (Hne : lo ≠ l) by congruence.
    assert (Hcopy : ∃ h1,
      (if 0 <? size_ this
       then std_copy (at_ lo 0) (ptr_add (at_ lo 0) (size_ this)) (at_ l 0)
       else ret tt) (<[l := replicate (N.to_nat new_capacity) new_elem]> h) = Ret tt h1 ∧
      h1 = <[l := take (N.to_nat (size_ this)) b ++
                  replicate (N.to_nat new_capacity - N.to_nat (size_ this)) new_elem]> h).
    { destruct (N.ltb_spec 0 (size_ this)) as [Hpos|Hzero].
      - rewrite ptr_add_at, Nat.add_0_l.
        rewrite (std_copy_at _ _ _ _ _ _ b (replicate (N.to_nat new_capacity) new_elem));
          [|done|by rewrite lookup_insert_ne|by rewrite lookup_insert_eq|lia|lia|
           rewrite length_replicate; lia].
        eexists. split; [done|]. rewrite insert_insert_eq. f_equal. simpl.
        rewrite Nat.sub_0_r, drop_0. f_equal. by rewrite drop_replicate.
      - eexists. split; [done|]. f_equal.
        replace (N.to_nat (size_ this)) with O by lia. simpl. by rewrite Nat.sub_0_r. }
    destruct Hcopy as (h1 & Hcopy & ->). unfold bind at 1. rewrite Hcopy.
    unfold bind. rewrite (delete_array_at _ _ b) by (by rewrite lookup_insert_ne).
    eexists. split; [done|]. split; [done|]. split.
    + rewrite lookup_delete_ne by done. by rewrite lookup_insert_eq.
    + intros k Hk Hk'. rewrite lookup_delete_ne by set_solver.
      by rewrite lookup_insert_ne.
Qed.

(** Pushing a list that fits into the spare capacity. *)
Lemma push_all_in_place items this h :
  vec_ok h this →
  size_ this + N.of_nat (length items) ≤ capacity_ this →
  ∃ this' h',
    push_all items this h = Ret this' h' ∧ vec_ok h' this' ∧
    capacity_ this' = capacity_ this ∧ items_ this' = items_ this ∧
    size_ this' = size_ this + N.of_nat (length items) ∧
    contents h' this' = contents h this ++ items.
Proof.
  revert this h. induction items as [|item items IH]; intros this h Hok Hfit; simpl.
  - exists this, h. rewrite app_nil_r, N.add_0_r. by split_and!.
  - simpl in Hfit.
    destruct (PushBack_returns item this h PushBack Hok)
      as (this1 & h1 & Hpush & Hok1 & Hs1 & Hc1 & _ & Hsame & _); [lia|by left|].
    destruct Hsame as [Hcap1 Hitems1]; [lia|].
    destruct (IH this1 h1 Hok1) as (this' & h' & Hrest & Hok' & Hcap' & Hitems' & Hs' & Hc');
      [lia|].
    exists this', h'. unfold bind. rewrite Hpush.
    split_and!; try done; try congruence; [lia|].
    rewrite Hc', Hc1. by rewrite <- app_assoc.
Qed.

(** C7: [Reserve(new_capacity)] on a well-formed vector.  Above the
    capacity (and within what can be allocated) it makes the capacity
    exactly [new_capacity] and keeps the size and the live elements; at
    or below the capacity it returns the vector and the heap as they
    were.  So after [Reserve(10)] on an empty vector, any number of
    [PushBack] calls up to 10 leaves the capacity at 10 and the block in
    place. *)
Theorem Reserve_spec new_capacity this h :
  vec_ok h this →
  (capacity_ this < new_capacity → new_capacity ≤ max_array_len →
     ∃ this' h',
       Reserve new_capacity this h = Ret this' h' ∧ vec_ok h' this' ∧
       capacity_ this' = new_capacity ∧ size_ this' = size_ this ∧
       contents h' this' = contents h this) ∧
  (new_capacity ≤ capacity_ this → Reserve new_capacity this h = Ret this h) ∧
  (∀ items : list T, (length items ≤ 10)%nat → 10 ≤ max_array_len →
     ∃ this0 h0 this' h',
       Reserve 10 SimpleVector_default h = Ret this0 h0 ∧
       push_all items this0 h0 = Ret this' h' ∧
       capacity_ this' = 10 ∧ items_ this' = items_ this0 ∧
       contents h' this' = items).
Proof.
  intros Hok. split; [|split].
  - intros Hgt Hmax.
    destruct (Reserve_grow new_capacity this h Hok Hgt Hmax) as (l & h' & Heq & Hl & Hl' & _).
    pose proof (Reserve_local new_capacity this h Hok) as Hlocal.
    destruct (post_Ret _ _ _ _ _ _ Hlocal Heq) as [Hok' _].
    eexists _, _. split; [done|]. split; [done|]. split; [done|]. split; [done|].
    unfold contents at 1. erewrite block_of_at by done. simpl.
    rewrite take_app_le by (rewrite contents_length by done; lia).
    apply take_ge. rewrite contents_length by done. lia.
  - intros Hle. unfold Reserve. by rewrite (proj2 (N.ltb_ge _ _)) by done.
  - intros items Hlen Hmax.
    destruct (Reserve_grow 10 SimpleVector_default h (vec_ok_default h))
      as (l & h0 & Heq & Hl & Hl' & _); [done|done|].
    pose proof (Reserve_local 10 SimpleVector_default h (vec_ok_default h)) as Hlocal.
    destruct (post_Ret _ _ _ _ _ _ Hlocal Heq) as [Hok0 _].
    destruct (push_all_in_place items _ h0 Hok0)
      as (this' & h' & Hpush & _ & Hcap & Hitems & _ & Hc); [simpl; lia|].
    eexists _, _, this', h'. split; [done|]. split; [done|].
    split; [done|]. split; [done|]. rewrite Hc. unfold contents. by simpl.
Qed.

(** The copy constructor: a block of exactly [size_] elements, new in
    the heap, holding the live elements of the source; no block at all
    for an empty source. *)
Lemma SimpleVector_copy_spec other h :
  vec_ok h other →
  ∃ this h',
    SimpleVector_copy other h = Ret this h' ∧
    size_ this = size_ other ∧ capacity_ this = size_ other ∧
    ((raw_ptr_ (items_ this) = nullptr ∧ size_ other = 0 ∧ h' = h) ∨
     (∃ l, raw_ptr_ (items_ this) = at_ l 0 ∧ h !! l = None ∧
           h' = <[l := contents h other]> h)).
Proof.
  intros Hok. destruct (vec_ok_bounds _ _ Hok) as [Hsz Hcap].
  unfold SimpleVector_copy, begin_, end_, Get. cbv zeta. cbn [raw_ptr_ items_ size_].
  destruct (N.eq_dec (size_ other) 0) as [Hs0|Hs0].
  - rewrite Hs0. unfold bind at 1. rewrite ArrayPtr_new_0. cbn [raw_ptr_].
    assert (Hlen : range_len (raw_ptr_ (items_ other))
                     (ptr_add (raw_ptr_ (items_ other)) 0) h = Ret O h).
    { destruct (vec_ok_cases _ _ Hok) as [(-> & _)|(l & b & -> & _)]; [done|].
      rewrite ptr_add_at. by rewrite range_len_at by lia. }
    unfold std_copy, bind. rewrite Hlen. simpl.
    eexists _, _. split; [done|]. simpl. split; [done|]. split; [done|]. by left.
  - destruct (vec_ok_cases _ _ Hok) as [(_ & _ & ? & _)|(lo & b & Hraw & Hlo & Hb & Hlen)];
      [done|].
    pose proof max_array_len_bound.
    destruct (ArrayPtr_new_ok (size_ other) h) as (l & Hl & Hnew);
      [done|destruct Hok as (_ & ? & _); lia|].
    assert (Hne : lo ≠ l) by congruence.
    unfold bind at 1. rewrite Hnew. cbn [raw_ptr_]. rewrite Hraw, ptr_add_at, Nat.add_0_l.
    unfold bind.
    rewrite (std_copy_at _ _ _ _ _ _ b (replicate (N.to_nat (size_ other)) new_elem));
      [|done|by rewrite lookup_insert_ne|by rewrite lookup_insert_eq|lia|lia|
       rewrite length_replicate; lia].
    eexists _, _. split; [done|]. simpl. split; [done|]. split; [done|]. right.
    exists l. split; [done|]. split; [done|]. rewrite insert_insert_eq. f_equal.
    rewrite Nat.sub_0_r, drop_0. unfold contents. rewrite Hb.
    rewrite drop_ge by (rewrite length_replicate; lia). by rewrite app_nil_r.
Qed.

(** [operator==] on two distinct objects with the same live elements. *)
Lemma SimpleVector_eq_same lhs rhs h :
  (∀ x, Type_eqb x x = true) →
  vec_ok h lhs → vec_ok h rhs → contents h lhs = contents h rhs →
  SimpleVector_eq false lhs rhs h = Ret true h.
Proof.
  intros Hrefl Hl Hr Heq.
  pose proof (contents_length _ _ Hl) as Hlenl.
  pose proof (contents_length _ _ Hr) as Hlenr.
  assert (Hs : size_ lhs = size_ rhs) by (rewrite Heq in Hlenl; lia).
  destruct (vec_ok_bounds _ _ Hl) as [Hszl _]. destruct (vec_ok_bounds _ _ Hr) as [Hszr _].
  unfold SimpleVector_eq, GetSize. rewrite (proj2 (N.eqb_eq _ _) Hs).
  unfold std_equal, begin_, end_, Get, bind.
  destruct (vec_ok_cases _ _ Hl) as [(Hrawl & _ & Hs0 & _)|(l1 & b1 & Hrawl & Hl1 & Hb1 & Hlen1)];
    rewrite Hrawl.
  - by rewrite Hs0.
  - rewrite ptr_add_at, Nat.add_0_l, range_len_at by lia. rewrite Nat.sub_0_r.
    destruct (vec_ok_cases _ _ Hr)
      as [(Hrawr & _ & Hs0 & _)|(l2 & b2 & Hrawr & Hl2 & Hb2 & Hlen2)]; rewrite Hrawr.
    + replace (N.to_nat (size_ lhs)) with O by lia. done.
    + apply (equal_loop_same _ _ _ _ _ _ b1 b2); try done; try lia.
      rewrite !drop_0. unfold contents in Heq. by rewrite Hb1, Hb2, <- Hs in Heq.
Qed.

(** A member function leaves every block but its vector's own alone,
    whatever it is called with. *)
Lemma run_mutator_frame m this h :
  vec_ok h this →
  post (run_mutator m this) h
       (λ _ h', ∀ l b, h !! l = Some b → l ∉ locs (raw_ptr_ (items_ this)) →
                       h' !! l = Some b)
       (λ _ h', h' = h).
Proof.
  intros Hok.
  assert (Hother : m ≠ Call_PopBack →
    post (run_mutator m this) h
         (λ _ h', ∀ l b, h !! l = Some b → l ∉ locs (raw_ptr_ (items_ this)) →
                         h' !! l = Some b)
         (λ _ h', h' = h)).
  { intros Hm. eapply post_mono; [apply run_mutator_local; [done|by right]| |done].
    by intros r h' (_ & Hframe & _). }
  destruct m; try (by apply Hother).
  simpl. unfold keep, PopBack.
  apply post_bind, post_bind, post_assert; [apply pure_cond_ret|].
  by apply post_ret, post_ret.
Qed.

Lemma mutate_frame (w w'' : world T) x y vy m :
  world_ok w → x ≠ y → objects w !! y = Some vy →
  exec (Mutate x m) w = Ret tt w'' ∨ (∃ e, exec (Mutate x m) w = Throw e w'') →
  objects w'' !! y = Some vy ∧ contents (memory w'') vy = contents (memory w) vy.
Proof.
  intros [Hvec Hown] Hxy Hy Hstep. simpl in Hstep. unfold call in Hstep.
  destruct (objects w !! x) as [vx|] eqn:Hx; [|by destruct Hstep as [?|[? ?]]].
  pose proof (run_mutator_frame m vx (memory w) (Hvec _ _ Hx)) as Hpost.
  unfold post in Hpost.
  destruct (run_mutator m vx (memory w)) as [[a vx'] h'|e h'| |];
    [| |by destruct Hstep as [?|[? ?]]..].
  - destruct Hstep as [[= _ <-]|[? ?]]; [|done]. simpl.
    rewrite lookup_insert_ne by done. split; [done|].
    apply contents_frame; try done. intros l Hl.
    destruct (vec_ok_live _ _ _ (Hvec _ _ Hy) Hl) as [b Hb]. rewrite Hb.
    apply Hpost; [done|]. intros Hl'. apply Hxy. by apply (Hown x y vx vy l).
  - destruct Hstep as [?|[? [= _ <-]]]; [done|]. simpl. by subst.
Qed.

Lemma decide_eq_sym_false (x y : nat) : x ≠ y → bool_decide (x = y) = false.
Proof. intros. by apply bool_decide_eq_false_2. Qed.

(** C8: copy-constructing [b] from the well-formed vector at [a].  The
    call returns; [a] is as it was; [b] has the size of [a], a capacity
    of exactly that size, and the same live elements, so that [a == b]
    when the element type's [operator==] is reflexive; and the two share
    no block: whatever member function is then called on one of them,
    with whatever arguments, the other keeps its fields and elements. *)
Theorem copy_constructor_spec (w : world T) a va b :
  world_ok w → objects w !! a = Some va → objects w !! b = None →
  ∃ w' vb,
    exec (Construct_copy b a) w = Ret tt w' ∧ world_ok w' ∧
    objects w' !! a = Some va ∧ objects w' !! b = Some vb ∧
    size_ vb = size_ va ∧ capacity_ vb = size_ va ∧
    contents (memory w') vb = contents (memory w) va ∧
    contents (memory w') va = contents (memory w) va ∧
    locs (raw_ptr_ (items_ vb)) ## locs (raw_ptr_ (items_ va)) ∧
    ((∀ x, Type_eqb x x = true) → equal a b w' = Ret true w') ∧
    (∀ m w'',
       exec (Mutate b m) w' = Ret tt w'' ∨ (∃ e, exec (Mutate b m) w' = Throw e w'') →
       objects w'' !! a = Some va ∧
       contents (memory w'') va = contents (memory w') va) ∧
    (∀ m w'',
       exec (Mutate a m) w' = Ret tt w'' ∨ (∃ e, exec (Mutate a m) w' = Throw e w'') →
       objects w'' !! b = Some vb ∧
       contents (memory w'') vb = contents (memory w') vb).
Proof.
  intros Hw Ha Hb. assert (Hab : a ≠ b) by congruence.
  pose proof Hw as [Hvec Hown]. pose proof (Hvec _ _ Ha) as Hoka.
  destruct (SimpleVector_copy_spec va (memory w) Hoka)
    as (vb & h' & Hcopy & Hs & Hc & Hblock).
  pose proof (exec_step_ok (Construct_copy b a) w Hw (or_intror I)) as Hok'.
  simpl in Hok' |- *. rewrite Ha in Hok' |- *. unfold construct in Hok' |- *.
  rewrite Hb, Hcopy in Hok' |- *. simpl in Hok'.
  set (w' := {| objects := <[b := vb]> (objects w); memory := h' |}) in *.
  assert (Ha' : objects w' !! a = Some va) by (simpl; by rewrite lookup_insert_ne).
  assert (Hb' : objects w' !! b = Some vb) by (simpl; by rewrite lookup_insert_eq).
  assert (Hframe : ∀ l, l ∈ locs (raw_ptr_ (items_ va)) → h' !! l = memory w !! l).
  { intros l Hl. destruct Hblock as [(_ & _ & ->)|(k & _ & Hk & ->)]; [done|].
    destruct (vec_ok_live _ _ _ Hoka Hl) as [bl Hbl].
    rewrite lookup_insert_ne; [done|congruence]. }
  assert (Hca : contents h' va = contents (memory w) va) by (by apply contents_frame).
  assert (Hcb : contents h' vb = contents (memory w) va).
  { unfold contents at 1. rewrite Hs.
    destruct Hblock as [(Hraw & Hs0 & ->)|(k & Hraw & Hk & ->)].
    - unfold contents. rewrite Hs0. done.
    - unfold block_of. rewrite Hraw, lookup_insert_eq. simpl.
      apply take_ge. rewrite contents_length by done. lia. }
  exists w', vb. split_and!; try done.
  - intros l Hl Hl'. apply Hab. by apply (proj2 Hok' a b va vb l).
  - intros Hrefl. unfold equal. rewrite Ha', Hb'.
    rewrite decide_eq_sym_false by done.
    rewrite SimpleVector_eq_same; try done.
    + by apply (proj1 Hok' a).
    + by apply (proj1 Hok' b).
    + simpl. congruence.
  - intros m w'' Hstep. by apply (mutate_frame w' w'' b a va m).
  - intros m w'' Hstep. by apply (mutate_frame w' w'' a b vb m).
Qed.

(** ** [Insert]: what each branch computes *)

Lemma contents_take_drop (b : list T) c s :
  (c ≤ s)%nat →
  take c (take s b) = take c b ∧ drop c (take s b) = take (s - c) (drop c b).
Proof.
  intros Hc. split.
  - rewrite take_take. f_equal. lia.
  - rewrite take_drop_commute. do 2 f_equal. lia.
Qed.

(** The block after the shift and the store, cut at the new size. *)
Lemma take_inserted (b' : list T) c s x pre suf rest :
  (c ≤ s)%nat → length pre = c → length suf = (s - c)%nat →
  (c < length b')%nat →
  take c b' = pre → drop (S c) b' = suf ++ rest →
  take (S s) (<[c := x]> b') = pre ++ [x] ++ suf.
Proof.
  intros Hc Hpre Hsuf Hlen Htake Hdrop.
  rewrite insert_take_drop by done. rewrite Htake, Hdrop.
  replace (pre ++ x :: suf ++ rest) with ((pre ++ [x] ++ suf) ++ rest)
    by (by rewrite <- !app_assoc).
  apply take_app_length'. rewrite !length_app. simpl. lia.
Qed.

Lemma std_copy_backward_shift l c s h b :
  h !! l = Some b → (c ≤ s)%nat → (s < length b)%nat →
  std_copy_backward (at_ l c) (at_ l s) (at_ l (S s)) h
  = Ret tt (<[l := take (S c) b ++ take (s - c) (drop c b) ++ drop (S s) b]> h).
Proof.
  intros Hl Hc Hs. unfold std_copy_backward, bind. rewrite range_len_at by done.
  rewrite (copy_backward_loop_shift _ _ _ _ b) by (done || lia).
  by replace (s - (s - c))%nat with c by lia.
Qed.

Lemma std_move_backward_shift l c s h b :
  h !! l = Some b → (c ≤ s)%nat → (s < length b)%nat →
  ∃ b', std_move_backward (at_ l c) (at_ l s) (at_ l (S s)) h = Ret tt (<[l := b']> h) ∧
        length b' = length b ∧
        take c b' = take c b ∧
        drop (S c) b' = take (s - c) (drop c b) ++ drop (S s) b.
Proof.
  intros Hl Hc Hs. unfold std_move_backward, bind. rewrite range_len_at by done.
  destruct (move_backward_loop_shift (s - c) l s h b) as (b' & -> & Hlen & Htake & Hdrop);
    [done|lia|done|].
  exists b'. by replace (s - (s - c))%nat with c in * by lia.
Qed.

Lemma std_move_backward_at ls c s ld e h bs bd :
  ls ≠ ld → h !! ls = Some bs → h !! ld = Some bd →
  (c ≤ s)%nat → (s ≤ length bs)%nat → (s - c ≤ e)%nat → (e ≤ length bd)%nat →
  std_move_backward (at_ ls c) (at_ ls s) (at_ ld e) h
  = Ret tt (<[ls := take c bs ++ (moved_from <$> take (s - c) (drop c bs)) ++ drop s bs]>
            (<[ld := take (e - (s - c)) bd ++ take (s - c) (drop c bs) ++ drop e bd]> h)).
Proof.
  intros Hne Hs Hd Hc Hsl He Hel. unfold std_move_backward, bind.
  rewrite range_len_at by done.
  rewrite (move_backward_loop_at _ _ _ _ _ _ bs bd) by (done || lia).
  by replace (s - (s - c))%nat with c by lia.
Qed.

Lemma in_range_at l c s h :
  (c ≤ s)%nat →
  (r <- ptr_le (at_ l 0) (at_ l c) ;; if r then ptr_le (at_ l c) (at_ l s) else ret false) h
  = Ret true h.
Proof.
  intros Hc. unfold bind. rewrite ptr_le_at. rewrite bool_decide_eq_true_2 by lia.
  rewrite ptr_le_at. by rewrite bool_decide_eq_true_2 by lia.
Qed.

(** [Insert(pos, const Type&)] with spare capacity. *)
Lemma Insert_in_place c value this h :
  vec_ok h this → c ≤ size_ this → size_ this < capacity_ this →
  ∃ h',
    Insert (ptr_add (begin_ this) c) value this h
    = Ret (ptr_add (begin_ this) c, set_size (size_ this + 1) this) h' ∧
    contents h' (set_size (size_ this + 1) this)
    = take (N.to_nat c) (contents h this) ++ [value] ++ drop (N.to_nat c) (contents h this) ∧
    load (ptr_add (begin_ this) c) h' = Ret value h'.
Proof.
  intros Hok Hc Hlt. destruct (vec_ok_bounds _ _ Hok) as [Hsz Hcap].
  destruct (vec_ok_cases _ _ Hok) as [(_ & ? & _)|(l & b & Hraw & Hl & Hb & Hlen)]; [lia|].
  unfold Insert, begin_, end_, Get. rewrite Hraw, !ptr_add_at, !Nat.add_0_l.
  unfold bind at 1. rewrite assert_true by (apply in_range_at; lia).
  unfold bind at 1. rewrite ptr_sub_at by lia.
  rewrite Nat.sub_0_r, N2Nat.id. cbv zeta.
  rewrite (proj2 (N.ltb_lt _ _)) by done.
  rewrite !ptr_add_at, !Nat.add_0_l.
  replace (N.to_nat (size_ this) + N.to_nat 1)%nat with (S (N.to_nat (size_ this))) by lia.
  unfold bind at 1. unfold bind at 1.
  rewrite (std_copy_backward_shift _ _ _ _ b) by (done || lia).
  unfold bind at 1. erewrite store_at; [|apply lookup_insert_eq|].
  2:{ rewrite !length_app, length_take, length_drop. lia. }
  rewrite insert_insert_eq. unfold ret at 1. unfold ret at 1.
  rewrite size_t_add_small by lia.
  change (items_ (set_size (size_ this + 1) this)) with (items_ this).
  rewrite Hraw, ptr_add_at, Nat.add_0_l.
  eexists. split; [done|]. split.
  - unfold contents at 1. erewrite block_of_frame with (h := <[l := _]> h)
      (this := {| items_ := {| raw_ptr_ := at_ l 0 |}; capacity_ := 0; size_ := 0 |});
      [|done|done].
    erewrite block_of_at by apply lookup_insert_eq. simpl.
    replace (N.to_nat (size_ this + 1)) with (S (N.to_nat (size_ this))) by lia.
    unfold contents. rewrite Hb.
    destruct (contents_take_drop b (N.to_nat c) (N.to_nat (size_ this))) as [-> ->]; [lia|].
    eapply take_inserted with (rest := drop (S (N.to_nat (size_ this))) b); try lia.
    + rewrite length_take. lia.
    + rewrite length_take, length_drop. lia.
    + rewrite !length_app, length_take, length_drop. lia.
    + rewrite take_app_le by (rewrite length_take; lia). rewrite take_take. f_equal. lia.
    + rewrite drop_app_length'; [done|]. rewrite length_take. lia.
  - erewrite load_at; [done|apply lookup_insert_eq|].
    apply list_lookup_insert_eq. rewrite !length_app, length_take, length_drop. lia.
Qed.
Lemma ptr_add_null_0 : ptr_add nullptr 0 = nullptr.
Proof. done. Qed.

Lemma in_range_null h :
  (r <- ptr_le nullptr nullptr ;; if r then ptr_le nullptr nullptr else ret false) h
  = Ret true h.
Proof. done. Qed.

Lemma take_app3 (xs ys zs : list T) n :
  n = (length xs + length ys)%nat → take n (xs ++ ys ++ zs) = xs ++ ys.
Proof.
  intros ->. rewrite app_assoc. apply take_app_length'. by rewrite length_app.
Qed.

Lemma ptr_sub_null h : ptr_sub nullptr nullptr h = Ret 0 h.
Proof. done. Qed.

Lemma std_copy_null d h : std_copy nullptr nullptr d h = Ret tt h.
Proof. done. Qed.

(** [Insert(pos, const Type&)] into a full vector: a new block of
    [max(size + 1, 2 * capacity)] elements. *)
Lemma Insert_full c value this h :
  vec_ok h this → c ≤ size_ this → size_ this = capacity_ this →
  N.max (size_ this + 1) (2 * capacity_ this) ≤ max_array_len →
  ∃ l h',
    Insert (ptr_add (begin_ this) c) value this h
    = Ret (at_ l (N.to_nat c),
           {| items_ := {| raw_ptr_ := at_ l 0 |};
              capacity_ := N.max (size_ this + 1) (2 * capacity_ this);
              size_ := size_ this + 1 |}) h' ∧
    h !! l = None ∧
    take (N.to_nat (size_ this + 1)) (default [] (h' !! l))
    = take (N.to_nat c) (contents h this) ++ [value] ++ drop (N.to_nat c) (contents h this) ∧
    load (at_ l (N.to_nat c)) h' = Ret value h'.
Proof.
  intros Hok Hc Hfull Hmax. destruct (vec_ok_bounds _ _ Hok) as [Hsz Hcap].
  set (nc := N.max (size_ this + 1) (2 * capacity_ this)) in *.
  destruct (ArrayPtr_new_ok nc h) as (l & Hl & Hnew); [lia|done|].
  exists l. unfold Insert, begin_, end_, Get.
  rewrite (proj2 (N.ltb_ge _ _)) by lia.
  rewrite size_t_add_small, size_t_mul_small, (N.mul_comm _ 2) by lia. fold nc.
  cbv zeta. unfold ArrayPtr_swap, ArrayPtr_destroy, set_capacity, set_items, set_size.
  cbn [raw_ptr_ items_ capacity_ size_].
  destruct (vec_ok_cases _ _ Hok) as [(Hraw & Hc0 & Hs0 & Hb)|(lo & b & Hraw & Hlo & Hb & Hlen)];
    rewrite Hraw.
  - assert (c = 0) as -> by lia. rewrite Hs0, !ptr_add_null_0.
    unfold bind at 1. rewrite assert_true by apply in_range_null.
    unfold bind at 1. rewrite ptr_sub_null.
    unfold bind at 1. unfold bind at 1. rewrite Hnew. cbn [raw_ptr_].
    rewrite !ptr_add_at, !Nat.add_0_l.
    unfold bind at 1. rewrite std_copy_null.
    unfold bind at 1. erewrite store_at; [|apply lookup_insert_eq|rewrite length_replicate; lia].
    rewrite insert_insert_eq.
    unfold bind at 1. rewrite std_copy_null.
    unfold bind at 1. simpl delete_array. unfold ret.
    eexists. split; [done|]. split; [done|]. split.
    + rewrite lookup_insert_eq. simpl. unfold contents. rewrite Hb.
      replace (N.to_nat (0 + 1)) with 1%nat by lia.
      destruct (N.to_nat nc) as [|n] eqn:Hn; [lia|]. by rewrite take_nil.
    + erewrite load_at; [done|apply lookup_insert_eq|].
      apply list_lookup_insert_eq. rewrite length_replicate. lia.
  - assert (Hne : lo ≠ l) by congruence.
    rewrite !ptr_add_at, !Nat.add_0_l.
    unfold bind at 1. rewrite assert_true by (apply in_range_at; lia).
    unfold bind at 1. rewrite ptr_sub_at by lia. rewrite Nat.sub_0_r, N2Nat.id.
    unfold bind at 1. unfold bind at 1. rewrite Hnew. cbn [raw_ptr_].
    rewrite !ptr_add_at, !Nat.add_0_l.
    set (R := replicate (N.to_nat nc) new_elem).
    assert (HR : length R = N.to_nat nc) by apply length_replicate.
    unfold bind at 1.
    rewrite (std_copy_at _ _ _ _ _ _ b R);
      [|done|by rewrite lookup_insert_ne|by rewrite lookup_insert_eq|lia|lia|lia].
    rewrite insert_insert_eq, Nat.sub_0_r, drop_0, take_0, app_nil_l, Nat.add_0_l.
    set (B1 := take (N.to_nat c) b ++ drop (N.to_nat c) R).
    assert (HB1 : length B1 = N.to_nat nc).
    { subst B1. rewrite length_app, length_take, length_drop. lia. }
    unfold bind at 1. erewrite store_at; [|apply lookup_insert_eq|lia].
    rewrite insert_insert_eq.
    set (B2 := <[N.to_nat c := value]> B1).
    assert (HB2 : length B2 = N.to_nat nc) by (subst B2; by rewrite length_insert).
    unfold bind at 1.
    rewrite (std_copy_at _ _ _ _ _ _ b B2);
      [|done|by rewrite lookup_insert_ne|by rewrite lookup_insert_eq|lia|lia|lia].
    rewrite insert_insert_eq.
    unfold bind at 1. rewrite (delete_array_at _ _ b) by (by rewrite lookup_insert_ne).
    unfold ret. cbn [raw_ptr_ items_ capacity_ size_].
    rewrite size_t_add_small by lia. rewrite ptr_add_at, Nat.add_0_l.
    eexists. split; [done|]. split; [done|].
    rewrite lookup_delete_ne by done. rewrite lookup_insert_eq. simpl (default _ _).
    assert (Htake : take (N.to_nat c + N.to_nat 1) B2 = take (N.to_nat c) b ++ [value]).
    { replace (N.to_nat c + N.to_nat 1)%nat with (S (N.to_nat c)) by lia.
      subst B2. rewrite take_S_insert by lia. f_equal.
      subst B1. apply take_app_length'. rewrite length_take. lia. }
    rewrite Htake. split.
    + unfold contents. rewrite Hb.
      destruct (contents_take_drop b (N.to_nat c) (N.to_nat (size_ this))) as [-> ->]; [lia|].
      rewrite take_app3; [by rewrite <- app_assoc|].
      rewrite !length_app, !length_take, length_drop. simpl. lia.
    + erewrite load_at; [done| |].
      * rewrite lookup_delete_ne by done. apply lookup_insert_eq.
      * rewrite <- app_assoc. rewrite lookup_app_r by (rewrite length_take; lia).
        rewrite length_take. replace (_ - _)%nat with O by lia. done.
Qed.

(** [Insert(pos, Type&&)] with spare capacity. *)
Lemma Insert_move_in_place c value this h :
  vec_ok h this → c ≤ size_ this → size_ this < capacity_ this →
  ∃ h',
    Insert_move (ptr_add (begin_ this) c) value this h
    = Ret (ptr_add (begin_ this) c, set_size (size_ this + 1) this) h' ∧
    contents h' (set_size (size_ this + 1) this)
    = take (N.to_nat c) (contents h this) ++ [value] ++ drop (N.to_nat c) (contents h this) ∧
    load (ptr_add (begin_ this) c) h' = Ret value h'.
Proof.
  intros Hok Hc Hlt. destruct (vec_ok_bounds _ _ Hok) as [Hsz Hcap].
  destruct (vec_ok_cases _ _ Hok) as [(_ & ? & _)|(l & b & Hraw & Hl & Hb & Hlen)]; [lia|].
  unfold Insert_move, begin_, end_, Get, ArrayPtr_index.
  rewrite Hraw, !ptr_add_at, !Nat.add_0_l.
  unfold bind at 1. rewrite assert_true by (apply in_range_at; lia).
  unfold bind at 1. rewrite ptr_sub_at by lia.
  rewrite Nat.sub_0_r, N2Nat.id. cbv zeta.
  rewrite (proj2 (N.eqb_neq _ _)) by lia.
  rewrite (proj2 (N.ltb_lt _ _)) by done.
  rewrite !ptr_add_at, !Nat.add_0_l.
  replace (N.to_nat (size_ this) + N.to_nat 1)%nat with (S (N.to_nat (size_ this))) by lia.
  destruct (std_move_backward_shift l (N.to_nat c) (N.to_nat (size_ this)) h b)
    as (b' & Hmove & Hlen' & Htake & Hdrop); [done|lia|lia|].
  unfold bind at 1. unfold bind at 1. rewrite Hmove.
  unfold bind at 1. erewrite store_at; [|apply lookup_insert_eq|lia].
  rewrite insert_insert_eq. unfold ret at 1. unfold ret at 1.
  rewrite size_t_add_small by lia.
  change (items_ (set_size (size_ this + 1) this)) with (items_ this).
  rewrite Hraw, ptr_add_at, Nat.add_0_l.
  eexists. split; [done|]. split.
  - unfold contents at 1, block_of. cbn [set_size items_ size_]. rewrite Hraw.
    rewrite lookup_insert_eq. simpl (default _ _).
    replace (N.to_nat (size_ this + 1)) with (S (N.to_nat (size_ this))) by lia.
    unfold contents. rewrite Hb.
    destruct (contents_take_drop b (N.to_nat c) (N.to_nat (size_ this))) as [-> ->]; [lia|].
    eapply take_inserted with (rest := drop (S (N.to_nat (size_ this))) b); try done; try lia.
    + rewrite length_take. lia.
    + rewrite length_take, length_drop. lia.
  - erewrite load_at; [done|apply lookup_insert_eq|].
    apply list_lookup_insert_eq. lia.
Qed.

(** [Insert(pos, Type&&)] into a vector of capacity 0. *)
Lemma Insert_move_empty value this h :
  vec_ok h this → capacity_ this = 0 → 1 ≤ max_array_len →
  ∃ l h',
    Insert_move (begin_ this) value this h
    = Ret (at_ l 0, {| items_ := {| raw_ptr_ := at_ l 0 |}; capacity_ := 1; size_ := 1 |})
          h' ∧
    h !! l = None ∧ h' !! l = Some [value].
Proof.
  intros Hok Hc0 Hmax. destruct (vec_ok_bounds _ _ Hok) as [Hsz Hcap].
  assert (Hs0 : size_ this = 0) by lia.
  destruct (ArrayPtr_new_ok 1 h) as (l & Hl & Hnew); [lia|done|].
  exists l. unfold Insert_move, begin_, end_, Get, ArrayPtr_index.
  rewrite Hc0, Hs0. cbv zeta.
  unfold ArrayPtr_swap, ArrayPtr_destroy, set_capacity, set_items, set_size.
  cbn [raw_ptr_ items_ capacity_ size_]. change (0 =? 0) with true. cbv iota.
  assert (Hpre :
    (assert_ (r <- ptr_le (raw_ptr_ (items_ this)) (raw_ptr_ (items_ this)) ;;
              if r then ptr_le (raw_ptr_ (items_ this))
                               (ptr_add (raw_ptr_ (items_ this)) 0)
              else ret false) h = Ret tt h ∧
     ptr_sub (raw_ptr_ (items_ this)) (raw_ptr_ (items_ this)) h = Ret 0 h) ∧
    ∀ h0 blk, h0 !! l = Some blk → (∀ k, k ≠ l → h0 !! k = h !! k) →
      ∃ h1, delete_array (raw_ptr_ (items_ this)) h0 = Ret tt h1 ∧ h1 !! l = Some blk).
  { destruct (vec_ok_cases _ _ Hok) as [(Hraw & _)|(lo & b & Hraw & Hlo & _)];
      rewrite Hraw.
    - split; [split; [by apply assert_true|done]|].
      intros h0 blk Hblk _. by exists h0.
    - assert (lo ≠ l) by congruence. split; [split|].
      + apply assert_true. rewrite ptr_add_at. by apply in_range_at.
      + by rewrite ptr_sub_at by (simpl; lia).
      + intros h0 blk Hblk Hframe. exists (delete lo h0).
        rewrite (delete_array_at _ _ b) by (by rewrite Hframe).
        by rewrite lookup_delete_ne. }
  destruct Hpre as ([Hassert Hsub] & Hdel).
  unfold bind at 1. rewrite Hassert. unfold bind at 1. rewrite Hsub.
  unfold bind at 1. unfold bind at 1. rewrite Hnew. cbn [raw_ptr_].
  rewrite ptr_add_at. change (0 + N.to_nat 0)%nat with O.
  unfold bind at 1. erewrite store_at; [|apply lookup_insert_eq|simpl; lia].
  rewrite insert_insert_eq.
  destruct (Hdel (<[l := <[O := value]> (replicate (N.to_nat 1) new_elem)]> h) [value])
    as (h1 & Hdel1 & Hl1).
  { by rewrite lookup_insert_eq. }
  { intros k Hk. by rewrite lookup_insert_ne. }
  unfold bind at 1. rewrite Hdel1. unfold ret.
  cbn [raw_ptr_ items_ capacity_ size_]. rewrite Hs0.
  eexists. split; [done|]. split; [done|]. done.
Qed.

(** [Insert(pos, Type&&)] into a full vector of capacity above 0: a new
    block of [max(size + 1, 2 * capacity)] elements.  The elements from
    [pos] on are moved twice, first to their old index in the new block
    and then, out of the moved-from slots of the old block, to their new
    index: what arrives there is what a move leaves behind. *)
Lemma Insert_move_full c value this h :
  vec_ok h this → c ≤ size_ this → size_ this = capacity_ this → capacity_ this ≠ 0 →
  N.max (size_ this + 1) (2 * capacity_ this) ≤ max_array_len →
  ∃ l h',
    Insert_move (ptr_add (begin_ this) c) value this h
    = Ret (at_ l (N.to_nat c),
           {| items_ := {| raw_ptr_ := at_ l 0 |};
              capacity_ := N.max (size_ this + 1) (2 * capacity_ this);
              size_ := size_ this + 1 |}) h' ∧
    h !! l = None ∧
    take (N.to_nat (size_ this + 1)) (default [] (h' !! l))
    = take (N.to_nat c) (contents h this) ++ [value] ++
      (moved_from <$> drop (N.to_nat c) (contents h this)) ∧
    load (at_ l (N.to_nat c)) h' = Ret value h'.
Proof.
  intros Hok Hc Hfull Hc0 Hmax. destruct (vec_ok_bounds _ _ Hok) as [Hsz Hcap].
  set (nc := N.max (size_ this + 1) (2 * capacity_ this)) in *.
  destruct (ArrayPtr_new_ok nc h) as (l & Hl & Hnew); [lia|done|].
  exists l. unfold Insert_move, begin_, end_, Get, ArrayPtr_index.
  rewrite (proj2 (N.eqb_neq _ _)) by done.
  rewrite (proj2 (N.ltb_ge _ _)) by lia.
  rewrite size_t_add_small, size_t_mul_small, (N.mul_comm _ 2) by lia. fold nc.
  cbv zeta. unfold ArrayPtr_swap, ArrayPtr_destroy, set_capacity, set_items, set_size.
  cbn [raw_ptr_ items_ capacity_ size_].
  destruct (vec_ok_cases _ _ Hok) as [(_ & ? & _)|(lo & b & Hraw & Hlo & Hb & Hlen)]; [done|].
  rewrite Hraw. assert (Hne : lo ≠ l) by congruence.
  rewrite !ptr_add_at, !Nat.add_0_l.
  unfold bind at 1. rewrite assert_true by (apply in_range_at; lia).
  unfold bind at 1. rewrite ptr_sub_at by lia. rewrite Nat.sub_0_r, N2Nat.id.
  unfold bind at 1. unfold bind at 1. rewrite Hnew. cbn [raw_ptr_].
  rewrite !ptr_add_at, !Nat.add_0_l.
  set (R := replicate (N.to_nat nc) new_elem).
  assert (HR : length R = N.to_nat nc) by apply length_replicate.
  set (s := N.to_nat (size_ this)). set (k := N.to_nat c).
  assert (Hks : (k ≤ s)%nat) by lia. assert (Hsb : (s ≤ length b)%nat) by lia.
  assert (Hsn : (s < N.to_nat nc)%nat) by lia.
  unfold bind at 1.
  rewrite (std_move_at _ _ _ _ _ _ b R);
    [|done|by rewrite lookup_insert_ne|by rewrite lookup_insert_eq|lia|lia|lia].
  rewrite insert_insert_eq, Nat.sub_0_r, drop_0, take_0, !app_nil_l, Nat.add_0_l.
  set (S1 := (moved_from <$> take s b) ++ drop s b).
  set (B1 := take s b ++ drop s R).
  assert (HS1 : length S1 = length b).
  { subst S1. rewrite length_app, length_fmap, length_take, length_drop. lia. }
  assert (HB1 : length B1 = N.to_nat nc).
  { subst B1. rewrite length_app, length_take, length_drop. lia. }
  replace (s + N.to_nat 1)%nat with (S s) by lia.
  unfold bind at 1.
  rewrite (std_move_backward_at _ _ _ _ _ _ S1 B1);
    [|done|by rewrite lookup_insert_eq|
     rewrite lookup_insert_ne by done; by rewrite lookup_insert_eq|lia|lia|lia|lia].
  rewrite (insert_insert_ne _ l lo) by done. rewrite !insert_insert_eq.
  replace (S s - (s - k))%nat with (S k) by lia.
  set (B2 := take (S k) B1 ++ take (s - k) (drop k S1) ++ drop (S s) B1).
  assert (HB2 : length B2 = N.to_nat nc).
  { subst B2. rewrite !length_app, !length_take, !length_drop. lia. }
  unfold bind at 1. erewrite store_at;
    [|rewrite lookup_insert_ne by done; apply lookup_insert_eq|lia].
  rewrite (insert_insert_ne _ l lo) by done. rewrite insert_insert_eq.
  unfold bind at 1. erewrite delete_array_at by apply lookup_insert_eq.
  unfold ret. cbn [raw_ptr_ items_ capacity_ size_].
  rewrite size_t_add_small by lia.
  eexists. split; [done|]. split; [done|].
  rewrite lookup_delete_ne by done. rewrite lookup_insert_ne by done.
  rewrite lookup_insert_eq. simpl (default _ _).
  split.
  - replace (N.to_nat (size_ this + 1)) with (S s) by lia.
    unfold contents. rewrite Hb. fold s k.
    destruct (contents_take_drop b k s) as [-> ->]; [lia|].
    assert (Hmid : take (s - k) (drop k S1) = moved_from <$> take (s - k) (drop k b)).
    { subst S1. rewrite drop_app_le by (rewrite length_fmap, length_take; lia).
      rewrite take_app_le by (rewrite length_drop, length_fmap, length_take; lia).
      rewrite <- fmap_drop, <- fmap_take. f_equal.
      rewrite take_drop_commute. rewrite take_take. f_equal.
      rewrite take_drop_commute. do 2 f_equal. lia. }
    eapply take_inserted with (rest := drop (S s) B1); try done; try lia.
    + rewrite length_take. lia.
    + rewrite length_fmap, length_take, length_drop. lia.
    + subst B2. rewrite take_app_le by (rewrite length_take; lia).
      rewrite take_take. replace (k `min` S k)%nat with k by lia.
      subst B1. rewrite take_app_le by (rewrite length_take; lia).
      rewrite take_take. f_equal. lia.
    + subst B2. rewrite drop_app_length'; [by rewrite Hmid|].
      rewrite length_take. lia.
  - erewrite load_at; [done| |].
    + rewrite lookup_delete_ne by done. rewrite lookup_insert_ne by done.
      apply lookup_insert_eq.
    + apply list_lookup_insert_eq. lia.
Qed.

(** ** [Resize] within the capacity: what the code does *)

Lemma fill_loop_out_of_bounds n l i x h b :
  h !! l = Some b → (i ≤ length b)%nat → (length b < i + n)%nat →
  fill_loop n (at_ l i) x h = Undefined.
Proof.
  revert i h b. induction n as [|n IH]; intros i h b Hl Hi Hn; [lia|].
  cbn [fill_loop]. unfold bind.
  destruct (decide (i < length b)%nat) as [Hlt|Hge].
  - rewrite (store_at _ _ _ _ b), ptr_add_1 by done.
    apply (IH _ _ (<[i := x]> b)); [by rewrite lookup_insert_eq|..];
      rewrite length_insert; lia.
  - unfold store. rewrite Hl. by rewrite decide_False by done.
Qed.

(** [Resize(0)]: the size becomes 0 and [Fill] is called on an empty
    range, which its [assert] rejects. *)
Lemma Resize_0 this h :
  vec_ok h this →
  Resize 0 this h = if NDEBUG then Ret (set_size 0 this) h else Abort.
Proof.
  intros Hok. unfold Resize. cbv zeta.
  rewrite (proj2 (N.leb_le 0 (size_ this))) by lia.
  cbn [set_size capacity_ items_ size_].
  rewrite (proj2 (N.leb_le 0 (capacity_ this))) by lia.
  rewrite (proj2 (N.ltb_ge (capacity_ this) 0)) by lia.
  unfold Get, Fill, assert_.
  destruct (vec_ok_cases _ _ Hok) as [(-> & _)|(l & b & -> & _)].
  - by destruct NDEBUG.
  - rewrite !ptr_add_at. unfold bind. destruct NDEBUG.
    + unfold ret. rewrite range_len_at by lia. by rewrite Nat.sub_diag.
    + rewrite ptr_lt_at. by rewrite bool_decide_eq_false_2 by lia.
Qed.

(** [Resize(new_size)] for [0 < new_size <= capacity].  The first [if]
    lowers the size to [new_size] when it was larger; it is never
    raised.  The second [if] then calls [Fill] on the [new_size] slots
    that start at the (possibly lowered) size, not on the slots between
    the old and the new size; when they do not all lie in the block, the
    call writes past its end. *)
Lemma Resize_within_capacity new_size this h :
  vec_ok h this → 0 < new_size → new_size ≤ capacity_ this →
  ∃ l b, raw_ptr_ (items_ this) = at_ l 0 ∧ h !! l = Some b ∧
    let s := N.min (size_ this) new_size in
    Resize new_size this h
    = if decide (N.to_nat s + N.to_nat new_size ≤ length b)%nat
      then Ret (set_size s this)
               (<[l := take (N.to_nat s) b ++
                       replicate (N.to_nat new_size) Type_default ++
                       drop (N.to_nat s + N.to_nat new_size) b]> h)
      else Undefined.
Proof.
  intros Hok Hpos Hle. destruct (vec_ok_bounds _ _ Hok) as [Hsz Hcap].
  destruct (vec_ok_cases _ _ Hok) as [(_ & ? & _)|(l & b & Hraw & Hl & Hb & Hlen)]; [lia|].
  exists l, b. split; [done|]. split; [done|]. cbv zeta.
  set (s := N.min (size_ this) new_size).
  unfold Resize. cbv zeta.
  assert (Hthis : (if new_size <=? size_ this then set_size new_size this else this)
                  = set_size s this).
  { subst s. destruct (N.leb_spec new_size (size_ this)).
    - by rewrite N.min_r by lia.
    - rewrite N.min_l by lia. by destruct this. }
  rewrite Hthis. cbn [set_size capacity_ items_ size_].
  rewrite (proj2 (N.leb_le _ _)) by done.
  rewrite (proj2 (N.ltb_ge _ _)) by done.
  unfold Get. rewrite Hraw, !ptr_add_at, Nat.add_0_l.
  unfold bind, Fill, bind.
  rewrite assert_true by (rewrite ptr_lt_at; by rewrite bool_decide_eq_true_2 by lia).
  rewrite range_len_at by lia.
  replace (N.to_nat s + N.to_nat new_size - N.to_nat s)%nat with (N.to_nat new_size) by lia.
  assert (Hs : (N.to_nat s ≤ length b)%nat) by lia.
  case_decide as Hfit.
  - by rewrite (fill_loop_at _ _ _ _ _ b) by done.
  - by rewrite (fill_loop_out_of_bounds _ _ _ _ _ b) by (done || lia).
Qed.

(** ** [Insert]: all branches together *)

Lemma begin_add_0 h this : vec_ok h this → ptr_add (begin_ this) 0 = begin_ this.
Proof.
  intros Hok. unfold begin_, Get.
  by destruct (vec_ok_cases _ _ Hok) as [(-> & _)|(l & b & -> & _)].
Qed.

(** [Insert(pos, const Type&)] at offset [c <= size] of a well-formed
    vector, when the block it may need can be allocated: the size grows
    by 1, the live elements are the old ones with [value] put in at
    offset [c], and the iterator returned points at [value]. *)
Lemma Insert_inserts c value this h :
  vec_ok h this → c ≤ size_ this →
  size_ this < capacity_ this ∨
    N.max (size_ this + 1) (2 * capacity_ this) ≤ max_array_len →
  ∃ p this' h',
    Insert (ptr_add (begin_ this) c) value this h = Ret (p, this') h' ∧
    size_ this' = size_ this + 1 ∧
    contents h' this'
    = take (N.to_nat c) (contents h this) ++ [value] ++ drop (N.to_nat c) (contents h this) ∧
    p = ptr_add (begin_ this') c ∧
    load p h' = Ret value h'.
Proof.
  intros Hok Hc Halloc. destruct (vec_ok_bounds _ _ Hok) as [Hsz Hcap].
  destruct (N.lt_ge_cases (size_ this) (capacity_ this)) as [Hlt|Hge].
  - destruct (Insert_in_place c value this h Hok Hc Hlt) as (h' & Heq & Hcont & Hload).
    eexists _, _, h'. split; [exact Heq|]. by split_and!.
  - destruct Halloc as [?|Halloc]; [lia|].
    destruct (Insert_full c value this h Hok Hc) as (l & h' & Heq & _ & Hcont & Hload);
      [lia|done|].
    eexists _, _, h'. split; [exact Heq|]. split; [done|]. split; [|by split].
    unfold contents at 1, block_of. simpl. exact Hcont.
Qed.

(** [Insert(pos, Type&&)] likewise, except that out of a full vector of
    capacity above 0 the elements from [pos] on arrive as what a move
    leaves behind. *)
Lemma Insert_move_inserts c value this h :
  vec_ok h this → c ≤ size_ this →
  size_ this < capacity_ this ∨
    N.max (size_ this + 1) (2 * capacity_ this) ≤ max_array_len →
  ∃ p this' h',
    Insert_move (ptr_add (begin_ this) c) value this h = Ret (p, this') h' ∧
    size_ this' = size_ this + 1 ∧
    contents h' this'
    = take (N.to_nat c) (contents h this) ++ [value] ++
      (if size_ this <? capacity_ this then drop (N.to_nat c) (contents h this)
       else moved_from <$> drop (N.to_nat c) (contents h this)) ∧
    p = ptr_add (begin_ this') c ∧
    load p h' = Ret value h'.
Proof.
  intros Hok Hc Halloc. destruct (vec_ok_bounds _ _ Hok) as [Hsz Hcap].
  pose proof (contents_length _ _ Hok) as Hlen.
  destruct (N.ltb_spec (size_ this) (capacity_ this)) as [Hlt|Hge].
  - destruct (Insert_move_in_place c value this h Hok Hc Hlt) as (h' & Heq & Hcont & Hload).
    eexists _, _, h'. split; [exact Heq|]. by split_and!.
  - destruct Halloc as [?|Halloc]; [lia|].
    destruct (N.eq_dec (capacity_ this) 0) as [Hc0|Hc0].
    + assert (c = 0) as -> by lia. rewrite (begin_add_0 h) by done.
      destruct (Insert_move_empty value this h Hok Hc0) as (l & h' & Heq & _ & Hl); [lia|].
      eexists _, _, h'. split; [exact Heq|]. simpl.
      destruct (contents h this) as [|x xs]; [|simpl in Hlen; lia].
      split; [lia|]. split; [|split; [done|]].
      * unfold contents, block_of. simpl. by rewrite Hl.
      * by apply (load_at _ _ _ [value]).
    + destruct (Insert_move_full c value this h Hok Hc) as (l & h' & Heq & _ & Hcont & Hload);
        [lia|done|done|].
      eexists _, _, h'. split; [exact Heq|]. split; [done|]. split; [|by split].
      unfold contents at 1, block_of. simpl. exact Hcont.
Qed.

(** For an element type whose move is a copy, [Insert(pos, Type&&)] puts
    [value] in at [pos] in every branch. *)
Lemma Insert_move_inserts_trivial_move c value this h :
  (∀ x, moved_from x = x) →
  vec_ok h this → c ≤ size_ this →
  size_ this < capacity_ this ∨
    N.max (size_ this + 1) (2 * capacity_ this) ≤ max_array_len →
  ∃ p this' h',
    Insert_move (ptr_add (begin_ this) c) value this h = Ret (p, this') h' ∧
    size_ this' = size_ this + 1 ∧
    contents h' this'
    = take (N.to_nat c) (contents h this) ++ [value] ++ drop (N.to_nat c) (contents h this) ∧
    load p h' = Ret value h'.
Proof.
  intros Hid Hok Hc Halloc.
  destruct (Insert_move_inserts c value this h Hok Hc Halloc)
    as (p & this' & h' & Heq & Hs & Hcont & _ & Hload).
  exists p, this', h'. split; [done|]. split; [done|]. split; [|done].
  rewrite Hcont. destruct (size_ this <? capacity_ this); [done|].
  do 2 f_equal. rewrite <- (list_fmap_id (drop _ _)) at 2.
  apply list_fmap_ext. intros i x _. apply Hid.
Qed.

(** ** [Erase], [PopBack], [Clear], [operator[]] *)

(** [std::move] of a range one slot to the left inside one block. *)
Lemma move_loop_shift_left n l i h b :
  h !! l = Some b → (S i + n ≤ length b)%nat →
  ∃ b', move_loop n (at_ l (S i)) (at_ l i) h = Ret tt (<[l := b']> h) ∧
        length b' = length b ∧
        take i b' = take i b ∧
        take n (drop i b') = take n (drop (S i) b).
Proof.
  revert i h b. induction n as [|n IH]; intros i h b Hl Hn; cbn [move_loop].
  - exists b. unfold ret. by rewrite insert_id.
  - destruct (lookup_lt_is_Some_2 b (S i)) as [x Hx]; [lia|].
    unfold bind. rewrite (move_assign_same _ _ _ _ b x), !ptr_add_1 by (done || lia).
    destruct (IH (S i) (<[l := <[S i := moved_from x]> (<[i := x]> b)]> h)
                (<[S i := moved_from x]> (<[i := x]> b)))
      as (b' & -> & Hlen & Htake & Hdrop);
      [by rewrite lookup_insert_eq|rewrite !length_insert; lia|].
    exists b'. rewrite insert_insert_eq. split; [done|].
    rewrite !length_insert in Hlen. split; [done|].
    assert (Hi : b' !! i = Some x).
    { rewrite <- (lookup_take_lt b' (S i)) by lia. rewrite Htake.
      rewrite lookup_take_lt by lia. rewrite list_lookup_insert_ne by lia.
      apply list_lookup_insert_eq. lia. }
    split.
    + replace (take i b') with (take i (take (S i) b'))
        by (rewrite take_take; f_equal; lia).
      rewrite Htake, take_take. replace (i `min` S i)%nat with i by lia.
      by rewrite !take_insert_ge by lia.
    + rewrite (drop_S b' x i) by done. rewrite (drop_S b x (S i)) by done. simpl.
      f_equal. rewrite Hdrop. by rewrite !drop_insert_lt by lia.
Qed.

Lemma std_move_shift_left l c s h b :
  h !! l = Some b → (c < s)%nat → (s ≤ length b)%nat →
  ∃ b', std_move (at_ l (S c)) (at_ l s) (at_ l c) h = Ret tt (<[l := b']> h) ∧
        length b' = length b ∧
        take c b' = take c b ∧
        take (s - S c) (drop c b') = take (s - S c) (drop (S c) b).
Proof.
  intros Hl Hc Hs. unfold std_move, bind. rewrite range_len_at by lia.
  apply move_loop_shift_left; [done|lia].
Qed.

(** A well-formed vector with an element has a block. *)
Lemma vec_ok_nonempty h this :
  vec_ok h this → size_ this ≠ 0 →
  ∃ l b, raw_ptr_ (items_ this) = at_ l 0 ∧ h !! l = Some b ∧ block_of h this = b ∧
         (N.to_nat (capacity_ this) ≤ length b)%nat.
Proof.
  intros Hok Hne. destruct (vec_ok_cases _ _ Hok) as [(_ & _ & ? & _)|H]; [done|exact H].
Qed.

Lemma Erase_returns c this h :
  vec_ok h this → c < size_ this →
  ∃ h',
    Erase (ptr_add (begin_ this) c) this h
    = Ret (ptr_add (begin_ this) c, set_size (size_ this - 1) this) h' ∧
    vec_ok h' (set_size (size_ this - 1) this) ∧
    contents h' (set_size (size_ this - 1) this) = delete (N.to_nat c) (contents h this) ∧
    (∀ l, l ∉ locs (raw_ptr_ (items_ this)) → h' !! l = h !! l).
Proof.
  intros Hok Hc. destruct (vec_ok_bounds _ _ Hok) as [Hsz Hcap].
  destruct (vec_ok_nonempty _ _ Hok) as (l & b & Hraw & Hl & Hb & Hlen); [lia|].
  unfold Erase, begin_, end_, Get, ArrayPtr_index.
  rewrite Hraw, !ptr_add_at, !Nat.add_0_l.
  unfold bind at 1. rewrite assert_true.
  2:{ unfold ret. f_equal. apply bool_decide_eq_true_2. intros [= Heq]. lia. }
  unfold bind at 1. rewrite assert_true
    by (rewrite ptr_le_at; by rewrite bool_decide_eq_true_2 by lia).
  unfold bind at 1. rewrite ptr_sub_at by lia.
  rewrite Nat.sub_0_r, N2Nat.id.
  rewrite !ptr_add_at, !Nat.add_0_l.
  replace (N.to_nat c + N.to_nat 1)%nat with (S (N.to_nat c)) by lia.
  destruct (std_move_shift_left l (N.to_nat c) (N.to_nat (size_ this)) h b)
    as (b' & Hmove & Hlen' & Htake & Hdrop); [done|lia|lia|].
  unfold bind at 1. rewrite Hmove. unfold ret.
  rewrite size_t_sub_small by lia.
  change (items_ (set_size (size_ this - 1) this)) with (items_ this).
  rewrite Hraw, ptr_add_at, Nat.add_0_l.
  eexists. split; [done|]. split; [|split].
  - apply vec_ok_set_size; [|lia].
    eapply vec_ok_upd; [|exact Hok]. by apply (upd_insert l b).
  - unfold contents at 1, block_of. cbn [set_size items_ size_]. rewrite Hraw.
    rewrite lookup_insert_eq. simpl (default _ _).
    unfold contents. rewrite Hb. rewrite delete_take_drop.
    rewrite (proj1 (contents_take_drop b (N.to_nat c) (N.to_nat (size_ this)) ltac:(lia))).
    replace (drop (S (N.to_nat c)) (take (N.to_nat (size_ this)) b))
      with (take (N.to_nat (size_ this) - S (N.to_nat c)) (drop (S (N.to_nat c)) b)).
    2:{ symmetry. apply (contents_take_drop b (S (N.to_nat c)) (N.to_nat (size_ this))). lia. }
    rewrite <- Htake, <- Hdrop.
    replace (N.to_nat (size_ this - 1))
      with (N.to_nat c + (N.to_nat (size_ this) - S (N.to_nat c)))%nat by lia.
    rewrite <- (take_drop (N.to_nat c) b') at 1.
    rewrite take_app_add'; [done|]. rewrite length_take. lia.
  - intros k Hk. rewrite lookup_insert_ne; [done|]. set_solver.
Qed.

Lemma Erase_at_end this h :
  vec_ok h this → Erase (end_ this) this h = if NDEBUG then Undefined else Abort.
Proof.
  intros Hok. destruct (vec_ok_bounds _ _ Hok) as [Hsz Hcap].
  unfold Erase, assert_. destruct NDEBUG.
  - unfold bind at 1. unfold ret at 1. unfold bind at 1. unfold ret at 1.
    unfold end_, Get, std_move.
    destruct (vec_ok_cases _ _ Hok) as [(Hraw & _ & Hs0 & _)|(l & b & Hraw & Hl & _)];
      rewrite Hraw.
    + rewrite Hs0. by cbv.
    + rewrite !ptr_add_at, !Nat.add_0_l.
      unfold bind at 1. rewrite ptr_sub_at by lia.
      rewrite Nat.sub_0_r, N2Nat.id, !ptr_add_at, !Nat.add_0_l.
      unfold bind, range_len, ptr_diff. rewrite decide_True by done.
      destruct (Z.ltb_spec (Z.of_nat (N.to_nat (size_ this)) -
                            Z.of_nat (N.to_nat (size_ this) + N.to_nat 1)) 0); [done|lia].
  - unfold bind, ret. rewrite bool_decide_eq_false_2; [done|]. intros Hne. by apply Hne.
Qed.

Lemma PopBack_returns this h :
  vec_ok h this → size_ this ≠ 0 →
  PopBack this h = Ret (set_size (size_ this - 1) this) h ∧
  vec_ok h (set_size (size_ this - 1) this) ∧
  ∃ x, contents h this = contents h (set_size (size_ this - 1) this) ++ [x].
Proof.
  intros Hok Hne. destruct (vec_ok_bounds _ _ Hok) as [Hsz Hcap].
  split; [|split].
  - unfold PopBack, bind. rewrite assert_true.
    + unfold ret. by rewrite size_t_sub_small by lia.
    + unfold ret, IsEmpty. by rewrite (proj2 (N.eqb_neq _ _)).
  - apply vec_ok_set_size; [done|lia].
  - destruct (vec_ok_nonempty _ _ Hok Hne) as (l & b & Hraw & Hl & Hb & Hlen).
    unfold contents. rewrite (block_of_frame h h this (set_size (size_ this - 1) this)) by done.
    rewrite Hb. cbn [set_size size_].
    destruct (lookup_lt_is_Some_2 b (N.to_nat (size_ this - 1))) as [x Hx]; [lia|].
    exists x. replace (N.to_nat (size_ this)) with (S (N.to_nat (size_ this - 1))) by lia.
    by apply take_S_r.
Qed.

Lemma PopBack_empty this h :
  size_ this = 0 →
  PopBack this h = if NDEBUG then Ret (set_size (2 ^ 64 - 1) this) h else Abort.
Proof.
  intros H0. unfold PopBack, assert_, IsEmpty. rewrite H0. by destruct NDEBUG.
Qed.

Lemma vec_ok_Clear h this : vec_ok h this → vec_ok h (Clear this).
Proof. intros Hok. apply vec_ok_set_size; [done|lia]. Qed.

Lemma contents_Clear h this : contents h (Clear this) = [].
Proof. done. Qed.

(** X14: a store through [operator[]] is read back by [At].  For an
    index below the size, [v[i] = x] replaces element [i] and no other,
    keeps size, capacity and every other block, and afterwards [At(i)]
    returns the same reference, through which [x] is read. *)
Theorem index_store_then_At this i x h :
  vec_ok h this → i < size_ this →
  ∃ h',
    store (index this i) x h = Ret tt h' ∧
    vec_ok h' this ∧
    contents h' this = <[N.to_nat i := x]> (contents h this) ∧
    At this i h' = Ret (index this i) h' ∧
    load (index this i) h' = Ret x h' ∧
    (∀ l, l ∉ locs (raw_ptr_ (items_ this)) → h' !! l = h !! l).
Proof.
  intros Hok Hi. destruct (vec_ok_bounds _ _ Hok) as [Hsz Hcap].
  destruct (vec_ok_nonempty _ _ Hok) as (l & b & Hraw & Hl & Hb & Hlen); [lia|].
  unfold index, ArrayPtr_index, At. rewrite Hraw, ptr_add_at, Nat.add_0_l.
  rewrite (store_at _ _ _ _ b) by (done || lia).
  eexists. split; [done|]. split; [|split; [|split; [|split]]].
  - eapply vec_ok_upd; [|exact Hok]. apply (upd_insert l b); [done|]. by rewrite length_insert.
  - unfold contents, block_of. rewrite Hraw, lookup_insert_eq, Hl. simpl.
    by rewrite take_insert_lt by lia.
  - rewrite (proj2 (N.leb_gt _ _)) by done. unfold ArrayPtr_index. by rewrite Hraw, ptr_add_at.
  - erewrite load_at; [done|apply lookup_insert_eq|]. apply list_lookup_insert_eq. lia.
  - intros k Hk. rewrite lookup_insert_ne; [done|]. set_solver.
Qed.

(** ** The constructors *)

Lemma std_fill_at l j x h b :
  h !! l = Some b → (j ≤ length b)%nat →
  std_fill (at_ l 0) (at_ l j) x h = Ret tt (<[l := replicate j x ++ drop j b]> h).
Proof.
  intros Hl Hj. unfold std_fill, bind. rewrite range_len_at by lia.
  rewrite (fill_loop_at _ _ _ _ _ b) by (done || lia).
  by rewrite Nat.sub_0_r.
Qed.

Lemma insert_fresh_frame h l (b0 : list T) :
  h !! l = None → ∀ k b, h !! k = Some b → <[l := b0]> h !! k = Some b.
Proof. intros Hl k b Hk. rewrite lookup_insert_ne; [done|congruence]. Qed.

Lemma vec_ok_exact h l (b : list T) n s :
  h !! l = Some b → length b = N.to_nat n → n ≤ max_array_len → s ≤ n →
  vec_ok h {| items_ := {| raw_ptr_ := at_ l 0 |}; capacity_ := n; size_ := s |}.
Proof.
  intros Hl Hlen Hn Hs. split; [done|]. split; [done|]. simpl. split; [done|].
  exists b. split; [done|lia].
Qed.

Lemma SimpleVector_size_value_returns size value h :
  size ≤ max_array_len →
  ∃ this h',
    SimpleVector_size_value size value h = Ret this h' ∧
    vec_ok h' this ∧ size_ this = size ∧ capacity_ this = size ∧
    contents h' this = replicate (N.to_nat size) value ∧
    (∀ l b, h !! l = Some b → h' !! l = Some b) ∧
    (size = 0 → this = SimpleVector_default ∧ h' = h).
Proof.
  intros Hmax. unfold SimpleVector_size_value. destruct (N.eq_dec size 0) as [->|Hne].
  - exists SimpleVector_default, h. unfold bind. rewrite ArrayPtr_new_0.
    split; [done|]. split; [apply vec_ok_default|]. done.
  - destruct (ArrayPtr_new_ok size h Hne Hmax) as (l & Hl & Hnew).
    unfold bind at 1. rewrite Hnew. cbv zeta. unfold Get. cbn [items_ raw_ptr_ size_].
    rewrite ptr_add_at, Nat.add_0_l.
    unfold bind. erewrite std_fill_at; [|apply lookup_insert_eq|by rewrite length_replicate].
    rewrite insert_insert_eq. rewrite drop_ge by (by rewrite length_replicate).
    rewrite app_nil_r. unfold ret.
    eexists _, _. split; [done|]. split; [|split; [done|split; [done|split; [|split]]]].
    + eapply vec_ok_exact; [apply lookup_insert_eq|by rewrite length_replicate|done|done].
    + unfold contents, block_of. simpl. rewrite lookup_insert_eq. simpl.
      apply take_ge. by rewrite length_replicate.
    + by apply insert_fresh_frame.
    + done.
Qed.

Lemma SimpleVector_init_returns init h :
  N.of_nat (length init) ≤ max_array_len →
  ∃ this h',
    SimpleVector_init init h = Ret this h' ∧
    vec_ok h' this ∧
    size_ this = N.of_nat (length init) ∧ capacity_ this = N.of_nat (length init) ∧
    contents h' this = init ∧
    (∀ l b, h !! l = Some b → h' !! l = Some b) ∧
    (init = [] → this = SimpleVector_default ∧ h' = h).
Proof.
  intros Hmax. unfold SimpleVector_init. cbv zeta.
  destruct init as [|x init].
  - exists SimpleVector_default, h. simpl length. change (N.of_nat 0) with 0.
    unfold bind. rewrite ArrayPtr_new_0.
    split; [done|]. split; [apply vec_ok_default|]. done.
  - set (n := N.of_nat (length (x :: init))) in *.
    assert (Hne : n ≠ 0) by (subst n; simpl; lia).
    destruct (ArrayPtr_new_ok n h Hne Hmax) as (l & Hl & Hnew).
    unfold bind at 1. rewrite Hnew. unfold Get. cbn [items_ raw_ptr_ size_].
    unfold bind. erewrite copy_init_at;
      [|apply lookup_insert_eq|rewrite length_replicate; subst n; lia].
    rewrite insert_insert_eq. rewrite drop_ge by (rewrite length_replicate; subst n; lia).
    rewrite app_nil_r. rewrite take_0. rewrite app_nil_l. unfold ret.
    eexists _, _. split; [done|]. split; [|split; [done|split; [done|split; [|split]]]].
    + eapply vec_ok_exact; [apply lookup_insert_eq|subst n; lia|done|done].
    + unfold contents, block_of. cbn [items_ raw_ptr_ size_].
      rewrite lookup_insert_eq. simpl (default _ _).
      apply take_ge. subst n. lia.
    + by apply insert_fresh_frame.
    + done.
Qed.

Lemma SimpleVector_reserve_returns n h :
  n ≤ max_array_len →
  ∃ this h',
    SimpleVector_reserve (Reserve_proxy n) h = Ret this h' ∧
    vec_ok h' this ∧ size_ this = 0 ∧ capacity_ this = n ∧
    contents h' this = [] ∧
    (∀ l b, h !! l = Some b → h' !! l = Some b) ∧
    (n = 0 → this = SimpleVector_default ∧ h' = h).
Proof.
  intros Hmax. unfold SimpleVector_reserve, Reserve_proxy. cbn [capacity_to_reserve_].
  destruct (N.eq_dec n 0) as [->|Hne].
  - exists SimpleVector_default, h. split; [done|]. split; [apply vec_ok_default|]. done.
  - destruct (Reserve_grow n SimpleVector_default h (vec_ok_default h))
      as (l & h' & Heq & Hl & Hl' & Hframe); [simpl; lia|done|].
    eexists _, h'. split; [exact Heq|]. split; [|split; [done|split; [done|split; [|split]]]].
    + eapply vec_ok_exact; [exact Hl'| |done|simpl; lia].
      rewrite length_app, length_replicate. simpl. lia.
    + done.
    + intros k b Hk. rewrite Hframe; [done|congruence|set_solver].
    + done.
Qed.

(** ** Where the live blocks come from

    The footprint lemmas above say what a call leaves alone.  The ones
    here say what it leaves behind: no block besides the vector's own is
    new, and a block the vector gives up is freed. *)

Lemma upd_is_Some L (h h' : heap) l : upd L h h' → is_Some (h' !! l) → is_Some (h !! l).
Proof.
  intros Hupd [b Hb]. destruct (Hupd l) as [Hlen _]. rewrite Hb in Hlen.
  destruct (h !! l); [eauto | done].
Qed.

Lemma dom_step_in_place h this this' h' :
  vec_ok h this → items_ this' = items_ this → capacity_ this' = capacity_ this →
  size_ this' ≤ capacity_ this →
  upd (locs (raw_ptr_ (items_ this))) h h' →
  dom_step h this this' h'.
Proof.
  intros _ Hi _ _ Hupd l Hl. rewrite Hi.
  destruct (decide (l ∈ locs (raw_ptr_ (items_ this)))); [by left|].
  right. split; [by eapply upd_is_Some | done].
Qed.

Lemma dom_step_realloc h this lt b0 h3 nc sz E :
  vec_ok h this → h !! lt = None →
  upd (locs (raw_ptr_ (items_ this)) ∪ {[ lt ]}) (<[lt := b0]> h) h3 →
  (N.to_nat nc ≤ length b0)%nat → nc ≤ max_array_len → sz ≤ nc →
  post (delete_array (raw_ptr_ (items_ this))) h3
       (λ _ h4, dom_step h this
                  {| items_ := {| raw_ptr_ := at_ lt 0 |}; capacity_ := nc; size_ := sz |} h4)
       E.
Proof.
  intros _ Hlt Hupd _ _ _.
  assert (Hlive : ∀ l, is_Some (h3 !! l) → l = lt ∨ is_Some (h !! l)).
  { intros l Hl. apply (upd_is_Some _ _ _ _ Hupd) in Hl.
    destruct (decide (l = lt)) as [->|Hne]; [by left|].
    right. by rewrite lookup_insert_ne in Hl. }
  apply post_delete_array.
  - intros Hnull l Hl. simpl. destruct (Hlive l Hl) as [->|Hh].
    + left. by apply elem_of_singleton.
    + right. split; [done|]. rewrite Hnull. apply not_elem_of_empty.
  - intros l0 b Hraw Hl0 l Hl. simpl.
    destruct (decide (l = l0)) as [->|Hne].
    { rewrite lookup_delete_eq in Hl. by destruct Hl. }
    rewrite lookup_delete_ne in Hl by done.
    destruct (Hlive l Hl) as [->|Hh].
    + left. by apply elem_of_singleton.
    + right. split; [done|]. rewrite Hraw. simpl. by apply not_elem_of_singleton.
Qed.

Lemma dom_step_then_upd h this this' h1 h2 :
  dom_step h this this' h1 → upd (locs (raw_ptr_ (items_ this'))) h1 h2 →
  dom_step h this this' h2.
Proof. intros Hstep Hupd l Hl. apply Hstep. by eapply upd_is_Some. Qed.

Lemma dom_step_set_size h this this' h' n :
  dom_step h this this' h' → n ≤ capacity_ this' →
  dom_step h this (set_size n this') h'.
Proof. intros Hstep _. exact Hstep. Qed.

Lemma dom_step_refl h this : vec_ok h this → dom_step h this this h.
Proof.
  intros _ l Hl. destruct (decide (l ∈ locs (raw_ptr_ (items_ this)))); [by left|by right].
Qed.

Lemma dom_step_new h lt b0 h3 nc sz :
  h !! lt = None → upd {[ lt ]} (<[lt := b0]> h) h3 →
  (N.to_nat nc ≤ length b0)%nat → nc ≤ max_array_len → sz ≤ nc →
  dom_step h SimpleVector_default
    {| items_ := {| raw_ptr_ := at_ lt 0 |}; capacity_ := nc; size_ := sz |} h3.
Proof.
  intros Hlt Hupd _ _ _ l Hl. simpl. apply (upd_is_Some _ _ _ _ Hupd) in Hl.
  destruct (decide (l = lt)) as [->|Hne].
  - left. by apply elem_of_singleton.
  - right. rewrite lookup_insert_ne in Hl by done. split; [done|apply not_elem_of_empty].
Qed.

Lemma dom_step_null h h' :
  upd ∅ h h' →
  dom_step h SimpleVector_default
    {| items_ := {| raw_ptr_ := nullptr |}; capacity_ := 0; size_ := 0 |} h'.
Proof.
  intros Hupd l Hl. right. split; [by eapply upd_is_Some | apply not_elem_of_empty].
Qed.

Lemma dom_step_release h this h3 E :
  upd ∅ h h3 →
  post (delete_array (raw_ptr_ (items_ this))) h3
       (λ _ h4, dom_step h this
                  {| items_ := {| raw_ptr_ := nullptr |}; capacity_ := 0; size_ := 0 |} h4)
       E.
Proof.
  intros Hupd. apply post_delete_array.
  - intros Hnull l Hl. right. split; [by eapply upd_is_Some|].
    rewrite Hnull. apply not_elem_of_empty.
  - intros l0 b Hraw Hl0 l Hl. right.
    destruct (decide (l = l0)) as [->|Hne].
    { rewrite lookup_delete_eq in Hl. by destruct Hl. }
    rewrite lookup_delete_ne in Hl by done.
    split; [by eapply upd_is_Some|]. rewrite Hraw. simpl. by apply not_elem_of_singleton.
Qed.

(** *** The member functions and constructors *)

Lemma Resize_blocks new_size this h :
  vec_ok h this →
  post (Resize new_size this) h
       (λ this' h', dom_step h this this' h') (λ _ h', h' = h).
Proof.
  intros Hok. destruct (vec_ok_bounds _ _ Hok) as [Hsz Hcap].
  unfold Resize. cbv zeta.
  set (this1 := if new_size <=? size_ this then set_size new_size this else this).
  assert (H1 : items_ this1 = items_ this ∧ capacity_ this1 = capacity_ this ∧
               size_ this1 ≤ capacity_ this).
  { subst this1. destruct (N.leb_spec new_size (size_ this)); simpl;
      repeat split; try done; lia. }
  destruct H1 as (Hi & Hc & Hs). rewrite !Hi, !Hc.
  destruct (N.leb_spec new_size (capacity_ this)) as [Hle|Hgt].
  - replace (capacity_ this <? new_size) with false by (symmetry; apply N.ltb_ge; lia).
    post_step post_Fill. intros _ h1 Hupd. apply post_ret.
    rewrite locs_ptr_add in Hupd. by apply dom_step_in_place.
  - replace (capacity_ this <? new_size) with true by (symmetry; apply N.ltb_lt; lia).
    apply post_bind, post_ret.
    set (new_capacity := N.max new_size (size_t_mul (capacity_ this) 2)).
    apply post_bind, post_ArrayPtr_new; [lia| |done].
    intros lt Hn0 Hmax Hlt. unfold Get. cbn [raw_ptr_].
    post_step post_Fill. intros _ h2 Hupd2. cbn [locs] in Hupd2.
    post_step post_std_move. intros _ h3 Hupd3.
    unfold ArrayPtr_swap, ArrayPtr_destroy, set_capacity, set_size, set_items.
    cbn [raw_ptr_ items_ capacity_ size_].
    apply post_bind.
    eapply post_mono;
      [apply (dom_step_realloc h this lt (replicate (N.to_nat new_capacity) new_elem)
                h3 new_capacity new_size (λ _ h', h' = h)) | | ]; try done.
    + eapply upd_trans; eapply upd_mono; try eassumption; set_solver.
    + by rewrite length_replicate.
    + lia.
Qed.

Lemma Reserve_blocks new_capacity this h :
  vec_ok h this →
  post (Reserve new_capacity this) h
       (λ this' h', dom_step h this this' h') (λ _ h', h' = h).
Proof.
  intros Hok. destruct (vec_ok_bounds _ _ Hok) as [Hsz Hcap].
  unfold Reserve. destruct (N.ltb_spec (capacity_ this) new_capacity) as [Hlt|Hge].
  - apply post_bind, post_ArrayPtr_new; [lia| |done].
    intros lt Hn0 Hmax Hfresh. unfold Get. cbn [raw_ptr_].
    apply post_bind.
    eapply post_mono with
      (Q := λ _ h2, upd {[ lt ]} (<[lt := replicate (N.to_nat new_capacity) new_elem]> h) h2)
      (E := λ _ h', h' = h); [| |done].
    { destruct (0 <? size_ this); [|by apply post_ret].
      eapply post_mono; [apply post_std_copy|simpl|]; [done|]. intros ? ? Hf. exact Hf. }
    intros _ h2 Hupd2.
    unfold ArrayPtr_swap, ArrayPtr_destroy, set_capacity, set_items.
    cbn [raw_ptr_ items_ capacity_ size_].
    apply post_bind.
    eapply post_mono;
      [apply (dom_step_realloc h this lt (replicate (N.to_nat new_capacity) new_elem)
                h2 new_capacity (size_ this) (λ _ h', h' = h)) | | ]; try done.
    + eapply upd_mono; [apply union_subseteq_r|done].
    + by rewrite length_replicate.
    + lia.
  - by apply post_ret, dom_step_refl.
Qed.

Lemma PushBack_blocks item this h :
  vec_ok h this →
  post (PushBack item this) h
       (λ this' h', dom_step h this this' h') (λ _ h', h' = h).
Proof.
  intros Hok. destruct (vec_ok_bounds _ _ Hok) as [Hsz Hcap].
  unfold PushBack. destruct (N.ltb_spec (size_ this) (capacity_ this)) as [Hlt|Hge].
  - post_step post_assign_from. intros _ h1 Hupd. apply post_ret.
    unfold ArrayPtr_index in Hupd. rewrite locs_ptr_add in Hupd.
    apply dom_step_in_place; try done. simpl.
    rewrite size_t_add_small by lia. lia.
  - destruct (N.eqb_spec (size_ this) (capacity_ this)) as [Heq|Hne].
    + apply post_bind. eapply post_mono; [by apply Resize_blocks| |done].
      intros this1 h1 Hstep. simpl.
      post_step post_assign_from. intros _ h2 Hupd. apply post_ret.
      unfold ArrayPtr_index in Hupd. rewrite locs_ptr_add in Hupd.
      by eapply dom_step_then_upd.
    + by apply post_ret, dom_step_refl.
Qed.

Lemma PushBack_move_blocks item this h :
  vec_ok h this →
  post (PushBack_move (outside item) this) h
       (λ this' h', dom_step h this this' h') (λ _ h', h' = h).
Proof. apply (PushBack_blocks (outside item)). Qed.

Lemma Insert_blocks pos value this h :
  vec_ok h this →
  post (Insert pos value this) h
       (λ r h', dom_step h this (snd r) h') (λ _ h', h' = h).
Proof.
  intros Hok. destruct (vec_ok_bounds _ _ Hok) as [Hsz Hcap].
  unfold Insert. apply post_bind, post_assert; [apply pure_cond_in_range|].
  apply post_bind, post_ptr_sub. intros d Hd.
  set (count := Z.to_N (d mod 2 ^ 64)). cbv zeta.
  apply post_bind.
  eapply post_mono with
    (Q := λ this' h', dom_step h this this' h' ∧ size_ this' = size_ this ∧
                      size_ this + 1 ≤ capacity_ this')
    (E := λ _ h', h' = h); [| |done].
  2:{ intros this' h' (Hstep & Hs & Hc). apply post_ret. simpl.
      apply dom_step_set_size; [done|]. rewrite Hs, size_t_add_small; lia. }
  destruct (N.ltb_spec (size_ this) (capacity_ this)) as [Hlt|Hge].
  - post_step post_std_copy_backward. intros _ h1 Hupd1.
    post_step post_store. intros _ h2 Hupd2. apply post_ret.
    unfold end_, begin_, Get in *. rewrite !locs_ptr_add in Hupd1.
    rewrite (ptr_diff_locs _ _ _ Hd) in Hupd2.
    split; [|split; [done|lia]].
    apply dom_step_in_place; try done. by eapply upd_trans.
  - set (new_capacity := N.max (size_t_add (size_ this) 1) (size_t_mul (capacity_ this) 2)).
    assert (size_ this + 1 ≤ new_capacity).
    { subst new_capacity. rewrite size_t_add_small; lia. }
    apply post_bind, post_ArrayPtr_new; [lia| |done].
    intros lt Hn0 Hmax Hfresh. unfold Get. cbn [raw_ptr_].
    post_step post_std_copy. intros _ h2 Hupd2.
    post_step post_store. intros _ h3 Hupd3.
    post_step post_std_copy. intros _ h4 Hupd4.
    unfold ArrayPtr_swap, ArrayPtr_destroy, set_capacity, set_items.
    cbn [raw_ptr_ items_ capacity_ size_].
    apply post_bind.
    eapply post_mono;
      [apply (dom_step_realloc h this lt (replicate (N.to_nat new_capacity) new_elem)
                h4 new_capacity (size_ this) (λ _ h', h' = h)) | | ]; try done.
    + eapply upd_mono with (L := {[ lt ]}); [apply union_subseteq_r|].
      eapply upd_trans; [|done]. by eapply upd_trans.
    + by rewrite length_replicate.
    + lia.
Qed.

Lemma Insert_move_blocks pos value this h :
  vec_ok h this →
  post (Insert_move pos value this) h
       (λ r h', dom_step h this (snd r) h') (λ _ h', h' = h).
Proof.
  intros Hok. destruct (vec_ok_bounds _ _ Hok) as [Hsz Hcap].
  unfold Insert_move. apply post_bind, post_assert; [apply pure_cond_in_range|].
  apply post_bind, post_ptr_sub. intros d Hd.
  set (count := Z.to_N (d mod 2 ^ 64)). cbv zeta.
  apply post_bind.
  eapply post_mono with
    (Q := λ this' h', dom_step h this this' h' ∧ size_ this' = size_ this ∧
                      size_ this + 1 ≤ capacity_ this')
    (E := λ _ h', h' = h); [| |done].
  2:{ intros this' h' (Hstep & Hs & Hc). apply post_ret. simpl.
      apply dom_step_set_size; [done|]. rewrite Hs, size_t_add_small; lia. }
  destruct (N.eqb_spec (capacity_ this) 0) as [Hc0|Hc0].
  { apply post_bind, post_ArrayPtr_new; [done| |done].
    intros lt Hn0 Hmax Hfresh. unfold ArrayPtr_index. cbn [raw_ptr_].
    post_step post_store. intros _ h2 Hupd2.
    unfold ArrayPtr_swap, ArrayPtr_destroy, set_capacity, set_items.
    cbn [raw_ptr_ items_ capacity_ size_].
    rewrite Hc0. change (size_t_add 0 1) with 1.
    apply post_bind.
    eapply post_mono;
      [apply (dom_step_realloc h this lt (replicate (N.to_nat 1) new_elem)
                h2 1 (size_ this) (λ _ h', h' = h)) | | ]; try done.
    + eapply upd_mono; [apply union_subseteq_r|done].
    + lia.
    + intros ? h3 Hstep. apply post_ret. split; [done|]. simpl. split; [done|lia]. }
  destruct (N.ltb_spec (size_ this) (capacity_ this)) as [Hlt|Hge].
  - post_step post_std_move_backward. intros _ h1 Hupd1.
    post_step post_store. intros _ h2 Hupd2. apply post_ret.
    unfold ArrayPtr_index, Get in *.
    rewrite !locs_ptr_add in Hupd1. rewrite locs_ptr_add in Hupd2.
    rewrite union_idemp_L in Hupd1.
    split; [|split; [done|lia]].
    apply dom_step_in_place; try done. by eapply upd_trans.
  - set (new_capacity := N.max (size_t_add (size_ this) 1) (size_t_mul (capacity_ this) 2)).
    assert (size_ this + 1 ≤ new_capacity).
    { subst new_capacity. rewrite size_t_add_small; lia. }
    apply post_bind, post_ArrayPtr_new; [lia| |done].
    intros lt Hn0 Hmax Hfresh. unfold Get, ArrayPtr_index. cbn [raw_ptr_].
    post_step post_std_move. intros _ h2 Hupd2.
    post_step post_std_move_backward. intros _ h3 Hupd3.
    post_step post_store. intros _ h4 Hupd4.
    unfold ArrayPtr_swap, ArrayPtr_destroy, set_capacity, set_items.
    cbn [raw_ptr_ items_ capacity_ size_].
    rewrite !locs_ptr_add in Hupd3.
    apply post_bind.
    eapply post_mono;
      [apply (dom_step_realloc h this lt (replicate (N.to_nat new_capacity) new_elem)
                h4 new_capacity (size_ this) (λ _ h', h' = h)) | | ]; try done.
    + eapply upd_trans; [|eapply upd_mono; [apply union_subseteq_r|done]].
      by eapply upd_trans.
    + by rewrite length_replicate.
    + lia.
Qed.

Lemma PopBack_blocks this h :
  vec_ok h this → NDEBUG = false ∨ size_ this ≠ 0 →
  post (PopBack this) h
       (λ this' h', dom_step h this this' h') (λ _ h', h' = h).
Proof.
  intros Hok Hpre. destruct (vec_ok_bounds _ _ Hok) as [Hsz Hcap].
  unfold PopBack, assert_, IsEmpty.
  assert (Hgoal : size_ this ≠ 0 →
    post (ret (set_size (size_t_sub (size_ this) 1) this)) h
         (λ this' h', dom_step h this this' h') (λ _ h', h' = h)).
  { intros Hne. apply post_ret, dom_step_set_size; [by apply dom_step_refl|].
    rewrite size_t_sub_small; lia. }
  destruct NDEBUG.
  - apply post_bind, post_ret. apply Hgoal. by destruct Hpre.
  - apply post_bind, post_bind, post_ret. destruct (N.eqb_spec (size_ this) 0); simpl.
    + apply post_abort.
    + apply post_ret. by apply Hgoal.
Qed.

Lemma Erase_blocks pos this h :
  vec_ok h this →
  post (Erase pos this) h
       (λ r h', dom_step h this (snd r) h') (λ _ h', h' = h).
Proof.
  intros Hok. destruct (vec_ok_bounds _ _ Hok) as [Hsz Hcap].
  unfold Erase. apply post_bind, post_assert; [apply pure_cond_ret|].
  apply post_bind, post_assert; [apply pure_cond_ptr_le|].
  apply post_bind, post_ptr_sub. intros d Hd.
  set (count := Z.to_N (d mod 2 ^ 64)).
  post_step post_std_move_range. intros _ h1 (Hupd & n & Hn). apply post_ret. simpl.
  unfold Get in *. rewrite !locs_ptr_add in Hupd.
  assert (size_ this ≠ 0).
  { destruct (raw_ptr_ (items_ this)) as [|l i|]; simpl in Hn.
    - by destruct (count =? 0), (size_ this =? 0).
    - case_decide; [|done]. injection Hn as Hn. lia.
    - done. }
  apply dom_step_set_size.
  - apply dom_step_in_place; try done. by rewrite union_idemp_L in Hupd.
  - rewrite size_t_sub_small; lia.
Qed.

Lemma run_mutator_blocks m this h :
  vec_ok h this →
  NDEBUG = false ∨ (m = Call_PopBack → size_ this ≠ 0) →
  post (run_mutator m this) h
       (λ r h', dom_step h this (snd r) h') (λ _ h', h' = h).
Proof.
  intros Hok Hpre. destruct m; simpl; unfold keep, forget.
  - apply post_ret. simpl. apply dom_step_set_size; [by apply dom_step_refl|lia].
  - post_step Resize_blocks; [done|]. intros. by apply post_ret.
  - post_step Reserve_blocks; [done|]. intros. by apply post_ret.
  - post_step PushBack_blocks; [done|]. intros. by apply post_ret.
  - post_step PushBack_move_blocks; [done|]. intros. by apply post_ret.
  - post_step Insert_blocks; [done|]. intros. by apply post_ret.
  - post_step Insert_move_blocks; [done|]. intros. by apply post_ret.
  - post_step PopBack_blocks; [done| |].
    + destruct Hpre as [?|Hp]; [by left | right; by apply Hp].
    + intros. by apply post_ret.
  - post_step Erase_blocks; [done|]. intros. by apply post_ret.
  - post_step post_store. intros _ h1 Hupd. apply post_ret. simpl.
    unfold index, ArrayPtr_index in Hupd. rewrite locs_ptr_add in Hupd.
    apply dom_step_in_place; try done. by destruct Hok.
Qed.

Lemma SimpleVector_size_value_blocks size value h :
  post (SimpleVector_size_value size value) h
       (λ this' h', dom_step h SimpleVector_default this' h') (λ _ h', h' = h).
Proof.
  unfold SimpleVector_size_value. apply post_bind, post_ArrayPtr_new; [| |done].
  - intros ->. cbv zeta. unfold Get. cbn [raw_ptr_ items_ size_].
    post_step post_std_fill. intros _ h1 Hupd. apply post_ret. by apply dom_step_null.
  - intros lt Hn0 Hmax Hfresh. cbv zeta. unfold Get. cbn [raw_ptr_ items_ size_].
    post_step post_std_fill. intros _ h1 Hupd. apply post_ret.
    eapply dom_step_new; try done. by rewrite length_replicate.
Qed.

Lemma SimpleVector_init_blocks init h :
  post (SimpleVector_init init) h
       (λ this' h', dom_step h SimpleVector_default this' h') (λ _ h', h' = h).
Proof.
  unfold SimpleVector_init. cbv zeta. apply post_bind, post_ArrayPtr_new; [| |done].
  - intros Hn. rewrite Hn. unfold Get. cbn [raw_ptr_ items_ size_].
    post_step post_copy_init. intros _ h1 Hupd. apply post_ret. by apply dom_step_null.
  - intros lt Hn0 Hmax Hfresh. unfold Get. cbn [raw_ptr_ items_ size_].
    post_step post_copy_init. intros _ h1 Hupd. apply post_ret.
    eapply dom_step_new; try done. by rewrite length_replicate.
Qed.

Lemma SimpleVector_copy_blocks other h :
  post (SimpleVector_copy other) h
       (λ this' h', dom_step h SimpleVector_default this' h') (λ _ h', h' = h).
Proof.
  unfold SimpleVector_copy. apply post_bind, post_ArrayPtr_new; [| |done].
  - intros Hn. rewrite Hn. cbv zeta. unfold Get. cbn [raw_ptr_ items_ size_].
    post_step post_std_copy. intros _ h1 Hupd. apply post_ret. by apply dom_step_null.
  - intros lt Hn0 Hmax Hfresh. cbv zeta. unfold Get. cbn [raw_ptr_ items_ size_].
    post_step post_std_copy. intros _ h1 Hupd. apply post_ret.
    eapply dom_step_new; try done. by rewrite length_replicate.
Qed.

Lemma run_ctor_blocks c h :
  post (run_ctor c) h
       (λ this' h', dom_step h SimpleVector_default this' h') (λ _ h', h' = h).
Proof.
  destruct c; simpl.
  - apply post_ret, dom_step_refl, vec_ok_default.
  - apply SimpleVector_size_value_blocks.
  - apply SimpleVector_size_value_blocks.
  - apply SimpleVector_init_blocks.
  - apply Reserve_blocks, vec_ok_default.
Qed.

Lemma copy_and_swap_blocks this rhs h :
  vec_ok h this →
  post (temp <- SimpleVector_copy rhs ;;
        let '(this', temp') := swap this temp in
        SimpleVector_destroy temp' ;;;
        ret this') h
       (λ this' h', dom_step h this this' h') (λ _ h', h' = h).
Proof.
  intros Hok. unfold SimpleVector_copy.
  apply post_bind, post_bind, post_ArrayPtr_new; [| |done].
  - intros Hn. rewrite Hn. cbv zeta. unfold Get. cbn [raw_ptr_ items_ size_].
    post_step post_std_copy. intros _ h1 Hupd. apply post_ret.
    unfold swap, ArrayPtr_swap, SimpleVector_destroy, ArrayPtr_destroy.
    cbn [raw_ptr_ items_ size_ capacity_]. apply post_bind.
    eapply post_mono; [by apply (dom_step_release h this h1 (λ _ h', h' = h))| |done].
    intros ? h2 Hstep. by apply post_ret.
  - intros lt Hn0 Hmax Hfresh. cbv zeta. unfold Get. cbn [raw_ptr_ items_ size_].
    post_step post_std_copy. intros _ h1 Hupd. apply post_ret.
    unfold swap, ArrayPtr_swap, SimpleVector_destroy, ArrayPtr_destroy.
    cbn [raw_ptr_ items_ size_ capacity_]. apply post_bind.
    eapply post_mono;
      [apply (dom_step_realloc h this lt (replicate (N.to_nat (size_ rhs)) new_elem)
                h1 (size_ rhs) (size_ rhs) (λ _ h', h' = h)) | | ]; try done.
    + eapply upd_mono; [apply union_subseteq_r|done].
    + by rewrite length_replicate.
Qed.

(** ** Several vectors: no block is leaked *)

Lemma owned_insert_other (w : world T) x y this' vy h' l :
  y ≠ x → objects w !! y = Some vy → l ∈ locs (raw_ptr_ (items_ vy)) →
  owned {| objects := <[x := this']> (objects w); memory := h' |} l.
Proof.
  intros Hne Hy Hl. exists y, vy. simpl. by rewrite lookup_insert_ne.
Qed.

Lemma no_leak_update (w : world T) x this this' h' :
  no_leak w →
  objects w !! x = Some this ∨ objects w !! x = None →
  dom_step (memory w) this this' h' →
  no_leak {| objects := <[x := this']> (objects w); memory := h' |}.
Proof.
  intros Hleak Hx Hstep l Hl. simpl in Hl.
  destruct (Hstep l Hl) as [Hnew|[Hold Hnot]].
  - exists x, this'. simpl. by rewrite lookup_insert_eq.
  - destruct (Hleak l Hold) as (y & vy & Hy & Hly).
    apply (owned_insert_other w x y this' vy h' l); [|done..].
    intros ->. destruct Hx as [Hx|Hx]; congruence.
Qed.

Lemma call_no_leak {A} x (f : SimpleVector → M T (A * SimpleVector)) (w w' : world T) r :
  no_leak w →
  (∀ this, objects w !! x = Some this →
           post (f this) (memory w)
                (λ r h', dom_step (memory w) this (snd r) h') (λ _ h', h' = memory w)) →
  call x f w = Ret r w' → no_leak w'.
Proof.
  intros Hleak Hf. unfold call. destruct (objects w !! x) as [this|] eqn:Hx; [|done].
  specialize (Hf _ eq_refl). unfold post in Hf.
  destruct (f this (memory w)) as [[a this'] h'|e h'| |]; try done.
  intros [= _ <-]. eapply no_leak_update; eauto.
Qed.

Lemma construct_no_leak x c (w w' : world T) :
  no_leak w →
  post c (memory w)
       (λ this' h', dom_step (memory w) SimpleVector_default this' h')
       (λ _ h', h' = memory w) →
  construct x c w = Ret tt w' → no_leak w'.
Proof.
  intros Hleak Hc. unfold construct. destruct (objects w !! x) as [this|] eqn:Hx; [done|].
  unfold post in Hc. destruct (c (memory w)) as [this' h'|e h'| |]; try done.
  intros [= <-]. eapply no_leak_update; eauto.
Qed.

Lemma destroy_no_leak x (w w' : world T) :
  no_leak w → destroy x w = Ret tt w' → no_leak w'.
Proof.
  intros Hleak. unfold destroy. destruct (objects w !! x) as [this|] eqn:Hx; [|done].
  unfold SimpleVector_destroy, ArrayPtr_destroy.
  destruct (delete_array (raw_ptr_ (items_ this)) (memory w)) as [[] h'|e h'| |] eqn:Hdel;
    try done.
  intros [= <-] l Hl. simpl in Hl.
  assert (Hlive : is_Some (memory w !! l) ∧ l ∉ locs (raw_ptr_ (items_ this))).
  { destruct (delete_array_Ret _ _ _ _ Hdel) as [[Hraw ->]|(l0 & b & Hraw & Hl0 & ->)];
      rewrite Hraw; simpl.
    - split; [done|apply not_elem_of_empty].
    - destruct (decide (l = l0)) as [->|Hne].
      { rewrite lookup_delete_eq in Hl. by destruct Hl. }
      rewrite lookup_delete_ne in Hl by done. split; [done|by apply not_elem_of_singleton]. }
  destruct Hlive as [Hold Hnot]. destruct (Hleak l Hold) as (y & vy & Hy & Hly).
  exists y, vy. simpl. split; [|done]. rewrite lookup_delete_ne; [done|]. congruence.
Qed.

Lemma swap_objects_no_leak x y (w w' : world T) :
  no_leak w → swap_objects x y w = Ret tt w' → no_leak w'.
Proof.
  intros Hleak. unfold swap_objects.
  destruct (objects w !! x) as [a|] eqn:Hx; [|done].
  destruct (objects w !! y) as [b|] eqn:Hy; [|done].
  unfold swap, ArrayPtr_swap. simpl. intros [= <-] l Hl. simpl in Hl.
  destruct (Hleak l Hl) as (z & vz & Hz & Hlz). unfold owned. simpl.
  destruct (decide (z = x)) as [->|Hzx].
  { exists y. eexists. rewrite lookup_insert_eq. split; [done|]. simpl. congruence. }
  destruct (decide (z = y)) as [->|Hzy].
  { exists x. eexists. rewrite lookup_insert_ne, lookup_insert_eq by done.
    split; [done|]. simpl. congruence. }
  exists z, vz. by rewrite !lookup_insert_ne.
Qed.

Lemma assign_no_leak x y (w w' : world T) :
  world_ok w → no_leak w → assign x y w = Ret tt w' → no_leak w'.
Proof.
  intros Hw Hleak. unfold assign.
  destruct (objects w !! x) as [a|] eqn:Hx; [|done].
  destruct (objects w !! y) as [b|] eqn:Hy; [|done].
  case_decide; [|by intros [= <-]].
  assert (Hpost := copy_and_swap_blocks a b (memory w)). unfold post in Hpost.
  match goal with |- context [?m (memory w)] =>
    destruct (m (memory w)) as [a' h'|e h'| |] end; try done.
  intros [= <-]. eapply no_leak_update; [done|by left|].
  apply Hpost. destruct Hw as [Hvec _]. eauto.
Qed.

Lemma assign_move_no_leak x y (w w' : world T) :
  no_leak w → assign_move x y w = Ret tt w' → no_leak w'.
Proof.
  intros Hleak. unfold assign_move.
  destruct (objects w !! x) as [a|] eqn:Hx; [|done].
  destruct (objects w !! y) as [b|] eqn:Hy; [|done].
  case_decide as Hxy; [|by intros [= <-]].
  unfold ArrayPtr_move_assign, bind.
  destruct (delete_array (raw_ptr_ (items_ a)) (memory w)) as [[] h'|e h'| |] eqn:Hdel;
    try done.
  simpl. intros [= <-] l Hl. simpl in Hl.
  assert (Hlive : is_Some (memory w !! l) ∧ l ∉ locs (raw_ptr_ (items_ a))).
  { destruct (delete_array_Ret _ _ _ _ Hdel) as [[Hraw ->]|(l0 & b0 & Hraw & Hl0 & ->)];
      rewrite Hraw; simpl.
    - split; [done|apply not_elem_of_empty].
    - destruct (decide (l = l0)) as [->|Hne].
      { rewrite lookup_delete_eq in Hl. by destruct Hl. }
      rewrite lookup_delete_ne in Hl by done. split; [done|by apply not_elem_of_singleton]. }
  destruct Hlive as [Hold Hnot]. destruct (Hleak l Hold) as (z & vz & Hz & Hlz).
  unfold owned. simpl.
  destruct (decide (z = y)) as [->|Hzy].
  { exists x. eexists. rewrite lookup_insert_ne, lookup_insert_eq by done.
    split; [done|]. simpl. congruence. }
  assert (z ≠ x) by congruence.
  exists z, vz. by rewrite !lookup_insert_ne.
Qed.

Lemma construct_move_no_leak x y (w w' : world T) :
  no_leak w → construct_move x y w = Ret tt w' → no_leak w'.
Proof.
  intros Hleak. unfold construct_move.
  destruct (objects w !! x) as [a|] eqn:Hx; [done|].
  destruct (objects w !! y) as [b|] eqn:Hy; [|done].
  assert (Hxy : x ≠ y) by congruence.
  unfold SimpleVector_move, bind.
  destruct (ArrayPtr_new (capacity_ b) (memory w)) as [items h'|e h'| |] eqn:Hnew;
    try done.
  unfold ArrayPtr_swap, ret. cbn [swap ArrayPtr_swap raw_ptr_ items_ capacity_ size_].
  intros [= <-] l Hl. simpl in Hl. unfold owned. simpl.
  assert (Hcases : l ∈ locs (raw_ptr_ items) ∨ is_Some (memory w !! l)).
  { destruct (ArrayPtr_new_Ret _ _ _ _ Hnew)
      as [(_ & -> & ->)|(l0 & _ & _ & _ & -> & ->)]; [by right|].
    destruct (decide (l = l0)) as [->|Hne].
    - left. simpl. by apply elem_of_singleton.
    - right. by rewrite lookup_insert_ne in Hl. }
  destruct Hcases as [Hnew'|Hold].
  { exists y. eexists. rewrite lookup_insert_ne, lookup_insert_eq by done. by split. }
  destruct (Hleak l Hold) as (z & vz & Hz & Hlz).
  destruct (decide (z = y)) as [->|Hzy].
  { exists x. eexists. rewrite lookup_insert_eq. split; [done|]. simpl. congruence. }
  assert (z ≠ x) by congruence.
  exists z, vz. by rewrite !lookup_insert_ne.
Qed.

Lemma exec_no_leak o (w w' : world T) :
  world_ok w → no_leak w → NDEBUG = false ∨ precondition o w →
  exec o w = Ret tt w' → no_leak w'.
Proof.
  intros Hw Hleak Hpre. destruct o as [x c|x y|x y|x|x m|x y|x y|x y]; simpl.
  - apply construct_no_leak; [done|]. apply run_ctor_blocks.
  - destruct (objects w !! y) as [o|]; [|done].
    apply construct_no_leak; [done|]. apply SimpleVector_copy_blocks.
  - by apply construct_move_no_leak.
  - by apply destroy_no_leak.
  - apply call_no_leak; [done|]. intros this Hx. apply run_mutator_blocks.
    + destruct Hw as [Hvec _]. eauto.
    + destruct Hpre as [?|Hpre]; [by left|]. right. intros ->. simpl in Hpre.
      by rewrite Hx in Hpre.
  - by apply swap_objects_no_leak.
  - by apply assign_no_leak.
  - by apply assign_move_no_leak.
Qed.

Lemma reachable_no_leak (w : world T) : reachable w → no_leak w.
Proof.
  induction 1 as [|w o w' Hreach IH Hpre Hstep].
  { intros l [b Hb]. simpl in Hb. by rewrite lookup_empty in Hb. }
  destruct Hstep as [Heq|[e Heq]].
  - eapply exec_no_leak; eauto using reachable_world_ok.
  - pose proof (exec_step_ok o w (reachable_world_ok w Hreach) Hpre) as Hok.
    rewrite Heq in Hok. simpl in Hok. by subst.
Qed.

(** X2: a program never leaks a block.  In every world a program can
    reach, each live block of the heap is the block of exactly one
    vector; so once every vector is destroyed the heap is empty. *)
Theorem no_leak_invariant (w : world T) :
  reachable w →
  (∀ l, is_Some (memory w !! l) →
        ∃ x v, objects w !! x = Some v ∧ raw_ptr_ (items_ v) = at_ l 0 ∧
               ∀ y vy, objects w !! y = Some vy →
                       raw_ptr_ (items_ vy) = at_ l 0 → y = x) ∧
  (objects w = ∅ → memory w = ∅).
Proof.
  intros Hreach. pose proof (reachable_no_leak w Hreach) as Hleak.
  destruct (reachable_world_ok w Hreach) as [Hvec Hown]. split.
  - intros l Hl. destruct (Hleak l Hl) as (x & v & Hx & Hlx).
    assert (Hraw : ∀ y vy, objects w !! y = Some vy →
                     (l ∈ locs (raw_ptr_ (items_ vy)) ↔ raw_ptr_ (items_ vy) = at_ l 0)).
    { intros y vy Hy. destruct (Hvec y vy Hy) as (_ & _ & Hp).
      destruct (raw_ptr_ (items_ vy)) as [|k i|]; simpl; [set_solver| |done].
      destruct Hp as [-> _]. split.
      - by intros ->%elem_of_singleton.
      - intros [= ->]. by apply elem_of_singleton. }
    exists x, v. split; [done|]. split; [by apply (Hraw x v)|].
    intros y vy Hy Hly. apply (Hown y x vy v l); [done..| |done]. by apply (Hraw y vy).
  - intros Hempty. apply map_empty. intros l.
    destruct (memory w !! l) as [b|] eqn:Hb; [|done].
    destruct (Hleak l) as (x & v & Hx & _); [by rewrite Hb|].
    rewrite Hempty in Hx. by rewrite lookup_empty in Hx.
Qed.

(** A constructor's block is all it added to the heap. *)
Lemma fresh_block_delete h v' h' :
  local_step h SimpleVector_default v' h' → dom_step h SimpleVector_default v' h' →
  delete_array (raw_ptr_ (items_ v')) h' = Ret tt h.
Proof.
  intros (Hok & Hframe & Hnew) Hdom.
  assert (Hsame : ∀ k, k ∉ locs (raw_ptr_ (items_ v')) → h' !! k = h !! k).
  { intros k Hk. destruct (h !! k) as [b|] eqn:Hb.
    - apply Hframe; [done|]. simpl. apply not_elem_of_empty.
    - destruct (h' !! k) as [b'|] eqn:Hb'; [|done].
      destruct (Hdom k) as [?|[[? ?] _]]; [by rewrite Hb'|done|congruence]. }
  destruct Hok as (_ & _ & Hp).
  destruct (raw_ptr_ (items_ v')) as [|l i|] eqn:Hraw; [| |done].
  - simpl. unfold ret. f_equal. apply map_eq. intros k. apply Hsame. apply not_elem_of_empty.
  - destruct Hp as (-> & b & Hl & _). rewrite (delete_array_at _ _ b) by done.
    f_equal. apply map_eq. intros k. destruct (decide (k = l)) as [->|Hne].
    + rewrite lookup_delete_eq. symmetry.
      destruct (Hnew l) as [Hin|Hnone]; [simpl; by apply elem_of_singleton| |done].
      simpl in Hin. by apply not_elem_of_empty in Hin.
    + rewrite lookup_delete_ne by done. apply Hsame. simpl. by apply not_elem_of_singleton.
Qed.

Lemma construct_then_destroy x c (w w1 : world T) :
  post c (memory w)
       (λ this' h', local_step (memory w) SimpleVector_default this' h' ∧
                    dom_step (memory w) SimpleVector_default this' h')
       (λ _ _, True) →
  construct x c w = Ret tt w1 → destroy x w1 = Ret tt w.
Proof.
  intros Hc. unfold construct. destruct (objects w !! x) as [this|] eqn:Hx; [done|].
  unfold post in Hc. destruct (c (memory w)) as [this' h'|e h'| |]; try done.
  intros [= <-]. destruct Hc as [Hlocal Hdom].
  unfold destroy. simpl. rewrite lookup_insert_eq.
  unfold SimpleVector_destroy, ArrayPtr_destroy.
  rewrite (fresh_block_delete _ _ _ Hlocal Hdom).
  rewrite delete_insert_id by done. by rewrite world_eta.
Qed.

Lemma post_and {A} (m : M T A) h (Q1 Q2 : A → heap → Prop) (E1 E2 : exn → heap → Prop) :
  post m h Q1 E1 → post m h Q2 E2 → post m h (λ a h', Q1 a h' ∧ Q2 a h') (λ _ _, True).
Proof. unfold post. by destruct (m h). Qed.

(** X18: constructing a vector and destroying it again leaves the world
    as it was, objects and heap: the destructor frees what the
    constructor allocated.  This holds for every constructor that takes
    no other vector, and for the copy constructor. *)
Theorem construct_destroy_round_trip (w w1 : world T) x :
  (∀ c, exec (Construct x c) w = Ret tt w1 → exec (Destroy x) w1 = Ret tt w) ∧
  (∀ other, exec (Construct_copy x other) w = Ret tt w1 →
            exec (Destroy x) w1 = Ret tt w).
Proof.
  split; [intros c|intros other]; simpl.
  - apply construct_then_destroy.
    eapply post_and; [apply run_ctor_local | apply run_ctor_blocks].
  - destruct (objects w !! other) as [v|]; [|done].
    apply construct_then_destroy.
    eapply post_and; [apply SimpleVector_copy_local | apply SimpleVector_copy_blocks].
Qed.

(** ** What is thrown, and what a throw leaves behind *)

Lemma throws_only_ret {A} (a : A) e0 : throws_only (T := T) (ret a) e0.
Proof. by intros h e h'. Qed.

Lemma throws_only_bind {A A'} (m : M T A) (k : A → M T A') e0 :
  throws_only m e0 → (∀ a, throws_only (k a) e0) → throws_only (bind m k) e0.
Proof.
  intros Hm Hk h e h'. unfold bind. destruct (m h) as [a h1|e1 h1| |] eqn:Hmh; try done.
  - apply Hk.
  - intros [= <- _]. by eapply Hm.
Qed.

Lemma throws_only_abort {A} e0 : throws_only (T := T) (abort : M T A) e0.
Proof. by intros h e h'. Qed.

Lemma throws_only_undefined {A} e0 : throws_only (T := T) (undefined : M T A) e0.
Proof. by intros h e h'. Qed.

Lemma throws_only_load p e0 : throws_only (T := T) (load p) e0.
Proof.
  intros h e h'. unfold load. destruct p as [|l i|]; try done.
  destruct (h !! l) as [b|]; [|done]. by destruct (b !! i).
Qed.

Lemma throws_only_store p v e0 : throws_only (T := T) (store p v) e0.
Proof.
  intros h e h'. unfold store. destruct p as [|l i|]; try done.
  destruct (h !! l) as [b|]; [|done]. by case_decide.
Qed.

Lemma throws_only_delete_array p e0 : throws_only (T := T) (delete_array p) e0.
Proof. intros h e h' Heq. by destruct (delete_array_Throw _ _ _ _ Heq). Qed.

Lemma throws_only_new_array n : throws_only (T := T) (new_array n) bad_alloc.
Proof.
  intros h e h'. unfold new_array. destruct (max_array_len <? n); [|done]. by intros [= <- _].
Qed.

Lemma throws_only_range_len p q e0 : throws_only (T := T) (range_len p q) e0.
Proof.
  intros h e h'. unfold range_len. destruct (ptr_diff q p) as [d|]; [|done].
  by destruct (d <? 0)%Z.
Qed.

Lemma throws_only_dec p e0 : throws_only (T := T) (dec p) e0.
Proof. intros h e h'. unfold dec. by destruct (ptr_dec p). Qed.

Lemma throws_only_ptr_le p q e0 : throws_only (T := T) (ptr_le p q) e0.
Proof. intros h e h'. unfold ptr_le. by destruct (ptr_diff q p). Qed.

Lemma throws_only_ptr_lt p q e0 : throws_only (T := T) (ptr_lt p q) e0.
Proof. intros h e h'. unfold ptr_lt. by destruct (ptr_diff q p). Qed.

Lemma throws_only_ptr_sub p q e0 : throws_only (T := T) (ptr_sub p q) e0.
Proof. intros h e h'. unfold ptr_sub. by destruct (ptr_diff p q). Qed.

(** One step of a proof that a computation throws nothing but [e0]. *)
Ltac throws_step :=
  first
    [ apply throws_only_ret
    | apply throws_only_abort
    | apply throws_only_undefined
    | apply throws_only_load
    | apply throws_only_store
    | apply throws_only_delete_array
    | apply throws_only_new_array
    | apply throws_only_range_len
    | apply throws_only_dec
    | apply throws_only_ptr_le
    | apply throws_only_ptr_lt
    | apply throws_only_ptr_sub
    | apply throws_only_bind; [|intros ?]
    | match goal with
      | |- throws_only (if ?c then _ else _) _ => destruct c
      | |- throws_only (match ?c with Some _ => _ | None => _ end) _ => destruct c
      end ].

Lemma throws_only_assert c e0 : throws_only c e0 → throws_only (T := T) (assert_ c) e0.
Proof. intros Hc. unfold assert_. repeat throws_step. exact Hc. Qed.

Lemma throws_only_move_assign d s e0 : throws_only (T := T) (move_assign d s) e0.
Proof. unfold move_assign. repeat throws_step. Qed.

Lemma throws_only_fill_loop n p v e0 : throws_only (T := T) (fill_loop n p v) e0.
Proof.
  revert p. induction n as [|n IH]; intros p; cbn [fill_loop]; repeat throws_step. apply IH.
Qed.

Lemma throws_only_copy_loop n p q e0 : throws_only (T := T) (copy_loop n p q) e0.
Proof.
  revert p q. induction n as [|n IH]; intros p q; cbn [copy_loop]; repeat throws_step. apply IH.
Qed.

Lemma throws_only_move_loop n p q e0 : throws_only (T := T) (move_loop n p q) e0.
Proof.
  revert p q. induction n as [|n IH]; intros p q; cbn [move_loop]; [apply throws_only_ret|].
  apply throws_only_bind; [apply throws_only_move_assign|]. intros _. apply IH.
Qed.

Lemma throws_only_copy_backward_loop n p q e0 : throws_only (T := T) (copy_backward_loop n p q) e0.
Proof.
  revert p q. induction n as [|n IH]; intros p q; cbn [copy_backward_loop];
    repeat throws_step. apply IH.
Qed.

Lemma throws_only_move_backward_loop n p q e0 : throws_only (T := T) (move_backward_loop n p q) e0.
Proof.
  revert p q. induction n as [|n IH]; intros p q; cbn [move_backward_loop];
    [apply throws_only_ret|].
  do 2 (apply throws_only_bind; [apply throws_only_dec|]; intros ?).
  apply throws_only_bind; [apply throws_only_move_assign|]. intros _. apply IH.
Qed.

Lemma throws_only_copy_init init q e0 : throws_only (T := T) (copy_init init q) e0.
Proof.
  revert q. induction init as [|v init IH]; intros q; cbn [copy_init]; repeat throws_step.
  apply IH.
Qed.

Lemma throws_only_equal_loop n p q e0 : throws_only (T := T) (equal_loop n p q) e0.
Proof.
  revert p q. induction n as [|n IH]; intros p q; cbn [equal_loop]; repeat throws_step.
  apply IH.
Qed.

Lemma throws_only_ArrayPtr_new n : throws_only (T := T) (ArrayPtr_new n) bad_alloc.
Proof. unfold ArrayPtr_new. repeat throws_step. Qed.

Lemma throws_only_Fill p q e0 : throws_only (T := T) (Fill p q) e0.
Proof.
  unfold Fill. apply throws_only_bind; [apply throws_only_assert, throws_only_ptr_lt|].
  intros _. apply throws_only_bind; [apply throws_only_range_len|].
  intros n. apply throws_only_fill_loop.
Qed.

(** The same, with the loops, [Fill] and the allocation. *)
Ltac throws :=
  repeat first
    [ apply throws_only_ArrayPtr_new
    | apply throws_only_Fill
    | apply throws_only_assert
    | apply throws_only_move_assign
    | apply throws_only_fill_loop
    | apply throws_only_copy_loop
    | apply throws_only_move_loop
    | apply throws_only_copy_backward_loop
    | apply throws_only_move_backward_loop
    | apply throws_only_copy_init
    | apply throws_only_equal_loop
    | throws_step ].

Lemma throws_only_Resize n this : throws_only (T := T) (Resize n this) bad_alloc.
Proof. unfold Resize, ArrayPtr_swap, ArrayPtr_destroy, std_move. cbv zeta. throws. Qed.

Lemma throws_only_Reserve n this : throws_only (T := T) (Reserve n this) bad_alloc.
Proof. unfold Reserve, ArrayPtr_swap, ArrayPtr_destroy, std_copy. cbv zeta. throws. Qed.

Lemma throws_only_assign_from d item e0 : throws_only (T := T) (assign_from d item) e0.
Proof. destruct item; simpl; repeat throws_step. Qed.

Lemma throws_only_move_from d item e0 : throws_only (T := T) (move_from d item) e0.
Proof. destruct item; simpl; repeat throws_step. Qed.

Lemma throws_only_PushBack item this : throws_only (T := T) (PushBack item this) bad_alloc.
Proof.
  unfold PushBack.
  repeat first [apply throws_only_Resize | apply throws_only_assign_from | throws_step].
Qed.

Lemma throws_only_PushBack_move item this :
  throws_only (T := T) (PushBack_move item this) bad_alloc.
Proof.
  unfold PushBack_move.
  repeat first [apply throws_only_Resize | apply throws_only_move_from | throws_step].
Qed.

Lemma throws_only_Insert pos value this :
  throws_only (T := T) (Insert pos value this) bad_alloc.
Proof.
  unfold Insert, ArrayPtr_swap, ArrayPtr_destroy, std_copy, std_copy_backward. cbv zeta.
  throws.
Qed.

Lemma throws_only_Insert_move pos value this :
  throws_only (T := T) (Insert_move pos value this) bad_alloc.
Proof.
  unfold Insert_move, ArrayPtr_swap, ArrayPtr_destroy, std_move, std_move_backward. cbv zeta.
  throws.
Qed.

Lemma throws_only_PopBack this e0 : throws_only (T := T) (PopBack this) e0.
Proof. unfold PopBack. throws. Qed.

Lemma throws_only_Erase pos this e0 : throws_only (T := T) (Erase pos this) e0.
Proof. unfold Erase, std_move. throws. Qed.

Lemma throws_only_run_mutator m this : throws_only (T := T) (run_mutator m this) bad_alloc.
Proof.
  destruct m; simpl; unfold keep, forget;
    repeat first
      [ apply throws_only_Resize | apply throws_only_Reserve | apply throws_only_PushBack
      | apply throws_only_PushBack_move | apply throws_only_Insert | apply throws_only_Insert_move
      | apply throws_only_PopBack | apply throws_only_Erase | throws_step ].
Qed.

Lemma throws_only_SimpleVector_copy other :
  throws_only (T := T) (SimpleVector_copy other) bad_alloc.
Proof. unfold SimpleVector_copy, std_copy. cbv zeta. throws. Qed.

Lemma throws_only_run_ctor c : throws_only (T := T) (run_ctor c) bad_alloc.
Proof.
  destruct c; simpl; try apply throws_only_Reserve;
    unfold SimpleVector_size, SimpleVector_size_value, SimpleVector_init, std_fill;
    cbv zeta; throws.
Qed.

(** [Resize] is the one member function with an assignment to a field
    ([size_ = new_size]) in front of its allocation.  When it throws,
    that assignment was not executed. *)
Lemma Resize_throws_before_assigning new_size this h e h' :
  vec_ok h this → Resize new_size this h = Throw e h' → size_ this < new_size.
Proof.
  intros Hok Heq. destruct (vec_ok_bounds _ _ Hok) as [Hsz _].
  destruct (N.lt_ge_cases (size_ this) new_size) as [|Hle]; [done|exfalso].
  revert Heq. unfold Resize. cbv zeta.
  rewrite (proj2 (N.leb_le new_size (size_ this))) by done. cbn [set_size capacity_].
  rewrite (proj2 (N.leb_le new_size (capacity_ this))) by lia.
  rewrite (proj2 (N.ltb_ge (capacity_ this) new_size)) by lia.
  intros Heq.
  assert (Hany : ∀ e0, throws_only (T := T)
            (Fill (ptr_add (Get (items_ (set_size new_size this))) (size_ (set_size new_size this)))
                  (ptr_add (ptr_add (Get (items_ (set_size new_size this)))
                                    (size_ (set_size new_size this))) new_size) ;;;
             ret (set_size new_size this)) e0).
  { intros e0. apply throws_only_bind; [apply throws_only_Fill|].
    intros _. apply throws_only_ret. }
  pose proof (Hany out_of_range _ _ _ Heq) as H1.
  pose proof (Hany bad_alloc _ _ _ Heq) as H2. congruence.
Qed.

(** X1: what a call that throws leaves behind.  A member function
    called on a well-formed vector that throws has thrown
    [std::bad_alloc], or [std::out_of_range] if it is [At], and then
    the index is not below the size; a constructor that throws has
    thrown [std::bad_alloc].  The heap is as it was before the call: no
    block has been allocated, released or written.  [Resize] assigns
    [size_] in front of its allocation, when the new size is not above
    the size; it does not on the path that throws.  Copying, moving and
    comparing elements do not throw here, and the fields of the vector
    are not part of the statement. *)
Theorem throwing_call_leaves_heap this h :
  vec_ok h this →
  (∀ m e h', run_mutator m this h = Throw e h' → e = bad_alloc ∧ h' = h) ∧
  (∀ new_size e h', Resize new_size this h = Throw e h' → size_ this < new_size) ∧
  (∀ c e h', run_ctor c h = Throw e h' → e = bad_alloc ∧ h' = h) ∧
  (∀ e h', SimpleVector_copy this h = Throw e h' → e = bad_alloc ∧ h' = h) ∧
  (∀ i e h', At this i h = Throw e h' → e = out_of_range ∧ size_ this ≤ i ∧ h' = h).
Proof.
  intros Hok. split_and!.
  - intros m e h' Heq. split; [by eapply throws_only_run_mutator|].
    assert (Hpre : m = Call_PopBack ∨ (m = Call_PopBack → size_ this ≠ 0)).
    { destruct m; (by left) || (by right). }
    destruct Hpre as [->|Hpre].
    + assert (Hany : ∀ e0, throws_only (T := T) (run_mutator Call_PopBack this) e0).
      { intros e0. simpl. unfold keep. apply throws_only_bind; [apply throws_only_PopBack|].
        intros ?. apply throws_only_ret. }
      pose proof (Hany out_of_range _ _ _ Heq) as H1.
      pose proof (Hany bad_alloc _ _ _ Heq) as H2. congruence.
    + pose proof (run_mutator_local m this h Hok (or_intror Hpre)) as Hpost.
      exact (post_Throw _ _ _ _ _ _ Hpost Heq).
  - intros new_size e h'. by apply Resize_throws_before_assigning.
  - intros c e h' Heq. split; [by eapply throws_only_run_ctor|].
    exact (post_Throw _ _ _ _ _ _ (run_ctor_local c h) Heq).
  - intros e h' Heq. split; [by eapply throws_only_SimpleVector_copy|].
    exact (post_Throw _ _ _ _ _ _ (SimpleVector_copy_local this h) Heq).
  - intros i e h'. unfold At. destruct (N.leb_spec (size_ this) i) as [Hle|Hgt]; [|done].
    by intros [= <- <-].
Qed.

(** ** The capacity never shrinks *)

Lemma returns_only_ret {A} (a : A) (P : A → Prop) : P a → returns_only (T := T) (ret a) P.
Proof. intros HP h a' h'. by intros [= <- _]. Qed.

Lemma returns_only_bind {A A'} (m : M T A) (k : A → M T A') (Q : A → Prop) (P : A' → Prop) :
  returns_only m Q → (∀ a, Q a → returns_only (k a) P) → returns_only (bind m k) P.
Proof.
  intros Hm Hk h a' h'. unfold bind. destruct (m h) as [a h1|e1 h1| |] eqn:Hmh; try done.
  apply Hk. by eapply Hm.
Qed.

Lemma returns_only_seq {A A'} (m : M T A) (k : A → M T A') (P : A' → Prop) :
  (∀ a, returns_only (k a) P) → returns_only (bind m k) P.
Proof.
  intros Hk. apply (returns_only_bind m k (λ _, True)); [done|]. intros a _. apply Hk.
Qed.

Lemma Resize_capacity new_size this :
  returns_only (T := T) (Resize new_size this) (λ this', capacity_ this ≤ capacity_ this').
Proof.
  unfold Resize. cbv zeta.
  set (this1 := if new_size <=? size_ this then set_size new_size this else this).
  assert (Hc : capacity_ this1 = capacity_ this) by (subst this1; by destruct (_ <=? _)).
  rewrite Hc. apply returns_only_seq. intros _.
  destruct (N.ltb_spec (capacity_ this) new_size).
  - do 3 (apply returns_only_seq; intros ?).
    unfold ArrayPtr_swap. apply returns_only_seq. intros _.
    apply returns_only_ret. simpl. lia.
  - apply returns_only_ret. lia.
Qed.

Lemma Reserve_capacity new_capacity this :
  returns_only (T := T) (Reserve new_capacity this)
    (λ this', capacity_ this ≤ capacity_ this').
Proof.
  unfold Reserve. destruct (N.ltb_spec (capacity_ this) new_capacity).
  - do 2 (apply returns_only_seq; intros ?).
    unfold ArrayPtr_swap. apply returns_only_seq. intros _.
    apply returns_only_ret. simpl. lia.
  - by apply returns_only_ret.
Qed.

Lemma PushBack_capacity item this :
  returns_only (T := T) (PushBack item this) (λ this', capacity_ this ≤ capacity_ this').
Proof.
  unfold PushBack. destruct (size_ this <? capacity_ this).
  - apply returns_only_seq. intros _. by apply returns_only_ret.
  - destruct (size_ this =? capacity_ this); [|by apply returns_only_ret].
    eapply returns_only_bind; [apply Resize_capacity|]. intros this' Hc. simpl in Hc.
    apply returns_only_seq. intros _. by apply returns_only_ret.
Qed.

Lemma PushBack_move_capacity item this :
  returns_only (T := T) (PushBack_move item this) (λ this', capacity_ this ≤ capacity_ this').
Proof.
  unfold PushBack_move. destruct (size_ this <? capacity_ this).
  - apply returns_only_seq. intros _. by apply returns_only_ret.
  - destruct (size_ this =? capacity_ this); [|by apply returns_only_ret].
    eapply returns_only_bind; [apply Resize_capacity|]. intros this' Hc. simpl in Hc.
    apply returns_only_seq. intros _. by apply returns_only_ret.
Qed.

Lemma grown_capacity this h :
  vec_ok h this → ¬ size_ this < capacity_ this →
  capacity_ this ≤ N.max (size_t_add (size_ this) 1) (size_t_mul (capacity_ this) 2).
Proof.
  intros Hok Hge. destruct (vec_ok_bounds _ _ Hok) as [Hsz Hcap].
  rewrite size_t_add_small by lia. lia.
Qed.

Lemma Insert_capacity pos value this h :
  vec_ok h this →
  returns_only (T := T) (Insert pos value this) (λ r, capacity_ this ≤ capacity_ (snd r)).
Proof.
  intros Hok. unfold Insert. do 2 (apply returns_only_seq; intros ?). cbv zeta.
  eapply returns_only_bind with (Q := λ this', capacity_ this ≤ capacity_ this').
  2:{ intros this' Hc. by apply returns_only_ret. }
  destruct (N.ltb_spec (size_ this) (capacity_ this)).
  - do 2 (apply returns_only_seq; intros ?). by apply returns_only_ret.
  - do 4 (apply returns_only_seq; intros ?).
    unfold ArrayPtr_swap. apply returns_only_seq. intros _.
    apply returns_only_ret. simpl. eapply grown_capacity; [done|lia].
Qed.

Lemma Insert_move_capacity pos value this h :
  vec_ok h this →
  returns_only (T := T) (Insert_move pos value this)
    (λ r, capacity_ this ≤ capacity_ (snd r)).
Proof.
  intros Hok. unfold Insert_move. do 2 (apply returns_only_seq; intros ?). cbv zeta.
  eapply returns_only_bind with (Q := λ this', capacity_ this ≤ capacity_ this').
  2:{ intros this' Hc. by apply returns_only_ret. }
  destruct (N.eqb_spec (capacity_ this) 0) as [H0|H0].
  { do 2 (apply returns_only_seq; intros ?).
    unfold ArrayPtr_swap. apply returns_only_seq. intros _.
    apply returns_only_ret. simpl. rewrite H0. lia. }
  destruct (N.ltb_spec (size_ this) (capacity_ this)).
  - do 2 (apply returns_only_seq; intros ?). by apply returns_only_ret.
  - do 4 (apply returns_only_seq; intros ?).
    unfold ArrayPtr_swap. apply returns_only_seq. intros _.
    apply returns_only_ret. simpl. eapply grown_capacity; [done|lia].
Qed.

Lemma PopBack_capacity this :
  returns_only (T := T) (PopBack this) (λ this', capacity_ this ≤ capacity_ this').
Proof. unfold PopBack. apply returns_only_seq. intros _. by apply returns_only_ret. Qed.

Lemma Erase_capacity pos this :
  returns_only (T := T) (Erase pos this) (λ r, capacity_ this ≤ capacity_ (snd r)).
Proof.
  unfold Erase. do 4 (apply returns_only_seq; intros ?). by apply returns_only_ret.
Qed.

Lemma run_mutator_capacity m this h :
  vec_ok h this →
  returns_only (T := T) (run_mutator m this) (λ r, capacity_ this ≤ capacity_ (snd r)).
Proof.
  intros Hok. destruct m; simpl; unfold keep, forget.
  - by apply returns_only_ret.
  - eapply returns_only_bind; [apply Resize_capacity|]. intros ? ?. by apply returns_only_ret.
  - eapply returns_only_bind; [apply Reserve_capacity|]. intros ? ?. by apply returns_only_ret.
  - eapply returns_only_bind; [apply PushBack_capacity|]. intros ? ?. by apply returns_only_ret.
  - eapply returns_only_bind; [apply PushBack_move_capacity|]. intros ? ?.
    by apply returns_only_ret.
  - eapply returns_only_bind; [by eapply Insert_capacity|].
    intros ? ?. by apply returns_only_ret.
  - eapply returns_only_bind; [by eapply Insert_move_capacity|].
    intros ? ?. by apply returns_only_ret.
  - eapply returns_only_bind; [apply PopBack_capacity|]. intros ? ?. by apply returns_only_ret.
  - eapply returns_only_bind; [apply Erase_capacity|]. intros ? ?. by apply returns_only_ret.
  - apply returns_only_seq. intros _. by apply returns_only_ret.
Qed.

(** X3: no member function ever lowers the capacity.  Whatever a
    well-formed vector is called with ([Clear], [Resize], [Reserve],
    [PushBack], [Insert], [PopBack], [Erase], a store through
    [operator[]]), if the call returns, the capacity is at least what it
    was: storage is only given back by the destructor and by
    assignment. *)
Theorem capacity_never_shrinks m this h r this' h' :
  vec_ok h this → run_mutator m this h = Ret (r, this') h' →
  capacity_ this ≤ capacity_ this'.
Proof.
  intros Hok Heq. exact (run_mutator_capacity m this h Hok h (r, this') h' Heq).
Qed.

(** ** Copy assignment and [swap] between two vectors *)

Lemma elem_of_locs_at k l i : k ∈ locs (at_ l i) ↔ k = l.
Proof. simpl. apply elem_of_singleton. Qed.

Lemma SimpleVector_eta (v : SimpleVector) :
  {| items_ := {| raw_ptr_ := raw_ptr_ (items_ v) |};
     capacity_ := capacity_ v; size_ := size_ v |} = v.
Proof. by destruct v as [[p] c s]. Qed.

(** X4: copy assignment [a = b] between two different well-formed
    vectors.  The call returns; [a] ends with the size of [b], a capacity
    of exactly that size and the elements of [b], in a block of its own,
    so that [a == b] when the element type's [operator==] is reflexive;
    [b] is as it was; and the block [a] had before is freed. *)
Theorem copy_assignment_spec (w : world T) a b va vb :
  world_ok w → a ≠ b → objects w !! a = Some va → objects w !! b = Some vb →
  ∃ w' va',
    assign a b w = Ret tt w' ∧ world_ok w' ∧
    objects w' !! a = Some va' ∧ objects w' !! b = Some vb ∧
    size_ va' = size_ vb ∧ capacity_ va' = size_ vb ∧
    contents (memory w') va' = contents (memory w) vb ∧
    contents (memory w') vb = contents (memory w) vb ∧
    locs (raw_ptr_ (items_ va')) ## locs (raw_ptr_ (items_ vb)) ∧
    (∀ l, l ∈ locs (raw_ptr_ (items_ va)) → memory w' !! l = None) ∧
    ((∀ x, Type_eqb x x = true) → equal a b w' = Ret true w').
Proof.
  intros Hw Hab Ha Hb.
  pose proof (assign_step_ok a b w Hw) as Hok'.
  assert (Hoka : vec_ok (memory w) va) by (by apply (proj1 Hw a)).
  assert (Hokb : vec_ok (memory w) vb) by (by apply (proj1 Hw b)).
  assert (Hdisj : ∀ l, l ∈ locs (raw_ptr_ (items_ va)) → l ∉ locs (raw_ptr_ (items_ vb))).
  { intros l Hl Hl'. apply Hab. by apply (proj2 Hw a b va vb l). }
  destruct (SimpleVector_copy_spec vb (memory w) Hokb)
    as (temp & h1 & Hcopy & Hs & Hc & Hblock).
  unfold assign in Hok' |- *. rewrite Ha, Hb in Hok' |- *.
  rewrite decide_True in Hok' |- * by done.
  unfold bind at 1 in Hok'. unfold bind at 1. rewrite Hcopy in Hok' |- *.
  unfold swap, ArrayPtr_swap, SimpleVector_destroy, ArrayPtr_destroy in Hok' |- *.
  cbn [items_ raw_ptr_ capacity_ size_] in Hok' |- *.
  set (va' := {| items_ := {| raw_ptr_ := raw_ptr_ (items_ temp) |};
                 capacity_ := capacity_ temp; size_ := size_ temp |}) in *.
  (* the heap after the copy keeps the blocks of [a] and [b] *)
  assert (Hkeep : ∀ l, l ∈ locs (raw_ptr_ (items_ va)) ∨ l ∈ locs (raw_ptr_ (items_ vb)) →
                       h1 !! l = memory w !! l).
  { intros l Hl. destruct Hblock as [(_ & _ & ->)|(k & _ & Hk & ->)]; [done|].
    rewrite lookup_insert_ne; [done|]. intros <-.
    destruct Hl as [Hl|Hl]; [destruct (vec_ok_live _ _ _ Hoka Hl)
                            |destruct (vec_ok_live _ _ _ Hokb Hl)]; congruence. }
  (* freeing the block [a] had *)
  assert (Hdel : ∃ h2, delete_array (raw_ptr_ (items_ va)) h1 = Ret tt h2 ∧
                       (∀ l, l ∈ locs (raw_ptr_ (items_ va)) → h2 !! l = None) ∧
                       (∀ l, l ∉ locs (raw_ptr_ (items_ va)) → h2 !! l = h1 !! l)).
  { destruct (vec_ok_cases _ _ Hoka) as [(Hraw & _)|(l & bl & Hraw & Hl & _)]; rewrite Hraw.
    - exists h1. split; [done|]. split; [|done]. intros l Hl. simpl in Hl.
      by apply not_elem_of_empty in Hl.
    - assert (Hl1 : h1 !! l = Some bl).
      { rewrite Hkeep; [done|]. left. rewrite Hraw. by apply elem_of_locs_at. }
      exists (delete l h1). split; [by apply (delete_array_at _ _ bl)|]. split.
      + intros k ->%elem_of_locs_at. apply lookup_delete_eq.
      + intros k Hk. apply lookup_delete_ne. intros <-. apply Hk.
        by apply elem_of_locs_at. }
  destruct Hdel as (h2 & Hdel & Hfreed & Hrest).
  unfold bind at 1 in Hok'. unfold bind at 1. rewrite Hdel in Hok' |- *.
  unfold ret in Hok' |- *. simpl in Hok'.
  set (w' := {| objects := <[a := va']> (objects w); memory := h2 |}) in *.
  assert (Hb' : objects w' !! b = Some vb) by (simpl; by rewrite lookup_insert_ne).
  assert (Ha' : objects w' !! a = Some va') by (simpl; by rewrite lookup_insert_eq).
  assert (Hnew : locs (raw_ptr_ (items_ va')) ## locs (raw_ptr_ (items_ vb))).
  { intros l Hl Hl'. apply Hab. by apply (proj2 Hok' a b va' vb l). }
  assert (Hca : contents (memory w') va' = contents (memory w) vb).
  { (* the elements of [a] *)
    unfold contents at 1. cbn [va' size_]. rewrite Hs.
    destruct Hblock as [(Hraw & Hs0 & ->)|(k & Hraw & Hk & ->)].
    + unfold contents. by rewrite Hs0.
    + unfold block_of. cbn [va' items_ raw_ptr_]. rewrite Hraw. cbn [w' memory].
      rewrite Hrest.
      * rewrite lookup_insert_eq. simpl. apply take_ge. rewrite contents_length by done. lia.
      * intros Hin. destruct (vec_ok_live _ _ _ Hoka Hin). congruence. }
  assert (Hcb : contents (memory w') vb = contents (memory w) vb).
  { (* the elements of [b] *)
    apply contents_frame; try done. intros l Hl. cbn [w' memory].
    rewrite Hrest; [apply Hkeep; by right|]. intros Hl'. by apply (Hdisj l). }
  exists w', va'. split_and!; try done.
  intros Hrefl. unfold equal. rewrite Ha', Hb'.
  rewrite decide_eq_sym_false by done.
  rewrite SimpleVector_eq_same; try done.
  - by apply (proj1 Hok' a).
  - by apply (proj1 Hok' b).
  - congruence.
Qed.

(** X5: [a.swap(b)] exchanges the two vectors and touches no element.
    Afterwards each object has the block, size and capacity the other
    had, the heap is the same, and swapping again restores the world. *)
Theorem swap_objects_spec (w : world T) a b va vb :
  objects w !! a = Some va → objects w !! b = Some vb →
  ∃ w',
    swap_objects a b w = Ret tt w' ∧ memory w' = memory w ∧
    objects w' !! a = Some vb ∧ objects w' !! b = Some va ∧
    (∀ x, x ≠ a → x ≠ b → objects w' !! x = objects w !! x) ∧
    swap_objects a b w' = Ret tt w.
Proof.
  intros Ha Hb. unfold swap_objects. rewrite Ha, Hb.
  unfold swap, ArrayPtr_swap. cbn [items_ raw_ptr_ capacity_ size_].
  rewrite !SimpleVector_eta. eexists. split; [done|]. cbn [objects memory].
  assert (Hab : a = b → va = vb) by (intros ->; congruence).
  split; [done|]. split; [|split; [|split]].
  - rewrite lookup_insert. case_decide as Heq; [|by rewrite lookup_insert_eq].
    f_equal. by apply Hab.
  - by rewrite lookup_insert_eq.
  - intros x Hxa Hxb. by rewrite !lookup_insert_ne.
  - rewrite lookup_insert_eq.
    assert (Ha' : <[b := va]> (<[a := vb]> (objects w)) !! a = Some vb).
    { rewrite lookup_insert. case_decide as Heq; [|by rewrite lookup_insert_eq].
      f_equal. by apply Hab. }
    rewrite Ha'. rewrite !SimpleVector_eta.
    transitivity (Ret (S := world T) tt {| objects := objects w; memory := memory w |});
      [|by rewrite world_eta].
    do 2 f_equal. apply map_eq. intros x.
    rewrite !lookup_insert. repeat case_decide; congruence.
Qed.

(** ** How the member functions compose *)

(** X13: [Resize] above the capacity.  The vector moves to a new block of
    [max(new_size, 2 * capacity)] elements and frees the old one; the size
    becomes [new_size]; the live elements are kept; the slots from the old
    capacity on hold [Type()].  The slots between the old size and the old
    capacity are moved over as they were: they hold [Type()] only when
    the vector was full. *)
Theorem Resize_above_capacity new_size this h :
  vec_ok h this → capacity_ this < new_size →
  N.max new_size (2 * capacity_ this) ≤ max_array_len →
  ∃ this' h',
    Resize new_size this h = Ret this' h' ∧
    vec_ok h' this' ∧
    size_ this' = new_size ∧
    capacity_ this' = N.max new_size (2 * capacity_ this) ∧
    contents h' this'
    = take (N.to_nat (capacity_ this)) (block_of h this) ++
      replicate (N.to_nat new_size - N.to_nat (capacity_ this)) Type_default ∧
    take (N.to_nat (size_ this)) (contents h' this') = contents h this ∧
    (size_ this = capacity_ this →
       contents h' this'
       = contents h this ++
         replicate (N.to_nat new_size - N.to_nat (size_ this)) Type_default) ∧
    (∀ l, l ∈ locs (raw_ptr_ (items_ this)) → h' !! l = None).
Proof.
  intros Hok Hlt Hmax. destruct (vec_ok_bounds _ _ Hok) as [Hsz Hcap].
  destruct (Resize_grow new_size this h Hok Hlt Hmax) as (l & h' & Heq & Hl & Hl' & Hframe).
  assert (Hblock : (N.to_nat (capacity_ this) ≤ length (block_of h this))%nat).
  { destruct (vec_ok_cases _ _ Hok) as [(_ & -> & _)|(? & ? & _ & _ & -> & ?)]; [lia|done]. }
  eexists _, h'. split; [exact Heq|].
  assert (Hcont : contents h'
            {| items_ := {| raw_ptr_ := at_ l 0 |};
               capacity_ := N.max new_size (2 * capacity_ this); size_ := new_size |}
          = take (N.to_nat (capacity_ this)) (block_of h this) ++
            replicate (N.to_nat new_size - N.to_nat (capacity_ this)) Type_default).
  { unfold contents at 1, block_of at 1. cbn [items_ raw_ptr_ size_]. rewrite Hl'.
    simpl (default _ _). rewrite take_app_ge by (rewrite length_take; lia).
    rewrite length_take. replace (N.to_nat (capacity_ this) `min` length (block_of h this))%nat
      with (N.to_nat (capacity_ this)) by lia.
    f_equal. rewrite take_replicate. f_equal. lia. }
  split; [|split; [done|split; [done|split; [exact Hcont|split; [|split]]]]].
  - eapply vec_ok_exact; [exact Hl'| |done|lia].
    rewrite length_app, length_take, length_replicate. lia.
  - rewrite Hcont. rewrite take_app_le by (rewrite length_take; lia).
    unfold contents. rewrite take_take. f_equal. lia.
  - intros Hfull. rewrite Hcont. unfold contents. by rewrite Hfull.
  - intros k Hk. destruct (vec_ok_live _ _ _ Hok Hk) as [bk Hbk].
    pose proof (post_Ret _ _ _ _ _ _ (Resize_blocks new_size this h Hok) Heq) as Hdom.
    destruct (h' !! k) as [b'|] eqn:Hb'; [|done].
    destruct (Hdom k) as [Hin|[_ Hnot]]; [by rewrite Hb'| |done].
    apply elem_of_locs_at in Hin. congruence.
Qed.

(** ** [PushBack] of a reference *)

Lemma load_Ret_at p (h : heap) x :
  load p h = Ret x h → ∃ l i b, p = at_ l i ∧ h !! l = Some b ∧ b !! i = Some x.
Proof.
  unfold load. destruct p as [|l i|]; [done| |done].
  destruct (h !! l) as [b|] eqn:Hl; [|done]. destruct (b !! i) as [v|] eqn:Hi; [|done].
  intros [= ->]. by exists l, i, b.
Qed.

(** An object outside the vector's block is where it was, and holds what
    it held, after a call on the vector. *)
Lemma load_after_local_step p x h this this' h' :
  load p h = Ret x h → locs p ## locs (raw_ptr_ (items_ this)) →
  local_step h this this' h' →
  load p h' = Ret x h' ∧ locs p ## locs (raw_ptr_ (items_ this')).
Proof.
  intros Hload Hapart (_ & Hframe & Hown).
  destruct (load_Ret_at _ _ _ Hload) as (l & i & b & -> & Hl & Hi).
  simpl in Hapart. assert (Hnot : l ∉ locs (raw_ptr_ (items_ this))) by set_solver.
  split.
  - apply (load_at l i h' b); [by apply Hframe|done].
  - simpl. apply disjoint_singleton_l. intros Hin.
    destruct (Hown _ Hin); [done|congruence].
Qed.

(** The copy overload reads its argument where it stores it.  With room
    to spare, or with the argument outside the vector's block, it does
    what it does for a copy of the argument made before the call. *)
Lemma PushBack_reference item x this h :
  vec_ok h this → refers_to h item x →
  size_ this < capacity_ this ∨ apart item this →
  PushBack item this h = PushBack (outside x) this h.
Proof.
  intros Hok Hx Hcase. destruct item as [v|p]; simpl in Hx; [by subst|].
  unfold PushBack. destruct (N.ltb_spec (size_ this) (capacity_ this)) as [Hlt|Hge].
  - unfold bind, assign_from, bind. by rewrite Hx.
  - destruct Hcase as [?|Hapart]; [lia|]. simpl in Hapart.
    destruct (size_ this =? capacity_ this); [|done].
    pose proof (Resize_local (size_t_add (capacity_ this) 1) this h Hok) as Hlocal.
    unfold bind at 1 3.
    destruct (Resize (size_t_add (capacity_ this) 1) this h) as [this1 h1|e h1| |] eqn:Hres;
      try done.
    pose proof (post_Ret _ _ _ _ _ _ Hlocal Hres) as Hstep.
    destruct (load_after_local_step _ _ _ _ _ _ Hx Hapart Hstep) as [Hx1 _].
    unfold bind, assign_from, bind. by rewrite Hx1.
Qed.

(** The move overload, for an argument outside the vector's block, does
    the same and then leaves the moved-from value in the argument. *)
Lemma PushBack_move_reference p x this h this' h2 :
  vec_ok h this → load p h = Ret x h → locs p ## locs (raw_ptr_ (items_ this)) →
  PushBack_move (outside x) this h = Ret this' h2 →
  ∃ l i b, p = at_ l i ∧ h2 !! l = Some b ∧ (l ∉ locs (raw_ptr_ (items_ this'))) ∧
    PushBack_move (inside p) this h = Ret this' (<[l := <[i := moved_from x]> b]> h2).
Proof.
  intros Hok Hx Hapart Heq. destruct (vec_ok_bounds _ _ Hok) as [Hsz Hcap].
  pose proof (PushBack_move_local x this h Hok) as Hlocal.
  pose proof (post_Ret _ _ _ _ _ _ Hlocal Heq) as Hstep.
  destruct (load_after_local_step _ _ _ _ _ _ Hx Hapart Hstep) as [Hx2 Hapart2].
  destruct (load_Ret_at _ _ _ Hx2) as (l & i & b & -> & Hl & Hi).
  exists l, i, b. split; [done|]. split; [done|]. split; [set_solver|].
  assert (Hst : store (at_ l i) (moved_from x) h2
                = Ret tt (<[l := <[i := moved_from x]> b]> h2)).
  { apply store_at; [done|]. by eapply lookup_lt_Some. }
  revert Heq. unfold PushBack_move.
  destruct (N.ltb_spec (size_ this) (capacity_ this)) as [Hlt|Hge].
  - unfold bind, move_from, move_assign, bind. rewrite Hx.
    destruct (store (ArrayPtr_index (items_ this) (size_ this)) x h) as [[] h'|e h'| |];
      try done.
    intros [= <- <-]. by rewrite Hst.
  - destruct (N.eqb_spec (size_ this) (capacity_ this)) as [Hfull|Hne]; [|lia].
    pose proof (Resize_local (size_t_add (capacity_ this) 1) this h Hok) as Hres_local.
    unfold bind at 1 3.
    destruct (Resize (size_t_add (capacity_ this) 1) this h) as [this1 h1|e h1| |] eqn:Hres;
      try done.
    pose proof (post_Ret _ _ _ _ _ _ Hres_local Hres) as Hstep1.
    destruct (load_after_local_step _ _ _ _ _ _ Hx Hapart Hstep1) as [Hx1 _].
    unfold bind, move_from, move_assign, bind. rewrite Hx1.
    destruct (store (ArrayPtr_index (items_ this1) (size_t_sub (size_ this1) 1)) x h1)
      as [[] h'|e' h'| |]; try done.
    intros [= <- <-]. by rewrite Hst.
Qed.

(** [PushBack] of a reference it can read: an object outside the heap or
    in a block other than the vector's, in either overload, or any cell
    of the heap for the copy overload with room to spare. *)
Lemma PushBack_reference_returns item x this h push :
  vec_ok h this →
  size_ this < capacity_ this ∨
    N.max (capacity_ this + 1) (2 * capacity_ this) ≤ max_array_len →
  refers_to h item x →
  apart item this ∧ (push = PushBack ∨ push = PushBack_move) ∨
    size_ this < capacity_ this ∧ push = PushBack →
  ∃ this' h',
    push item this h = Ret this' h' ∧
    vec_ok h' this' ∧
    size_ this' = size_ this + 1 ∧
    contents h' this' = contents h this ++ [x] ∧
    contents h' this' !! N.to_nat (size_ this) = Some x ∧
    (size_ this < capacity_ this →
       capacity_ this' = capacity_ this ∧ items_ this' = items_ this) ∧
    (¬ size_ this < capacity_ this →
       capacity_ this' = N.max (capacity_ this + 1) (2 * capacity_ this) ∧
       2 * capacity_ this ≤ capacity_ this') ∧
    1 ≤ capacity_ this' ∧
    capacity_ this ≤ capacity_ this'.
Proof.
  intros Hok Hroom Hx Hcase.
  assert (Hcopy : size_ this < capacity_ this ∨ apart item this →
                  ∃ this' h', PushBack item this h = Ret this' h' ∧
                    vec_ok h' this' ∧
                    size_ this' = size_ this + 1 ∧
                    contents h' this' = contents h this ++ [x] ∧
                    contents h' this' !! N.to_nat (size_ this) = Some x ∧
                    (size_ this < capacity_ this →
                       capacity_ this' = capacity_ this ∧ items_ this' = items_ this) ∧
                    (¬ size_ this < capacity_ this →
                       capacity_ this' = N.max (capacity_ this + 1) (2 * capacity_ this) ∧
                       2 * capacity_ this ≤ capacity_ this') ∧
                    1 ≤ capacity_ this' ∧
                    capacity_ this ≤ capacity_ this').
  { intros Hc. rewrite (PushBack_reference item x) by done.
    apply PushBack_returns; [done|done|by left]. }
  destruct Hcase as [[Hapart [->| ->]]|[Hlt ->]]; [by apply Hcopy; right| |by apply Hcopy; left].
  destruct item as [v|p]; simpl in Hx.
  { subst v. apply PushBack_returns; [done|done|by right]. }
  destruct (PushBack_returns x this h PushBack_move Hok Hroom)
    as (this' & h2 & Heq & Hok2 & Hs & Hcont & Hlast & Hin & Hgrow & H1 & Hle); [by right|].
  destruct (PushBack_move_reference p x this h this' h2 Hok Hx Hapart Heq)
    as (l & i & b & -> & Hl & Hnot & Heq').
  exists this', (<[l := <[i := moved_from x]> b]> h2).
  assert (Hsame : contents (<[l := <[i := moved_from x]> b]> h2) this' = contents h2 this').
  { apply contents_frame; [done|done|]. intros k Hk. apply lookup_insert_ne. congruence. }
  rewrite Hsame. split_and!; try done.
  apply (vec_ok_frame h2); [done|]. intros k bk Hk Hbk.
  rewrite lookup_insert_ne; [done|congruence].
Qed.

(** [PushBack], in either overload, of a reference to a cell of the
    vector's own block, when the vector is full and the new block can be
    had: [Resize] releases the block, and the read of the argument that
    follows is a read of released storage. *)
Lemma PushBack_own_element_full l i this h push :
  vec_ok h this → raw_ptr_ (items_ this) = at_ l 0 → size_ this = capacity_ this →
  N.max (capacity_ this + 1) (2 * capacity_ this) ≤ max_array_len →
  push = PushBack ∨ push = PushBack_move →
  push (inside (at_ l i)) this h = Undefined.
Proof.
  intros Hok Hraw Hfull Hmax Hpush. destruct (vec_ok_bounds _ _ Hok) as [Hsz Hcap].
  destruct (Resize_grow (capacity_ this + 1) this h) as (l1 & h1 & Hres & Hfresh & Hl1 & _);
    [done|lia|done|].
  pose proof (Resize_blocks (capacity_ this + 1) this h Hok) as Hblocks.
  pose proof (post_Ret _ _ _ _ _ _ Hblocks Hres) as Hdom.
  assert (Hfreed : h1 !! l = None).
  { destruct (h1 !! l) as [b|] eqn:Hb; [exfalso|done].
    destruct (Hdom l) as [Hin|[_ Hnot]]; [by rewrite Hb| |].
    - apply elem_of_locs_at in Hin. subst l1.
      destruct (vec_ok_cases _ _ Hok) as [(Hnull & _)|(l' & b' & Hraw' & Hl' & _)];
        congruence.
    - apply Hnot. rewrite Hraw. by apply elem_of_locs_at. }
  destruct Hpush as [->| ->]; unfold PushBack, PushBack_move;
    rewrite (proj2 (N.ltb_ge _ _)) by lia; rewrite (proj2 (N.eqb_eq _ _) Hfull);
    rewrite size_t_add_small by lia; unfold bind at 1; rewrite Hres;
    unfold bind, assign_from, move_from, move_assign, bind, load; by rewrite Hfreed.
Qed.

(** X9: [PushBack] then [PopBack] is a round trip on the elements, for
    an argument [PushBack] can read: an object outside the heap or in a
    block other than the vector's, in either overload, or any cell of
    the heap for the copy overload with room to spare.  The vector has
    the size and the live elements it started with.  Its capacity is
    what [PushBack] made it, never less than before. *)
Theorem PushBack_PopBack_round_trip item x this h push :
  vec_ok h this →
  size_ this < capacity_ this ∨
    N.max (capacity_ this + 1) (2 * capacity_ this) ≤ max_array_len →
  refers_to h item x →
  apart item this ∧ (push = PushBack ∨ push = PushBack_move) ∨
    size_ this < capacity_ this ∧ push = PushBack →
  ∃ this1 h1 this2,
    push item this h = Ret this1 h1 ∧
    PopBack this1 h1 = Ret this2 h1 ∧
    size_ this2 = size_ this ∧
    contents h1 this2 = contents h this ∧
    capacity_ this2 = capacity_ this1 ∧ capacity_ this ≤ capacity_ this2.
Proof.
  intros Hok Hroom Hx Hcase.
  destruct (PushBack_reference_returns item x this h push Hok Hroom Hx Hcase)
    as (this1 & h1 & Heq & Hok1 & Hs1 & Hcont & _ & _ & _ & _ & Hcap).
  destruct (PopBack_returns this1 h1 Hok1) as (Hpop & Hok2 & y & Hy); [lia|].
  exists this1, h1, (set_size (size_ this1 - 1) this1). split_and!; try done.
  - simpl. lia.
  - rewrite Hcont in Hy. by apply app_inj_tail in Hy as [-> _].
Qed.

(** X10: [Clear] empties the vector and keeps its storage.  Afterwards
    the vector has no elements and the capacity and block it had, and
    pushing back up to [capacity] elements fills that same block without
    an allocation. *)
Theorem Clear_keeps_storage this h items :
  vec_ok h this → N.of_nat (length items) ≤ capacity_ this →
  contents h (Clear this) = [] ∧
  size_ (Clear this) = 0 ∧
  capacity_ (Clear this) = capacity_ this ∧
  items_ (Clear this) = items_ this ∧
  ∃ this' h',
    push_all items (Clear this) h = Ret this' h' ∧
    items_ this' = items_ this ∧ capacity_ this' = capacity_ this ∧
    contents h' this' = items.
Proof.
  intros Hok Hlen. split_and!; try done.
  destruct (push_all_in_place items (Clear this) h (vec_ok_Clear _ _ Hok))
    as (this' & h' & Heq & _ & Hc & Hi & _ & Hcont); [simpl; lia|].
  exists this', h'. split_and!; done.
Qed.

Lemma Insert_move_vec_ok pos value this h p this' h' :
  vec_ok h this → Insert_move pos value this h = Ret (p, this') h' → vec_ok h' this'.
Proof.
  intros Hok Heq.
  by destruct (post_Ret _ _ _ _ _ _ (Insert_move_local pos value this h Hok) Heq).
Qed.


(** X11: inserting at [end()] is [PushBack], for a [value] that is an
    object of the caller's outside the heap, so not an element of the
    vector.  [Insert(end(), value)] and [PushBack(value)] (the overloads
    taking [Type&&]) leave the vector with the same size, the same
    capacity and the same elements: the old ones followed by [value]. *)
Theorem Insert_move_at_end_is_PushBack value this h :
  vec_ok h this →
  size_ this < capacity_ this ∨
    N.max (capacity_ this + 1) (2 * capacity_ this) ≤ max_array_len →
  ∃ p this1 h1 this2 h2,
    Insert_move (end_ this) value this h = Ret (p, this1) h1 ∧
    PushBack_move (outside value) this h = Ret this2 h2 ∧
    size_ this1 = size_ this2 ∧ capacity_ this1 = capacity_ this2 ∧
    contents h1 this1 = contents h this ++ [value] ∧
    contents h2 this2 = contents h this ++ [value] ∧
    load p h1 = Ret value h1.
Proof.
  intros Hok Hroom. destruct (vec_ok_bounds _ _ Hok) as [Hsz Hcap].
  destruct (PushBack_returns value this h PushBack_move Hok Hroom)
    as (this2 & h2 & Hpush & _ & Hs2 & Hcont2 & _ & Hsame & Hgrow & _); [by right|].
  assert (Hend : end_ this = ptr_add (begin_ this) (size_ this)) by done.
  assert (Hdrop : drop (N.to_nat (size_ this)) (contents h this) = []).
  { apply drop_ge. rewrite contents_length by done. lia. }
  assert (Htake : take (N.to_nat (size_ this)) (contents h this) = contents h this).
  { apply take_ge. rewrite contents_length by done. lia. }
  rewrite Hend.
  destruct (N.ltb_spec (size_ this) (capacity_ this)) as [Hlt|Hge].
  - destruct (Insert_move_in_place (size_ this) value this h Hok) as (h1 & Heq & Hcont & Hload);
      [lia|done|].
    destruct (Hsame Hlt) as [Hc2 _].
    eexists _, _, h1, this2, h2. split; [exact Heq|]. split; [exact Hpush|].
    rewrite Hcont, Hdrop, Htake, Hs2, Hc2. split_and!; done.
  - assert (Hfull : size_ this = capacity_ this) by lia.
    destruct Hroom as [?|Hmax]; [lia|].
    destruct (Hgrow ltac:(lia)) as [Hc2 _].
    destruct (N.eq_dec (capacity_ this) 0) as [H0|H0].
    + destruct (Insert_move_empty value this h Hok H0) as (l & h1 & Heq & Hl & Hl'); [lia|].
      assert (Hbegin : ptr_add (begin_ this) (size_ this) = begin_ this).
      { rewrite Hfull, H0. by apply begin_add_0 with (h := h). }
      rewrite Hbegin.
      eexists _, _, h1, this2, h2. split; [exact Heq|]. split; [exact Hpush|].
      assert (Hnil : contents h this = []).
      { apply length_zero_iff_nil. rewrite contents_length by done. lia. }
      rewrite Hs2, Hc2, Hcont2, Hnil, Hfull, H0. split_and!; try done.
      * unfold contents, block_of. simpl. by rewrite Hl'.
      * by erewrite load_at.
    + destruct (Insert_move_full (size_ this) value this h Hok)
        as (l & h1 & Heq & Hl & Hcont & Hload); [lia|done|done|by rewrite Hfull|].
      eexists _, _, h1, this2, h2. split; [exact Heq|]. split; [exact Hpush|].
      rewrite Hs2, Hc2, Hcont2. split_and!; try done; [simpl; lia|].
      unfold contents at 1, block_of. cbn [items_ raw_ptr_ size_].
      by rewrite Hcont, Hdrop, Htake.
Qed.

(** ** Comparing two vectors *)

Lemma range_len_begin_end h this :
  vec_ok h this → range_len (begin_ this) (end_ this) h = Ret (N.to_nat (size_ this)) h.
Proof.
  intros Hok. unfold begin_, end_, Get.
  destruct (vec_ok_cases _ _ Hok) as [(-> & _ & -> & _)|(l & b & -> & _)].
  - apply range_len_null.
  - rewrite ptr_add_at, range_len_at by lia. f_equal. lia.
Qed.

Lemma equal_loop_at n l1 i l2 j h b1 b2 :
  h !! l1 = Some b1 → h !! l2 = Some b2 →
  (i + n ≤ length b1)%nat → (j + n ≤ length b2)%nat →
  ∃ r, equal_loop n (at_ l1 i) (at_ l2 j) h = Ret r h ∧
       (r = true ↔ Forall2 (λ x y, Type_eqb x y = true)
                     (take n (drop i b1)) (take n (drop j b2))).
Proof.
  intros H1 H2. revert i j. induction n as [|n IH]; intros i j Hi Hj; cbn [equal_loop].
  { exists true. split; [done|]. split; [intros _; constructor | done]. }
  destruct (lookup_lt_is_Some_2 b1 i) as [x Hx]; [lia|].
  destruct (lookup_lt_is_Some_2 b2 j) as [y Hy]; [lia|].
  unfold bind. rewrite (load_at _ _ _ b1 x), (load_at _ _ _ b2 y) by done.
  rewrite !ptr_add_1.
  rewrite (drop_S b1 x i), (drop_S b2 y j) by done. cbn [take].
  destruct (Type_eqb x y) eqn:Hxy.
  - destruct (IH (S i) (S j)) as (r & -> & Hr); [lia..|].
    exists r. split; [done|]. rewrite Hr. split.
    + intros HF. by constructor.
    + intros HF. by inversion HF.
  - exists false. split; [done|]. split; [done|].
    intros HF. inversion HF; subst. congruence.
Qed.

Lemma SimpleVector_eq_at lhs rhs h :
  vec_ok h lhs → vec_ok h rhs →
  ∃ r, SimpleVector_eq false lhs rhs h = Ret r h ∧
       (r = true ↔ Forall2 (λ x y, Type_eqb x y = true) (contents h lhs) (contents h rhs)).
Proof.
  intros Hl Hr. unfold SimpleVector_eq, GetSize.
  destruct (N.eqb_spec (size_ lhs) (size_ rhs)) as [Hs|Hs].
  2:{ exists false. split; [done|]. split; [done|]. intros HF%Forall2_length.
      rewrite !contents_length in HF by done. lia. }
  unfold std_equal, bind. rewrite range_len_begin_end by done.
  destruct (N.eq_dec (size_ lhs) 0) as [H0|H0].
  { rewrite H0. exists true. split; [done|]. split; [|done]. intros _.
    unfold contents. rewrite <- Hs, H0. constructor. }
  destruct (vec_ok_nonempty _ _ Hl H0) as (l1 & b1 & Hraw1 & Hb1 & Hblock1 & Hlen1).
  destruct (vec_ok_nonempty _ _ Hr) as (l2 & b2 & Hraw2 & Hb2 & Hblock2 & Hlen2); [lia|].
  destruct (vec_ok_bounds _ _ Hl), (vec_ok_bounds _ _ Hr).
  unfold begin_, Get. rewrite Hraw1, Hraw2.
  destruct (equal_loop_at (N.to_nat (size_ lhs)) l1 0 l2 0 h b1 b2) as (r & Heq & Hiff);
    [done|done|lia|lia|].
  exists r. split; [done|]. rewrite Hiff. unfold contents.
  by rewrite Hblock1, Hblock2, <- Hs.
Qed.

(** X19: [operator==] compares the live elements and nothing else.  It
    returns without touching the heap; for two different objects the
    result is [true] exactly when the sizes agree and the elements are
    pairwise [==]; for an object and itself it is [true].  Capacities
    and the slots past the size play no role.  When the element type's
    [==] is equality, the result says whether the two vectors hold the
    same sequence. *)
Theorem operator_eq_spec (w : world T) a b va vb :
  world_ok w → objects w !! a = Some va → objects w !! b = Some vb →
  ∃ r,
    equal a b w = Ret r w ∧
    (a = b → r = true) ∧
    (a ≠ b →
       (r = true ↔ Forall2 (λ x y, Type_eqb x y = true)
                     (contents (memory w) va) (contents (memory w) vb))) ∧
    ((∀ x y, Type_eqb x y = true ↔ x = y) →
       (r = true ↔ contents (memory w) va = contents (memory w) vb)).
Proof.
  intros [Hvec _] Ha Hb. unfold equal. rewrite Ha, Hb.
  destruct (decide (a = b)) as [->|Hab].
  - rewrite bool_decide_eq_true_2 by done. simpl. unfold ret. rewrite world_eta.
    exists true. split_and!; try done. intros _. split; [|done]. intros _. congruence.
  - rewrite bool_decide_eq_false_2 by done.
    destruct (SimpleVector_eq_at va vb (memory w)) as (r & -> & Hiff); [by eauto..|].
    rewrite world_eta. exists r. split_and!; try done.
    intros Heqb. rewrite Hiff. split.
    + intros HF. apply list_eq_Forall2. eapply Forall2_impl; [|exact HF].
      intros x y. apply Heqb.
    + intros Heq%list_eq_Forall2. eapply Forall2_impl; [|exact Heq].
      intros x y. apply Heqb.
Qed.

(** ** The ordering operators *)

Section Ordering_proofs.
Context `{EO : ElementOrder T}.

Lemma lexicographical_compare_loop_at n1 n2 l1 i l2 j h b1 b2 :
  h !! l1 = Some b1 → h !! l2 = Some b2 →
  (i + n1 ≤ length b1)%nat → (j + n2 ≤ length b2)%nat →
  lexicographical_compare_loop n1 n2 (at_ l1 i) (at_ l2 j) h
  = Ret (lex_lt (take n1 (drop i b1)) (take n2 (drop j b2))) h.
Proof.
  intros H1 H2. revert n2 i j.
  induction n1 as [|n1 IH]; intros n2 i j Hi Hj.
  { destruct n2 as [|n2]; cbn [lexicographical_compare_loop]; [done|].
    destruct (lookup_lt_is_Some_2 b2 j) as [y Hy]; [lia|].
    by rewrite (drop_S b2 y j) by done. }
  destruct n2 as [|n2]; cbn [lexicographical_compare_loop].
  { destruct (lookup_lt_is_Some_2 b1 i) as [x Hx]; [lia|].
    by rewrite (drop_S b1 x i) by done. }
  destruct (lookup_lt_is_Some_2 b1 i) as [x Hx]; [lia|].
  destruct (lookup_lt_is_Some_2 b2 j) as [y Hy]; [lia|].
  unfold bind. rewrite (load_at _ _ _ b1 x), (load_at _ _ _ b2 y) by done.
  rewrite !ptr_add_1.
  rewrite (drop_S b1 x i), (drop_S b2 y j) by done. cbn [take lex_lt].
  destruct (Type_ltb x y); [done|]. destruct (Type_ltb y x); [done|].
  apply IH; lia.
Qed.

Lemma lexicographical_compare_loop_0_l n2 p1 p2 h :
  lexicographical_compare_loop 0 n2 p1 p2 h
  = Ret (match n2 with O => false | S _ => true end) h.
Proof. by destruct n2. Qed.

Lemma lexicographical_compare_loop_0_r n1 p1 p2 h :
  lexicographical_compare_loop n1 0 p1 p2 h = Ret false h.
Proof. by destruct n1. Qed.

Lemma lex_lt_nil_r (xs : list T) : lex_lt xs [] = false.
Proof. by destruct xs. Qed.

Lemma SimpleVector_lt_at lhs rhs h :
  vec_ok h lhs → vec_ok h rhs →
  SimpleVector_lt lhs rhs h = Ret (lex_lt (contents h lhs) (contents h rhs)) h.
Proof.
  intros Hl Hr. unfold SimpleVector_lt, std_lexicographical_compare, bind.
  rewrite !range_len_begin_end by done.
  destruct (vec_ok_bounds _ _ Hl), (vec_ok_bounds _ _ Hr).
  destruct (N.eq_dec (size_ rhs) 0) as [Hr0|Hr0].
  { rewrite Hr0, lexicographical_compare_loop_0_r.
    unfold contents at 2. rewrite Hr0. simpl. by rewrite lex_lt_nil_r. }
  destruct (vec_ok_nonempty _ _ Hr Hr0) as (l2 & b2 & Hraw2 & Hb2 & Hblock2 & Hlen2).
  destruct (N.eq_dec (size_ lhs) 0) as [Hl0|Hl0].
  { rewrite Hl0, lexicographical_compare_loop_0_l.
    unfold contents. rewrite Hl0, Hblock2. simpl.
    destruct (N.to_nat (size_ rhs)) as [|n] eqn:Hn; [lia|].
    destruct b2 as [|y b2]; [simpl in Hlen2; lia|done]. }
  destruct (vec_ok_nonempty _ _ Hl Hl0) as (l1 & b1 & Hraw1 & Hb1 & Hblock1 & Hlen1).
  unfold begin_, Get. rewrite Hraw1, Hraw2.
  rewrite (lexicographical_compare_loop_at _ _ l1 0 l2 0 h b1 b2) by (done || lia).
  unfold contents. by rewrite Hblock1, Hblock2.
Qed.

Lemma ordering_from_lexicographical_compare lhs rhs h :
  vec_ok h lhs → vec_ok h rhs →
  SimpleVector_lt lhs rhs h = Ret (lex_lt (contents h lhs) (contents h rhs)) h ∧
  SimpleVector_gt lhs rhs h = Ret (lex_lt (contents h rhs) (contents h lhs)) h ∧
  SimpleVector_le lhs rhs h = Ret (negb (lex_lt (contents h rhs) (contents h lhs))) h ∧
  SimpleVector_ge lhs rhs h = Ret (negb (lex_lt (contents h lhs) (contents h rhs))) h.
Proof.
  intros Hl Hr. unfold SimpleVector_gt, SimpleVector_le, SimpleVector_ge, bind.
  by rewrite !SimpleVector_lt_at by done.
Qed.

(** X20: [operator<] is the lexicographic order on the live elements.  It
    returns without touching the heap, and its result is that of
    comparing the two sequences of live elements, element by element,
    with [Type]'s [<], a proper prefix coming first; so [a > b] is
    [b < a], and [a <= b], [a >= b] are the negations of [b < a],
    [a < b]. *)
Theorem operator_lt_spec lhs rhs h :
  vec_ok h lhs → vec_ok h rhs →
  SimpleVector_lt lhs rhs h = Ret (lex_lt (contents h lhs) (contents h rhs)) h ∧
  SimpleVector_gt lhs rhs h = Ret (lex_lt (contents h rhs) (contents h lhs)) h ∧
  SimpleVector_le lhs rhs h = Ret (negb (lex_lt (contents h rhs) (contents h lhs))) h ∧
  SimpleVector_ge lhs rhs h = Ret (negb (lex_lt (contents h lhs) (contents h rhs))) h.
Proof. apply ordering_from_lexicographical_compare. Qed.

Lemma lex_lt_trichotomy (xs ys : list T) :
  (∀ x y, Type_ltb x y = true → Type_ltb y x = false) →
  (∀ x y, Type_ltb x y = false → Type_ltb y x = false → x = y) →
  (lex_lt xs ys = true ∧ lex_lt ys xs = false ∧ xs ≠ ys) ∨
  (lex_lt xs ys = false ∧ lex_lt ys xs = true ∧ xs ≠ ys) ∨
  (lex_lt xs ys = false ∧ lex_lt ys xs = false ∧ xs = ys).
Proof.
  intros Hasym Htotal. revert ys. induction xs as [|x xs IH]; intros [|y ys]; simpl.
  - by right; right.
  - by left.
  - by right; left.
  - destruct (Type_ltb x y) eqn:Hxy.
    { rewrite (Hasym _ _ Hxy). left. split_and!; try done.
      intros [= -> _]. rewrite (Hasym _ _ Hxy) in Hxy. done. }
    destruct (Type_ltb y x) eqn:Hyx.
    { right; left. split_and!; try done. intros [= -> _]. congruence. }
    rewrite (Htotal x y Hxy Hyx).
    destruct (IH ys) as [(-> & -> & Hne)|[(-> & -> & Hne)|(-> & -> & ->)]].
    + left. split_and!; try done. by intros [= ->].
    + right; left. split_and!; try done. by intros [= ->].
    + by right; right.
Qed.

(** X21: the six comparison operators agree with one another when
    [Type]'s [<] is a strict total order and its [==] is equality.  Of
    [a < b], [a == b], [a > b] exactly one is true; [a <= b] is
    [a < b || a == b], [a >= b] is [a > b || a == b], and [a != b] is the
    negation of [a == b]. *)
Theorem ordering_operators_consistent same_object lhs rhs h :
  (∀ x y, Type_eqb x y = true ↔ x = y) →
  (∀ x y, Type_ltb x y = true → Type_ltb y x = false) →
  (∀ x y, Type_ltb x y = false → Type_ltb y x = false → x = y) →
  vec_ok h lhs → vec_ok h rhs → (same_object = true → lhs = rhs) →
  ∃ lt eq gt,
    SimpleVector_lt lhs rhs h = Ret lt h ∧
    SimpleVector_eq same_object lhs rhs h = Ret eq h ∧
    SimpleVector_gt lhs rhs h = Ret gt h ∧
    SimpleVector_le lhs rhs h = Ret (lt || eq) h ∧
    SimpleVector_ge lhs rhs h = Ret (gt || eq) h ∧
    SimpleVector_ne same_object lhs rhs h = Ret (negb eq) h ∧
    ((lt = true ∧ eq = false ∧ gt = false) ∨
     (lt = false ∧ eq = true ∧ gt = false) ∨
     (lt = false ∧ eq = false ∧ gt = true)).
Proof.
  intros Heqb Hasym Htotal Hl Hr Hsame.
  destruct (ordering_from_lexicographical_compare lhs rhs h Hl Hr) as (Hlt & Hgt & Hle & Hge).
  assert (Heq : ∃ eq, SimpleVector_eq same_object lhs rhs h = Ret eq h ∧
                      (eq = true ↔ contents h lhs = contents h rhs)).
  { destruct same_object.
    - exists true. split; [done|]. split; [|done]. intros _. by rewrite Hsame.
    - destruct (SimpleVector_eq_at lhs rhs h Hl Hr) as (r & Hr' & Hiff).
      exists r. split; [done|]. rewrite Hiff. split.
      + intros HF. apply list_eq_Forall2. eapply Forall2_impl; [|exact HF].
        intros x y. apply Heqb.
      + intros Heq%list_eq_Forall2. eapply Forall2_impl; [|exact Heq].
        intros x y. apply Heqb. }
  destruct Heq as (eq & Heq & Hiff).
  exists (lex_lt (contents h lhs) (contents h rhs)), eq,
         (lex_lt (contents h rhs) (contents h lhs)).
  unfold SimpleVector_ne, bind. rewrite Heq, Hle, Hge, Hlt, Hgt.
  destruct (lex_lt_trichotomy (contents h lhs) (contents h rhs) Hasym Htotal)
    as [(-> & -> & Hne)|[(-> & -> & Hne)|(-> & -> & Hsame')]].
  - assert (eq = false) as -> by (destruct eq; [by destruct Hne; apply Hiff|done]).
    split_and!; try done. by left.
  - assert (eq = false) as -> by (destruct eq; [by destruct Hne; apply Hiff|done]).
    split_and!; try done. by right; right.
  - assert (eq = true) as -> by (by apply Hiff).
    split_and!; try done. by right; left.
Qed.

End Ordering_proofs.

(** ** [ArrayPtr]: who owns the block *)

(** X22: [ArrayPtr(size)] and its destructor.  For [size == 0] the handle
    is null and nothing is allocated; otherwise it points at the start
    of a fresh block of exactly [size] elements; an array longer than the
    build allows throws [std::bad_alloc] and changes nothing.  Destroying
    the handle gives the heap back as it was. *)
Theorem ArrayPtr_new_destroy_round_trip n h :
  (n ≤ max_array_len →
     ∃ a h',
       ArrayPtr_new n h = Ret a h' ∧
       ArrayPtr_destroy a h' = Ret tt h ∧
       (n = 0 → a = ArrayPtr_default ∧ h' = h ∧ ArrayPtr_bool a = false) ∧
       (n ≠ 0 → ∃ l, raw_ptr_ a = at_ l 0 ∧ h !! l = None ∧
                     h' = <[l := replicate (N.to_nat n) new_elem]> h ∧
                     ArrayPtr_bool a = true)) ∧
  (max_array_len < n → ArrayPtr_new n h = Throw bad_alloc h).
Proof.
  split; [|apply ArrayPtr_new_bad_alloc].
  intros Hmax. destruct (N.eq_dec n 0) as [->|Hne].
  - exists ArrayPtr_default, h. rewrite ArrayPtr_new_0. split_and!; done.
  - destruct (ArrayPtr_new_ok n h Hne Hmax) as (l & Hl & Hnew).
    eexists _, _. split; [exact Hnew|]. split; [|split; [done|]].
    + unfold ArrayPtr_destroy. cbn [raw_ptr_].
      erewrite delete_array_at by apply lookup_insert_eq.
      by rewrite delete_insert_id.
    + intros _. exists l. split_and!; done.
Qed.

(** X23: [ArrayPtr(ArrayPtr&&)] copies the pointer and leaves it in the
    source as well.  After move-constructing from a handle that owns a
    block, both handles point at it, and destroying both is a second
    [delete[]] of a freed block: undefined behaviour. *)
Theorem ArrayPtr_move_shares_block other h l b :
  raw_ptr_ other = at_ l 0 → h !! l = Some b →
  ∃ this other',
    ArrayPtr_move other = (this, other') ∧
    raw_ptr_ this = at_ l 0 ∧ raw_ptr_ other' = at_ l 0 ∧
    (ArrayPtr_destroy this ;;; ArrayPtr_destroy other') h = Undefined.
Proof.
  intros Hraw Hl. eexists _, _. split; [done|]. cbn [raw_ptr_].
  split; [done|]. split; [done|].
  unfold ArrayPtr_destroy, bind. cbn [raw_ptr_]. rewrite Hraw.
  rewrite (delete_array_at _ _ b) by done.
  unfold delete_array. by rewrite lookup_delete_eq.
Qed.

(** X24: move assignment of [ArrayPtr] hands the block over.  Between two
    handles that own different blocks, [this = std::move(other)] frees
    the block [this] had, gives it the block of [other], and leaves
    [other] null; destroying both afterwards frees the block exactly
    once. *)
Theorem ArrayPtr_move_assign_spec this other h l1 b1 l2 b2 :
  raw_ptr_ this = at_ l1 0 → raw_ptr_ other = at_ l2 0 → l1 ≠ l2 →
  h !! l1 = Some b1 → h !! l2 = Some b2 →
  ∃ this' other',
    ArrayPtr_move_assign this other h = Ret (this', other') (delete l1 h) ∧
    raw_ptr_ this' = at_ l2 0 ∧ raw_ptr_ other' = nullptr ∧
    ArrayPtr_bool this' = true ∧ ArrayPtr_bool other' = false ∧
    (ArrayPtr_destroy this' ;;; ArrayPtr_destroy other') (delete l1 h)
    = Ret tt (delete l2 (delete l1 h)).
Proof.
  intros Hthis Hother Hne H1 H2. eexists _, _.
  unfold ArrayPtr_move_assign, bind. rewrite Hthis, Hother.
  rewrite (delete_array_at _ _ b1) by done. split; [done|]. cbn [raw_ptr_].
  split_and!; try done.
  unfold ArrayPtr_destroy. cbn [raw_ptr_].
  by rewrite (delete_array_at _ _ b2) by (by rewrite lookup_delete_ne).
Qed.

(** X25: [Release] gives up ownership without freeing.  The handle
    returns its pointer and becomes null, so its destructor leaves the
    block alive; a handle constructed from the returned pointer owns the
    block, and its destructor frees it. *)
Theorem Release_hands_over this h l b :
  raw_ptr_ this = at_ l 0 → h !! l = Some b →
  ∃ p this',
    Release this = (p, this') ∧ p = at_ l 0 ∧
    ArrayPtr_bool this' = false ∧
    ArrayPtr_destroy this' h = Ret tt h ∧
    Get (ArrayPtr_adopt p) = at_ l 0 ∧
    (ArrayPtr_destroy this' ;;; ArrayPtr_destroy (ArrayPtr_adopt p)) h
    = Ret tt (delete l h).
Proof.
  intros Hraw Hl. eexists _, _. split; [done|]. rewrite Hraw.
  split_and!; try done.
  unfold ArrayPtr_destroy, ArrayPtr_adopt, bind. cbn [raw_ptr_]. simpl.
  by rewrite Hl.
Qed.

(** ** The observers *)

Lemma load_contents h this i x :
  vec_ok h this → contents h this !! i = Some x →
  load (ptr_add (begin_ this) (N.of_nat i)) h = Ret x h ∧
  load (index this (N.of_nat i)) h = Ret x h.
Proof.
  intros Hok Hi. destruct (vec_ok_bounds _ _ Hok) as [Hsz Hcap].
  pose proof (contents_length h this Hok) as Hlen.
  pose proof (lookup_lt_Some _ _ _ Hi) as Hlt.
  destruct (vec_ok_nonempty _ _ Hok) as (l & b & Hraw & Hl & Hb & Hlenb); [lia|].
  unfold contents in Hi. rewrite Hb in Hi. apply lookup_take_Some in Hi as [Hi _].
  unfold index, ArrayPtr_index, begin_, Get. rewrite Hraw, ptr_add_at, Nat.add_0_l, Nat2N.id.
  split; by apply (load_at _ _ _ b).
Qed.

(** X26: size, emptiness and the iterators of a well-formed vector.
    [GetSize] is the number of live elements and never exceeds
    [GetCapacity]; [IsEmpty] holds exactly when there is no element;
    [end() - begin()] is the size, and [begin() + i], like [v[i]], reads
    element [i] for every [i] below the size. *)
Theorem observers_spec this h :
  vec_ok h this →
  N.to_nat (GetSize this) = length (contents h this) ∧
  GetSize this ≤ GetCapacity this ∧
  (IsEmpty this = true ↔ contents h this = []) ∧
  range_len (begin_ this) (end_ this) h = Ret (length (contents h this)) h ∧
  (∀ i x, contents h this !! i = Some x →
          load (ptr_add (begin_ this) (N.of_nat i)) h = Ret x h ∧
          load (index this (N.of_nat i)) h = Ret x h).
Proof.
  intros Hok. destruct (vec_ok_bounds _ _ Hok) as [Hsz Hcap].
  pose proof (contents_length h this Hok) as Hlen.
  unfold GetSize, GetCapacity, IsEmpty. split_and!; try done.
  - rewrite N.eqb_eq. split.
    + intros H0. apply length_zero_iff_nil. lia.
    + intros Hnil. rewrite Hnil in Hlen. simpl in Hlen. lia.
  - rewrite Hlen. by apply range_len_begin_end.
  - intros i x Hi. by apply load_contents.
Qed.

(** ** The theorems on [Erase], [PopBack] and the constructors *)

(** X6: [Erase] removes the element at [pos] and closes the gap.  For a
    position [begin() + c] below the size the call returns that same
    iterator; the size drops by one, capacity and block stay; the live
    elements are the old ones without element [c], in order; the
    returned iterator reads the element that followed the erased one;
    no other block changes. *)
Theorem Erase_spec c this h :
  vec_ok h this → c < size_ this →
  ∃ h',
    Erase (ptr_add (begin_ this) c) this h
    = Ret (ptr_add (begin_ this) c, set_size (size_ this - 1) this) h' ∧
    vec_ok h' (set_size (size_ this - 1) this) ∧
    contents h' (set_size (size_ this - 1) this) = delete (N.to_nat c) (contents h this) ∧
    (∀ x, contents h this !! S (N.to_nat c) = Some x →
          load (ptr_add (begin_ this) c) h' = Ret x h') ∧
    (∀ l, l ∉ locs (raw_ptr_ (items_ this)) → h' !! l = h !! l).
Proof.
  intros Hok Hc. destruct (Erase_returns c this h Hok Hc) as (h' & Heq & Hok' & Hcont & Hframe).
  exists h'. split_and!; try done.
  intros x Hx.
  destruct (load_contents h' (set_size (size_ this - 1) this) (N.to_nat c) x Hok') as [Hload _].
  - rewrite Hcont. by rewrite list_lookup_delete_ge.
  - by rewrite N2Nat.id in Hload.
Qed.

(** X8: [PopBack].  On a non-empty vector it returns with the size one
    less, the same capacity and block, the heap untouched: the live
    elements are the old ones without the last.  On an empty vector it
    aborts on its assertion; in a build without assertions it returns
    with the size wrapped around to [2^64 - 1]. *)
Theorem PopBack_spec this h :
  vec_ok h this →
  (size_ this ≠ 0 →
     PopBack this h = Ret (set_size (size_ this - 1) this) h ∧
     vec_ok h (set_size (size_ this - 1) this) ∧
     ∃ x, contents h this = contents h (set_size (size_ this - 1) this) ++ [x]) ∧
  (size_ this = 0 →
     PopBack this h = if NDEBUG then Ret (set_size (2 ^ 64 - 1) this) h else Abort).
Proof.
  intros Hok. split; [by apply PopBack_returns | apply PopBack_empty].
Qed.

(** X15: [SimpleVector(size, value)] and [SimpleVector(size)].  The new
    vector has [size] elements, all [value] (all [Type()] for the
    one-argument form), and a capacity of exactly [size]; every block
    that was live stays as it was; for [size == 0] nothing is allocated.
    A size beyond what [new[]] can deliver throws [std::bad_alloc] and
    changes nothing. *)
Theorem SimpleVector_size_value_spec size value h :
  (size ≤ max_array_len →
     ∃ this h',
       SimpleVector_size_value size value h = Ret this h' ∧
       vec_ok h' this ∧ size_ this = size ∧ capacity_ this = size ∧
       contents h' this = replicate (N.to_nat size) value ∧
       (∀ l b, h !! l = Some b → h' !! l = Some b) ∧
       (size = 0 → this = SimpleVector_default ∧ h' = h)) ∧
  (size ≤ max_array_len →
     ∃ this h',
       SimpleVector_size size h = Ret this h' ∧
       size_ this = size ∧ capacity_ this = size ∧
       contents h' this = replicate (N.to_nat size) Type_default) ∧
  (max_array_len < size →
     SimpleVector_size_value size value h = Throw bad_alloc h ∧
     SimpleVector_size size h = Throw bad_alloc h).
Proof.
  split_and!.
  - apply SimpleVector_size_value_returns.
  - intros Hmax.
    destruct (SimpleVector_size_value_returns size Type_default h Hmax)
      as (this & h' & Heq & _ & Hs & Hc & Hcont & _).
    by exists this, h'.
  - intros Hmax. unfold SimpleVector_size, SimpleVector_size_value, bind.
    by rewrite ArrayPtr_new_bad_alloc.
Qed.

(** X16: [SimpleVector(std::initializer_list)].  The new vector holds
    the elements of the list, in order, with size and capacity the
    length of the list; every block that was live stays as it was; an
    empty list allocates nothing.  A list longer than [new[]] can
    deliver throws [std::bad_alloc] and changes nothing. *)
Theorem SimpleVector_init_spec init h :
  (N.of_nat (length init) ≤ max_array_len →
     ∃ this h',
       SimpleVector_init init h = Ret this h' ∧
       vec_ok h' this ∧
       size_ this = N.of_nat (length init) ∧ capacity_ this = N.of_nat (length init) ∧
       contents h' this = init ∧
       (∀ l b, h !! l = Some b → h' !! l = Some b) ∧
       (init = [] → this = SimpleVector_default ∧ h' = h)) ∧
  (max_array_len < N.of_nat (length init) →
     SimpleVector_init init h = Throw bad_alloc h).
Proof.
  split; [apply SimpleVector_init_returns|].
  intros Hmax. unfold SimpleVector_init, bind. by rewrite ArrayPtr_new_bad_alloc.
Qed.

(** X17: [SimpleVector<T> v(Reserve(n))].  The free function [Reserve]
    wraps [n] in a proxy, and the constructor taking the proxy gives an
    empty vector of capacity exactly [n]: pushing back up to [n]
    elements then fills that block without another allocation.  A
    capacity beyond what [new[]] can deliver throws [std::bad_alloc]. *)
Theorem SimpleVector_reserve_spec n h :
  (n ≤ max_array_len →
     ∃ this h',
       SimpleVector_reserve (Reserve_proxy n) h = Ret this h' ∧
       vec_ok h' this ∧ size_ this = 0 ∧ capacity_ this = n ∧
       contents h' this = [] ∧
       (∀ l b, h !! l = Some b → h' !! l = Some b) ∧
       (n = 0 → this = SimpleVector_default ∧ h' = h) ∧
       (∀ items : list T, N.of_nat (length items) ≤ n →
          ∃ this'' h'',
            push_all items this h' = Ret this'' h'' ∧
            items_ this'' = items_ this ∧ capacity_ this'' = n ∧
            contents h'' this'' = items)) ∧
  (max_array_len < n →
     SimpleVector_reserve (Reserve_proxy n) h = Throw bad_alloc h).
Proof.
  split.
  - intros Hmax.
    destruct (SimpleVector_reserve_returns n h Hmax)
      as (this & h' & Heq & Hok & Hs & Hc & Hcont & Hframe & H0).
    exists this, h'. split_and!; try done.
    intros items Hlen.
    destruct (push_all_in_place items this h' Hok)
      as (this'' & h'' & Hpush & _ & Hc'' & Hi'' & _ & Hcont''); [lia|].
    exists this'', h''. split_and!; try done; [congruence|]. by rewrite Hcont'', Hcont.
  - intros Hmax. unfold SimpleVector_reserve, Reserve_proxy, Reserve. simpl.
    rewrite (proj2 (N.ltb_lt 0 n)) by lia. unfold bind.
    by rewrite ArrayPtr_new_bad_alloc.
Qed.

(** ** Growing by [PushBack] *)

Lemma PushBack_doubled item this h this' h' :
  vec_ok h this → doubled this →
  size_ this < capacity_ this ∨
    N.max (capacity_ this + 1) (2 * capacity_ this) ≤ max_array_len →
  PushBack (outside item) this h = Ret this' h' → doubled this'.
Proof.
  intros Hok Hd Hmax Heq. destruct (vec_ok_bounds _ _ Hok) as [Hsz Hcap].
  destruct (PushBack_returns item this h PushBack Hok)
    as (this1 & h1 & Heq1 & _ & Hs & _ & _ & Hsame & Hgrow & _); [done|by left|].
  rewrite Heq in Heq1. injection Heq1 as <- <-. right.
  destruct (N.ltb_spec (size_ this) (capacity_ this)) as [Hlt|Hge].
  - destruct (Hsame Hlt) as [Hc _]. destruct Hd as [[? ?]|(k & Hk & Hlt')]; [lia|].
    exists k. lia.
  - destruct (Hgrow ltac:(lia)) as [Hc _].
    destruct Hd as [[H0 Hc0]|(k & Hk & Hlt')].
    + exists 0. rewrite Hc, Hc0, Hs, H0. simpl. lia.
    + exists (k + 1). rewrite N.pow_add_r, N.pow_1_r.
      assert (2 ^ k ≠ 0) by (by apply N.pow_nonzero). lia.
Qed.

Lemma push_all_doubled items this h :
  vec_ok h this → doubled this →
  2 * (size_ this + N.of_nat (length items)) ≤ max_array_len →
  ∃ this' h',
    push_all items this h = Ret this' h' ∧ vec_ok h' this' ∧ doubled this' ∧
    size_ this' = size_ this + N.of_nat (length items) ∧
    contents h' this' = contents h this ++ items.
Proof.
  revert this h. induction items as [|item items IH]; intros this h Hok Hd Hmax.
  { exists this, h. simpl. rewrite app_nil_r. split_and!; try done. lia. }
  destruct (vec_ok_bounds _ _ Hok) as [Hsz Hcap].
  assert (Hlen : N.of_nat (length (item :: items)) = N.of_nat (length items) + 1)
    by (simpl length; lia).
  rewrite Hlen in Hmax.
  assert (Hroom : size_ this < capacity_ this ∨
                  N.max (capacity_ this + 1) (2 * capacity_ this) ≤ max_array_len).
  { destruct (N.ltb_spec (size_ this) (capacity_ this)); [by left|right; lia]. }
  destruct (PushBack_returns item this h PushBack Hok)
    as (this1 & h1 & Heq1 & Hok1 & Hs1 & Hcont1 & _); [done|by left|].
  pose proof (PushBack_doubled item this h this1 h1 Hok Hd Hroom Heq1) as Hd1.
  destruct (IH this1 h1 Hok1 Hd1) as (this' & h' & Heq & Hok' & Hd' & Hs' & Hcont').
  { rewrite Hs1. lia. }
  exists this', h'. cbn [push_all]. unfold bind. rewrite Heq1.
  split_and!; try done.
  - rewrite Hs', Hs1. lia.
  - rewrite Hcont', Hcont1. by rewrite <- app_assoc.
Qed.

(** X27: filling an empty vector by [PushBack].  Pushing the elements of
    a list, one by one, into a default-constructed vector gives a vector
    that holds exactly the list, in order, and whose capacity is the
    least power of two that is not below the number of elements: the
    capacity doubles, from 1, each time the vector is full. *)
Theorem push_all_from_empty items h :
  2 * N.of_nat (length items) ≤ max_array_len →
  ∃ this' h',
    push_all items SimpleVector_default h = Ret this' h' ∧
    vec_ok h' this' ∧
    contents h' this' = items ∧
    size_ this' = N.of_nat (length items) ∧
    capacity_ this'
    = (if decide (items = []) then 0 else 2 ^ N.log2_up (N.of_nat (length items))).
Proof.
  intros Hmax.
  destruct (push_all_doubled items SimpleVector_default h (vec_ok_default h))
    as (this' & h' & Heq & Hok & Hd & Hs & Hcont); [by left|simpl; lia|].
  exists this', h'. simpl in Hs. split_and!; try done.
  destruct (vec_ok_bounds _ _ Hok) as [Hsz _].
  set (n := N.of_nat (length items)) in *.
  case_decide as Hnil.
  - subst items. simpl in n. destruct Hd as [[_ ?]|(k & Hk & Hlt)]; [done|lia].
  - assert (Hn : 0 < n).
    { subst n. destruct items; [done|simpl; lia]. }
    destruct Hd as [[? ?]|(k & Hk & Hlt)]; [lia|]. rewrite Hk. f_equal.
    assert (Hle : N.log2_up n ≤ k) by (apply N.log2_up_le_pow2; [done|lia]).
    destruct (N.eq_dec k 0) as [->|Hk0]; [lia|].
    assert (Hlt' : 2 ^ (k - 1) < n).
    { assert (Hpow : 2 ^ k = 2 ^ (k - 1) * 2).
      { rewrite <- (N.pow_1_r 2) at 3. rewrite <- N.pow_add_r. f_equal. lia. }
      lia. }
    apply N.log2_up_lt_pow2 in Hlt'; [lia|done].
Qed.

(** ** [Insert] and [Erase] at and beyond the bounds *)

Lemma range_len_negative l i j h :
  (j < i)%nat → range_len (T := T) (at_ l i) (at_ l j) h = Undefined.
Proof.
  intros Hlt. unfold range_len, ptr_diff. rewrite decide_True by done.
  destruct (Z.ltb_spec (Z.of_nat j - Z.of_nat i) 0); [done|lia].
Qed.

Lemma Erase_past_end c this h :
  vec_ok h this → size_ this < c → c < 2 ^ 63 →
  Erase (ptr_add (begin_ this) c) this h = Undefined.
Proof.
  intros Hok Hc Hc'. destruct (vec_ok_bounds _ _ Hok) as [Hsz Hcap].
  unfold Erase, begin_, end_, Get.
  destruct (vec_ok_cases _ _ Hok) as [(Hraw & _ & Hs0 & _)|(l & b & Hraw & Hl & _)];
    rewrite Hraw.
  - rewrite Hs0. simpl. rewrite (proj2 (N.eqb_neq c 0)) by lia.
    unfold assert_, bind. by destruct NDEBUG.
  - rewrite !ptr_add_at, !Nat.add_0_l.
    unfold bind at 1. rewrite assert_true.
    2:{ unfold ret. f_equal. apply bool_decide_eq_true_2. intros [= Heq]. lia. }
    unfold bind at 1. rewrite assert_true
      by (rewrite ptr_le_at; by rewrite bool_decide_eq_true_2 by lia).
    unfold bind at 1. rewrite ptr_sub_at by lia.
    rewrite Nat.sub_0_r, N2Nat.id, !ptr_add_at, !Nat.add_0_l.
    unfold std_move, bind. by rewrite range_len_negative by lia.
Qed.

(** X7: [Erase] at or behind [end()] never returns.  On every
    well-formed vector, empty or not, [Erase(end())] aborts on
    [assert(pos != end())] in a build with assertions, and without them
    runs [std::move] on a range whose start lies behind its end:
    undefined behaviour.  Behind [end()] neither assertion fires, and the
    call is undefined in every build. *)
Theorem Erase_end_never_returns this h :
  vec_ok h this →
  Erase (end_ this) this h = (if NDEBUG then Undefined else Abort) ∧
  (∀ c, size_ this < c → c < 2 ^ 63 →
        Erase (ptr_add (begin_ this) c) this h = Undefined).
Proof.
  intros Hok. split; [by apply Erase_at_end|]. intros c. by apply Erase_past_end.
Qed.

Lemma std_move_backward_negative l i j d h :
  (j < i)%nat → std_move_backward (T := T) (at_ l i) (at_ l j) d h = Undefined.
Proof. intros Hlt. unfold std_move_backward, bind. by rewrite range_len_negative. Qed.

(** X29: [Insert] behind [end()] never returns.  For a position
    [begin() + c] with [c] above the size, a build with assertions stops
    at [assert(pos <= end())]; without assertions the call runs
    [std::move_backward] on a range whose start lies behind its end, or
    stores behind the one element it allocated: it ends in undefined
    behaviour, or in [std::bad_alloc] before anything was written. *)
Theorem Insert_move_past_end_never_returns c value this h r h' :
  vec_ok h this → size_ this < c → c < 2 ^ 63 →
  Insert_move (ptr_add (begin_ this) c) value this h ≠ Ret r h'.
Proof.
  intros Hok Hc Hc'. destruct (vec_ok_bounds _ _ Hok) as [Hsz Hcap].
  unfold Insert_move, begin_, end_, Get, ArrayPtr_index.
  destruct (vec_ok_cases _ _ Hok) as [(Hraw & _ & Hs0 & _)|(l & b & Hraw & Hl & _ & Hlen)];
    rewrite Hraw.
  { rewrite Hs0. simpl. rewrite (proj2 (N.eqb_neq c 0)) by lia.
    unfold assert_, bind. by destruct NDEBUG. }
  rewrite !ptr_add_at, !Nat.add_0_l. unfold assert_. destruct NDEBUG.
  2:{ unfold bind. rewrite ptr_le_at, bool_decide_eq_true_2 by lia.
      by rewrite ptr_le_at, bool_decide_eq_false_2 by lia. }
  unfold bind at 1. unfold ret at 1.
  unfold bind at 1. rewrite ptr_sub_at by lia.
  rewrite Nat.sub_0_r, N2Nat.id. cbv zeta.
  destruct (N.eqb_spec (capacity_ this) 0) as [H0|H0].
  { unfold bind at 1. unfold bind at 1.
    destruct (ArrayPtr_new 1 h) as [temp h1|e h1| |] eqn:Hnew; try done.
    destruct (ArrayPtr_new_Ret _ _ _ _ Hnew) as [(? & _)|(lt & _ & _ & Hlt & -> & ->)]; [done|].
    cbn [raw_ptr_]. rewrite ptr_add_at, Nat.add_0_l.
    unfold bind, store. rewrite lookup_insert_eq. simpl length.
    rewrite decide_False by lia. done. }
  destruct (N.ltb_spec (size_ this) (capacity_ this)) as [Hlt|Hge].
  - rewrite !ptr_add_at, !Nat.add_0_l.
    unfold bind. by rewrite std_move_backward_negative by lia.
  - unfold bind at 1. unfold bind at 1.
    destruct (ArrayPtr_new _ h) as [temp h1|e h1| |] eqn:Hnew; try done.
    unfold bind at 1.
    match goal with |- context [std_move ?a ?b ?d h1] =>
      destruct (std_move a b d h1) as [[] h2|e h2| |] eqn:Hmove end; try done.
    rewrite !ptr_add_at, !Nat.add_0_l.
    unfold bind. by rewrite std_move_backward_negative by lia.
Qed.

Lemma Insert_move_capacity_full c value this h p this' h' :
  vec_ok h this → c ≤ size_ this → size_ this = capacity_ this →
  N.max (size_ this + 1) (2 * capacity_ this) ≤ max_array_len →
  Insert_move (ptr_add (begin_ this) c) value this h = Ret (p, this') h' →
  capacity_ this' = if capacity_ this =? 0 then 1 else 2 * capacity_ this.
Proof.
  intros Hok Hc Hfull Hmax Heq. destruct (vec_ok_bounds _ _ Hok) as [Hsz Hcap].
  destruct (N.eqb_spec (capacity_ this) 0) as [H0|H0].
  - assert (Hc0 : c = 0) by lia. subst c.
    rewrite (begin_add_0 h) in Heq by done.
    destruct (Insert_move_empty value this h Hok H0) as (l & h1 & Heq1 & _); [lia|].
    rewrite Heq1 in Heq. by injection Heq as _ <- _.
  - destruct (Insert_move_full c value this h Hok Hc Hfull H0 Hmax) as (l & h1 & Heq1 & _).
    rewrite Heq1 in Heq. injection Heq as _ <- _. simpl. lia.
Qed.

(** X28: how [Insert] grows the capacity.  With room to spare the
    capacity and the block stay.  On a full vector the capacity doubles,
    and for a vector of capacity 0 it becomes 1: the rule the comment
    above [Insert] asks for. *)
Theorem Insert_move_capacity_rule c value this h :
  vec_ok h this → c ≤ size_ this →
  size_ this < capacity_ this ∨
    N.max (size_ this + 1) (2 * capacity_ this) ≤ max_array_len →
  ∃ p this' h',
    Insert_move (ptr_add (begin_ this) c) value this h = Ret (p, this') h' ∧
    vec_ok h' this' ∧
    size_ this' = size_ this + 1 ∧
    capacity_ this'
    = (if size_ this <? capacity_ this then capacity_ this
       else if capacity_ this =? 0 then 1 else 2 * capacity_ this) ∧
    (size_ this < capacity_ this → items_ this' = items_ this).
Proof.
  intros Hok Hc Hroom. destruct (vec_ok_bounds _ _ Hok) as [Hsz Hcap].
  destruct (Insert_move_inserts c value this h Hok Hc Hroom)
    as (p & this' & h' & Heq & Hs & _).
  pose proof (Insert_move_vec_ok _ _ _ _ _ _ _ Hok Heq) as Hok'.
  exists p, this', h'. split; [exact Heq|]. split; [exact Hok'|]. split; [exact Hs|].
  destruct (N.ltb_spec (size_ this) (capacity_ this)) as [Hlt|Hge].
  - destruct (Insert_move_in_place c value this h Hok Hc Hlt) as (h1 & Heq1 & _).
    rewrite Heq1 in Heq. injection Heq as _ <- _. by split.
  - split; [|lia]. destruct Hroom as [?|Hmax]; [lia|].
    apply (Insert_move_capacity_full c value this h p this' h' Hok Hc ltac:(lia) Hmax Heq).
Qed.

End Proofs.

(** * Examples: the calls that do not do what is expected of them *)

(** C1, where the code departs from it.  A vector of size 1 and capacity 4
    with the block [7, 5, 5, 5] is resized to 2: the size stays 1, and
    slots 1 and 2 are overwritten with [Type()], not just slot 1. *)
Theorem Resize_grow_within_capacity_example :
  grow_within_capacity ∅
  = Ret {| items_ := {| raw_ptr_ := at_ 1 0 |}; capacity_ := 4; size_ := 1 |}
        {[ 1%positive := [7; 0; 0; 5]%Z ]}.
Proof. reflexivity. Qed.

(** C2, where the code departs from it.  Shrinking [{1, 2, 3, 4}] to size 1
    overwrites the stored element in slot 1 with [Type()], and shrinking
    [{1, 2, 3}] to size 2 fills slots 2 and 3 of a block that has three:
    a write past the allocated capacity. *)
Theorem Resize_shrink_example :
  shrink_with_room ∅
  = Ret {| items_ := {| raw_ptr_ := at_ 1 0 |}; capacity_ := 4; size_ := 1 |}
        {[ 1%positive := [1; 0; 3; 4]%Z ]} ∧
  shrink_without_room ∅ = Undefined.
Proof. split; reflexivity. Qed.

(** C3, where the code departs from it: an element of the vector itself
    as the argument.  On a full vector [v.PushBack(v[0])] reads its
    argument after [Resize] has released the block the argument is in,
    in the copy and in the move overload: undefined behaviour.  With
    room to spare the same call appends a copy of the first element, and
    so does the call on the full vector when it is given a copy of the
    element made before the call. *)
Theorem PushBack_own_element_example :
  push_own_element_full ∅ = Undefined ∧
  push_moved_own_element_full ∅ = Undefined ∧
  push_own_element_with_room ∅
  = Ret {| items_ := {| raw_ptr_ := at_ 2 0 |}; capacity_ := 4; size_ := 4 |}
        {[ 2%positive := [1; 2; 3; 1]%Z ]} ∧
  push_copy_of_element_full ∅
  = Ret {| items_ := {| raw_ptr_ := at_ 2 0 |}; capacity_ := 6; size_ := 4 |}
        {[ 2%positive := [1; 2; 3; 1; 0; 0]%Z ]}.
Proof. repeat split; reflexivity. Qed.

(** C6, where the code departs from it: a full vector.  Inserting [Handle(0)]
    at [begin()] of the full vector [{Handle(1), Handle(2)}] gives
    [{Handle(0), empty, empty}]: the former suffix is lost.  With room to
    spare the same call gives [{Handle(0), Handle(1), Handle(2)}]. *)
Theorem Insert_move_full_example :
  insert_into_full ∅
  = Ret (at_ 3 0, {| items_ := {| raw_ptr_ := at_ 3 0 |}; capacity_ := 4; size_ := 3 |})
        {[ 3%positive := [Some 0%Z; None; None; None] ]} ∧
  insert_with_room ∅
  = Ret (at_ 1 0, {| items_ := {| raw_ptr_ := at_ 1 0 |}; capacity_ := 3; size_ := 3 |})
        {[ 1%positive := [Some 0%Z; Some 1%Z; Some 2%Z] ]}.
Proof. split; reflexivity. Qed.

(** Why [PopBack] has a precondition in [reachable]: without assertions,
    on an empty vector, it returns with the size wrapped around. *)
Lemma PopBack_empty_without_assertions :
  PopBack (T := Z) (B := release_build) SimpleVector_default ∅
  = Ret {| items_ := ArrayPtr_default; capacity_ := 0; size_ := 2 ^ 64 - 1 |} ∅.
Proof. reflexivity. Qed.

(** With assertions the same call aborts. *)
Lemma PopBack_empty_with_assertions :
  PopBack (T := Z) (B := debug_build) SimpleVector_default ∅ = Abort.
Proof. reflexivity. Qed.

(** * The theorems at concrete inputs *)

Section Witnesses.
Local Existing Instance int_element.
Local Existing Instance debug_build.

Lemma vec_ok_123 : vec_ok heap_123 vec_123.
Proof.
  split; [done|]. split; [done|]. simpl. split; [done|].
  exists [1; 2; 3]%Z. split; [reflexivity | simpl; lia].
Qed.

Lemma world_ok_123 : world_ok world_123.
Proof.
  split; simpl.
  - intros x v [<- <-]%lookup_singleton_Some. apply vec_ok_123.
  - intros x y vx vy l [<- _]%lookup_singleton_Some [<- _]%lookup_singleton_Some _ _.
    reflexivity.
Qed.

Lemma At_spec_witness :
  vec_ok heap_123 vec_123 ∧
  At vec_123 3 heap_123 = Throw out_of_range heap_123 ∧
  ∃ x, contents heap_123 vec_123 !! 2%nat = Some x ∧
       At vec_123 2 heap_123 = Ret (at_ 1 2) heap_123 ∧
       load (at_ 1 2) heap_123 = Ret x heap_123.
Proof.
  split; [apply vec_ok_123|]. split.
  - apply (proj1 (At_spec vec_123 3 heap_123
                    vec_ok_123)).
    vm_compute. discriminate.
  - apply (proj1 (proj2 (At_spec vec_123 2 heap_123
                           vec_ok_123))).
    reflexivity.
Defined.

Lemma move_transfer_witness :
  world_ok world_123 ∧
  (∃ w', construct_move 1%nat O world_123
         = Ret tt w' ∧ transferred world_123 w' O 1%nat vec_123).
Proof.
  split; [apply world_ok_123|].
  apply (proj1 (move_transfer world_123 O vec_123 world_ok_123 eq_refl)).
  reflexivity.
Defined.

Lemma Reserve_spec_witness :
  vec_ok heap_123 vec_123 ∧
  (∃ this' h',
     Reserve 8 vec_123 heap_123 = Ret this' h' ∧
     vec_ok h' this' ∧ capacity_ this' = 8 ∧ size_ this' = 3 ∧
     contents h' this' = [1; 2; 3]%Z) ∧
  Reserve 2 vec_123 heap_123
  = Ret vec_123 heap_123.
Proof.
  split; [apply vec_ok_123|].
  destruct (Reserve_spec 8 vec_123 heap_123
              vec_ok_123) as (Hgrow & _ & _).
  destruct (Reserve_spec 2 vec_123 heap_123
              vec_ok_123) as (_ & Hsame & _).
  split.
  - apply Hgrow; [reflexivity | vm_compute; discriminate].
  - apply Hsame. vm_compute. discriminate.
Defined.

Lemma copy_constructor_spec_witness :
  world_ok world_123 ∧
  ∃ w' vb,
    exec (Construct_copy 1%nat O) world_123
    = Ret tt w' ∧
    objects w' !! 1%nat = Some vb ∧ size_ vb = 3 ∧ capacity_ vb = 3 ∧
    contents (memory w') vb = [1; 2; 3]%Z.
Proof.
  split; [apply world_ok_123|].
  destruct (copy_constructor_spec
              world_123 O vec_123 1%nat world_ok_123 eq_refl eq_refl)
    as (w' & vb & Heq & _ & _ & Hb & Hs & Hc & Hcont & _).
  exists w', vb. split; [exact Heq|]. split; [exact Hb|].
  split; [exact Hs|]. split; [exact Hc|exact Hcont].
Defined.

Lemma reachable_1234 : reachable world_1234.
Proof.
  eapply reachable_step with (o := Mutate O (Call_PushBack 4%Z)).
  - eapply reachable_step with (o := Construct O (Ctor_init [1; 2; 3]%Z)).
    + apply reachable_start.
    + left. reflexivity.
    + left. reflexivity.
  - left. reflexivity.
  - left. reflexivity.
Qed.

Lemma size_le_capacity_invariant_witness :
  reachable world_1234 ∧
  objects world_1234 !! O
  = Some {| items_ := {| raw_ptr_ := at_ 2 0 |}; capacity_ := 6; size_ := 4 |} ∧
  4 ≤ 6.
Proof.
  split; [apply reachable_1234|]. split; [reflexivity|].
  apply (size_le_capacity_invariant
           world_1234 O _ reachable_1234 eq_refl).
Defined.

Lemma self_assignment_identity_witness :
  objects world_123 !! O = Some vec_123 ∧
  assign O O world_123 = Ret tt world_123 ∧
  assign_move O O world_123 = Ret tt world_123.
Proof.
  split; [reflexivity|].
  apply (self_assignment_identity
           world_123 O vec_123 eq_refl).
Defined.

Local Existing Instance int_order.

Lemma reachable_two : reachable world_two.
Proof.
  eapply reachable_step with (o := Construct 1%nat (Ctor_init [4; 5]%Z)).
  - eapply reachable_step with (o := Construct O (Ctor_init [1; 2; 3]%Z)).
    + apply reachable_start.
    + left. reflexivity.
    + left. reflexivity.
  - left. reflexivity.
  - left. reflexivity.
Qed.

Lemma world_ok_two : world_ok world_two.
Proof. apply reachable_world_ok, reachable_two. Qed.

Lemma world_two_eq :
  world_two = {| objects := <[1%nat := vec_45]> {[ O := vec_123 ]}; memory := heap_two |}.
Proof. reflexivity. Qed.

Lemma vec_ok_two : vec_ok heap_two vec_123 ∧ vec_ok heap_two vec_45.
Proof.
  split.
  - apply (proj1 world_ok_two O). reflexivity.
  - apply (proj1 world_ok_two 1%nat). reflexivity.
Qed.

Lemma throwing_call_leaves_heap_witness :
  vec_ok heap_123 vec_123 ∧
  run_mutator (Call_Reserve (2 ^ 63)) vec_123 heap_123 = Throw bad_alloc heap_123 ∧
  At vec_123 3 heap_123 = Throw out_of_range heap_123 ∧
  (∀ m e h', run_mutator m vec_123 heap_123 = Throw e h' → e = bad_alloc ∧ h' = heap_123) ∧
  (∀ i e h', At vec_123 i heap_123 = Throw e h' → e = out_of_range ∧ 3 ≤ i ∧ h' = heap_123).
Proof.
  split; [apply vec_ok_123|]. split; [reflexivity|]. split; [reflexivity|].
  destruct (throwing_call_leaves_heap vec_123 heap_123 vec_ok_123)
    as (Hmut & _ & _ & _ & Hat).
  split; [exact Hmut | exact Hat].
Defined.

Lemma no_leak_invariant_witness :
  reachable world_1234 ∧
  (∀ l, is_Some (memory world_1234 !! l) →
        ∃ x v, objects world_1234 !! x = Some v ∧ raw_ptr_ (items_ v) = at_ l 0 ∧
               ∀ y vy, objects world_1234 !! y = Some vy →
                       raw_ptr_ (items_ vy) = at_ l 0 → y = x).
Proof.
  split; [apply reachable_1234|].
  apply (proj1 (no_leak_invariant world_1234 reachable_1234)).
Defined.

Lemma capacity_never_shrinks_witness :
  vec_ok heap_123 vec_123 ∧
  run_mutator (Call_PushBack 4%Z) vec_123 heap_123
  = Ret (tt, {| items_ := {| raw_ptr_ := at_ 2 0 |}; capacity_ := 6; size_ := 4 |})
        {[ 2%positive := [1; 2; 3; 4; 0; 0]%Z ]} ∧
  3 ≤ 6.
Proof.
  split; [apply vec_ok_123|]. split; [reflexivity|].
  apply (capacity_never_shrinks (Call_PushBack 4%Z) vec_123 heap_123 tt
           {| items_ := {| raw_ptr_ := at_ 2 0 |}; capacity_ := 6; size_ := 4 |}
           {[ 2%positive := [1; 2; 3; 4; 0; 0]%Z ]} vec_ok_123).
  reflexivity.
Defined.

Lemma copy_assignment_spec_witness :
  world_ok world_two ∧
  ∃ w' va',
    assign O 1%nat world_two = Ret tt w' ∧
    objects w' !! O = Some va' ∧ objects w' !! 1%nat = Some vec_45 ∧
    size_ va' = 2 ∧ capacity_ va' = 2 ∧
    contents (memory w') va' = [4; 5]%Z ∧
    memory w' !! 1%positive = None.
Proof.
  split; [apply world_ok_two|].
  destruct (copy_assignment_spec world_two O 1%nat vec_123 vec_45 world_ok_two)
    as (w' & va' & Heq & _ & Ha & Hb & Hs & Hc & Hcont & _ & _ & Hfreed & _);
    [done|reflexivity|reflexivity|].
  exists w', va'. split_and!; try done.
  apply Hfreed. simpl. by apply elem_of_singleton.
Defined.

Lemma swap_objects_spec_witness :
  objects world_two !! O = Some vec_123 ∧ objects world_two !! 1%nat = Some vec_45 ∧
  ∃ w',
    swap_objects O 1%nat world_two = Ret tt w' ∧ memory w' = memory world_two ∧
    objects w' !! O = Some vec_45 ∧ objects w' !! 1%nat = Some vec_123 ∧
    swap_objects O 1%nat w' = Ret tt world_two.
Proof.
  split; [reflexivity|]. split; [reflexivity|].
  destruct (swap_objects_spec world_two O 1%nat vec_123 vec_45 eq_refl eq_refl)
    as (w' & Heq & Hm & Ha & Hb & _ & Hback).
  exists w'. split_and!; done.
Defined.

Lemma Erase_spec_witness :
  vec_ok heap_123 vec_123 ∧
  ∃ h',
    Erase (at_ 1 1) vec_123 heap_123
    = Ret (at_ 1 1, {| items_ := {| raw_ptr_ := at_ 1 0 |}; capacity_ := 3; size_ := 2 |}) h' ∧
    contents h' {| items_ := {| raw_ptr_ := at_ 1 0 |}; capacity_ := 3; size_ := 2 |}
    = [1; 3]%Z.
Proof.
  split; [apply vec_ok_123|].
  destruct (Erase_spec 1 vec_123 heap_123 vec_ok_123)
    as (h' & Heq & _ & Hcont & _); [reflexivity|].
  exists h'. split; [exact Heq | exact Hcont].
Defined.

Lemma Erase_end_never_returns_witness :
  vec_ok heap_123 vec_123 ∧ Erase (at_ 1 3) vec_123 heap_123 = Abort.
Proof.
  split; [apply vec_ok_123|].
  apply (proj1 (Erase_end_never_returns vec_123 heap_123 vec_ok_123)).
Defined.

Lemma PopBack_spec_witness :
  vec_ok heap_123 vec_123 ∧
  PopBack vec_123 heap_123
  = Ret {| items_ := {| raw_ptr_ := at_ 1 0 |}; capacity_ := 3; size_ := 2 |} heap_123 ∧
  ∃ x, [1; 2; 3]%Z
       = contents heap_123
           {| items_ := {| raw_ptr_ := at_ 1 0 |}; capacity_ := 3; size_ := 2 |} ++ [x].
Proof.
  split; [apply vec_ok_123|].
  destruct (proj1 (PopBack_spec vec_123 heap_123 vec_ok_123)) as (Heq & _ & Hx);
    [vm_compute; discriminate|].
  split; [exact Heq | exact Hx].
Defined.

Lemma PushBack_PopBack_round_trip_witness :
  vec_ok heap_two vec_123 ∧
  refers_to heap_two (inside (at_ 2 1)) 5%Z ∧
  apart (T := Z) (inside (at_ 2 1)) vec_123 ∧
  ∃ this1 h1 this2,
    PushBack (inside (at_ 2 1)) vec_123 heap_two = Ret this1 h1 ∧
    PopBack this1 h1 = Ret this2 h1 ∧
    size_ this2 = 3 ∧ contents h1 this2 = [1; 2; 3]%Z.
Proof.
  assert (Hapart : apart (T := Z) (inside (at_ 2 1)) vec_123).
  { simpl. apply disjoint_singleton_l, not_elem_of_singleton. discriminate. }
  split; [apply vec_ok_two|]. split; [reflexivity|]. split; [exact Hapart|].
  destruct (PushBack_PopBack_round_trip (inside (at_ 2 1)) 5%Z vec_123 heap_two PushBack
              (proj1 vec_ok_two))
    as (this1 & h1 & this2 & Hpush & Hpop & Hs & Hcont & _);
    [right; vm_compute; discriminate | reflexivity | left; split; [exact Hapart|by left] |].
  exists this1, h1, this2. split_and!; done.
Defined.

Lemma Clear_keeps_storage_witness :
  vec_ok heap_123 vec_123 ∧
  contents heap_123 (Clear vec_123) = [] ∧
  ∃ this' h',
    push_all [7; 8]%Z (Clear vec_123) heap_123 = Ret this' h' ∧
    items_ this' = items_ vec_123 ∧ capacity_ this' = 3 ∧
    contents h' this' = [7; 8]%Z.
Proof.
  split; [apply vec_ok_123|].
  destruct (Clear_keeps_storage vec_123 heap_123 [7; 8]%Z vec_ok_123)
    as (Hnil & _ & _ & _ & Hpush); [vm_compute; discriminate|].
  split; [exact Hnil | exact Hpush].
Defined.

Lemma Insert_move_at_end_is_PushBack_witness :
  vec_ok heap_123 vec_123 ∧
  ∃ p this1 h1 this2 h2,
    Insert_move (at_ 1 3) 4%Z vec_123 heap_123 = Ret (p, this1) h1 ∧
    PushBack_move (outside 4%Z) vec_123 heap_123 = Ret this2 h2 ∧
    size_ this1 = size_ this2 ∧ capacity_ this1 = capacity_ this2 ∧
    contents h1 this1 = [1; 2; 3; 4]%Z ∧
    contents h2 this2 = [1; 2; 3; 4]%Z.
Proof.
  split; [apply vec_ok_123|].
  destruct (Insert_move_at_end_is_PushBack 4%Z vec_123 heap_123 vec_ok_123)
    as (p & this1 & h1 & this2 & h2 & Hins & Hpush & Hs & Hc & Hc1 & Hc2 & _);
    [right; vm_compute; discriminate|].
  exists p, this1, h1, this2, h2. split_and!; done.
Defined.


Lemma Resize_above_capacity_witness :
  vec_ok heap_123 vec_123 ∧
  ∃ this' h',
    Resize 5 vec_123 heap_123 = Ret this' h' ∧
    size_ this' = 5 ∧ capacity_ this' = 6 ∧
    contents h' this' = [1; 2; 3; 0; 0]%Z ∧
    h' !! 1%positive = None.
Proof.
  split; [apply vec_ok_123|].
  destruct (Resize_above_capacity 5 vec_123 heap_123 vec_ok_123)
    as (this' & h' & Heq & _ & Hs & Hc & Hcont & _ & _ & Hfreed);
    [reflexivity | vm_compute; discriminate |].
  exists this', h'. split_and!; try done.
  apply Hfreed. simpl. by apply elem_of_singleton.
Defined.

Lemma index_store_then_At_witness :
  vec_ok heap_123 vec_123 ∧
  ∃ h',
    store (index vec_123 1) 9%Z heap_123 = Ret tt h' ∧
    contents h' vec_123 = [1; 9; 3]%Z ∧
    At vec_123 1 h' = Ret (index vec_123 1) h' ∧
    load (index vec_123 1) h' = Ret 9%Z h'.
Proof.
  split; [apply vec_ok_123|].
  destruct (index_store_then_At vec_123 1 9%Z heap_123 vec_ok_123)
    as (h' & Hstore & _ & Hcont & Hat & Hload & _); [reflexivity|].
  exists h'. split_and!; done.
Defined.

Lemma SimpleVector_size_value_spec_witness :
  ∃ this h',
    SimpleVector_size_value 3 7%Z ∅ = Ret this h' ∧
    size_ this = 3 ∧ capacity_ this = 3 ∧ contents h' this = [7; 7; 7]%Z.
Proof.
  destruct (proj1 (SimpleVector_size_value_spec 3 7%Z ∅))
    as (this & h' & Heq & _ & Hs & Hc & Hcont & _); [vm_compute; discriminate|].
  exists this, h'. split_and!; done.
Defined.

Lemma SimpleVector_init_spec_witness :
  ∃ this h',
    SimpleVector_init [1; 2; 3]%Z ∅ = Ret this h' ∧
    size_ this = 3 ∧ capacity_ this = 3 ∧ contents h' this = [1; 2; 3]%Z.
Proof.
  destruct (proj1 (SimpleVector_init_spec [1; 2; 3]%Z ∅))
    as (this & h' & Heq & _ & Hs & Hc & Hcont & _); [vm_compute; discriminate|].
  exists this, h'. split_and!; done.
Defined.

Lemma SimpleVector_reserve_spec_witness :
  ∃ this h',
    SimpleVector_reserve (Reserve_proxy 4) ∅ = Ret this h' ∧
    size_ this = 0 ∧ capacity_ this = 4 ∧ contents h' this = [] ∧
    ∃ this'' h'',
      push_all [1; 2; 3]%Z this h' = Ret this'' h'' ∧
      items_ this'' = items_ this ∧ capacity_ this'' = 4 ∧
      contents h'' this'' = [1; 2; 3]%Z.
Proof.
  destruct (proj1 (SimpleVector_reserve_spec 4 ∅))
    as (this & h' & Heq & _ & Hs & Hc & Hcont & _ & _ & Hpush);
    [vm_compute; discriminate|].
  exists this, h'. split_and!; try done.
  apply Hpush. vm_compute. discriminate.
Defined.

Lemma construct_destroy_round_trip_witness :
  exec (Construct 1%nat (Ctor_init [4; 5]%Z)) world_123 = Ret tt world_two ∧
  exec (Destroy 1%nat) world_two = Ret tt world_123.
Proof.
  split; [reflexivity|].
  apply (proj1 (construct_destroy_round_trip world_123 world_two 1%nat)
           (Ctor_init [4; 5]%Z)).
  reflexivity.
Defined.

Lemma operator_eq_spec_witness :
  world_ok world_two ∧
  ∃ r, equal O 1%nat world_two = Ret r world_two ∧
       (r = true ↔ contents (memory world_two) vec_123
                   = contents (memory world_two) vec_45).
Proof.
  split; [apply world_ok_two|].
  destruct (operator_eq_spec world_two O 1%nat vec_123 vec_45 world_ok_two eq_refl eq_refl)
    as (r & Heq & _ & _ & Hiff).
  exists r. split; [exact Heq|]. apply Hiff. intros x y. apply Z.eqb_eq.
Defined.

Lemma operator_lt_spec_witness :
  vec_ok heap_two vec_123 ∧ vec_ok heap_two vec_45 ∧
  SimpleVector_lt vec_123 vec_45 heap_two = Ret true heap_two ∧
  SimpleVector_ge vec_123 vec_45 heap_two = Ret false heap_two.
Proof.
  split; [apply vec_ok_two|]. split; [apply vec_ok_two|].
  destruct (operator_lt_spec vec_123 vec_45 heap_two (proj1 vec_ok_two) (proj2 vec_ok_two))
    as (Hlt & _ & _ & Hge).
  split; [exact Hlt | exact Hge].
Defined.

Lemma ordering_operators_consistent_witness :
  vec_ok heap_two vec_123 ∧ vec_ok heap_two vec_45 ∧
  ∃ lt eq gt,
    SimpleVector_lt vec_123 vec_45 heap_two = Ret lt heap_two ∧
    SimpleVector_eq false vec_123 vec_45 heap_two = Ret eq heap_two ∧
    SimpleVector_gt vec_123 vec_45 heap_two = Ret gt heap_two ∧
    SimpleVector_le vec_123 vec_45 heap_two = Ret (lt || eq) heap_two ∧
    SimpleVector_ge vec_123 vec_45 heap_two = Ret (gt || eq) heap_two ∧
    SimpleVector_ne false vec_123 vec_45 heap_two = Ret (negb eq) heap_two.
Proof.
  split; [apply vec_ok_two|]. split; [apply vec_ok_two|].
  destruct (ordering_operators_consistent false vec_123 vec_45 heap_two)
    as (lt & eq & gt & Hlt & Heq & Hgt & Hle & Hge & Hne & _).
  - intros x y. apply Z.eqb_eq.
  - intros x y. simpl. rewrite Z.ltb_lt, Z.ltb_ge. lia.
  - intros x y. simpl. rewrite !Z.ltb_ge. lia.
  - apply vec_ok_two.
  - apply vec_ok_two.
  - discriminate.
  - exists lt, eq, gt. split_and!; done.
Defined.

Lemma ArrayPtr_new_destroy_round_trip_witness :
  ∃ a h',
    ArrayPtr_new 3 heap_123 = Ret a h' ∧ ArrayPtr_destroy a h' = Ret tt heap_123.
Proof.
  destruct (proj1 (ArrayPtr_new_destroy_round_trip 3 heap_123))
    as (a & h' & Hnew & Hdel & _); [vm_compute; discriminate|].
  exists a, h'. split; [exact Hnew | exact Hdel].
Defined.

Lemma ArrayPtr_move_shares_block_witness :
  heap_123 !! 1%positive = Some [1; 2; 3]%Z ∧
  ∃ this other',
    ArrayPtr_move {| raw_ptr_ := at_ 1 0 |} = (this, other') ∧
    (ArrayPtr_destroy this ;;; ArrayPtr_destroy other') heap_123 = Undefined.
Proof.
  split; [reflexivity|].
  destruct (ArrayPtr_move_shares_block {| raw_ptr_ := at_ 1 0 |} heap_123 1%positive
              [1; 2; 3]%Z eq_refl eq_refl)
    as (this & other' & Heq & _ & _ & Hdouble).
  exists this, other'. split; [exact Heq | exact Hdouble].
Defined.

Lemma ArrayPtr_move_assign_spec_witness :
  heap_two !! 1%positive = Some [1; 2; 3]%Z ∧ heap_two !! 2%positive = Some [4; 5]%Z ∧
  ∃ this' other',
    ArrayPtr_move_assign {| raw_ptr_ := at_ 1 0 |} {| raw_ptr_ := at_ 2 0 |} heap_two
    = Ret (this', other') (delete 1%positive heap_two) ∧
    raw_ptr_ this' = at_ 2 0 ∧ raw_ptr_ other' = nullptr.
Proof.
  split; [reflexivity|]. split; [reflexivity|].
  destruct (ArrayPtr_move_assign_spec {| raw_ptr_ := at_ 1 0 |} {| raw_ptr_ := at_ 2 0 |}
              heap_two 1%positive [1; 2; 3]%Z 2%positive [4; 5]%Z eq_refl eq_refl)
    as (this' & other' & Heq & Hthis & Hother & _); [done|reflexivity|reflexivity|].
  exists this', other'. split_and!; done.
Defined.

Lemma Release_hands_over_witness :
  heap_123 !! 1%positive = Some [1; 2; 3]%Z ∧
  ∃ p this',
    Release {| raw_ptr_ := at_ 1 0 |} = (p, this') ∧ p = at_ 1 0 ∧
    ArrayPtr_destroy this' heap_123 = Ret tt heap_123.
Proof.
  split; [reflexivity|].
  destruct (Release_hands_over {| raw_ptr_ := at_ 1 0 |} heap_123 1%positive [1; 2; 3]%Z
              eq_refl eq_refl)
    as (p & this' & Heq & Hp & _ & Hkeep & _).
  exists p, this'. split_and!; done.
Defined.

Lemma observers_spec_witness :
  vec_ok heap_123 vec_123 ∧
  GetSize vec_123 ≤ GetCapacity vec_123 ∧
  range_len (begin_ vec_123) (end_ vec_123) heap_123
  = Ret (length (contents heap_123 vec_123)) heap_123.
Proof.
  split; [apply vec_ok_123|].
  destruct (observers_spec vec_123 heap_123 vec_ok_123) as (_ & Hle & _ & Hrange & _).
  split; [exact Hle | exact Hrange].
Defined.

Lemma push_all_from_empty_witness :
  ∃ this' h',
    push_all [1; 2; 3; 4; 5]%Z SimpleVector_default ∅ = Ret this' h' ∧
    contents h' this' = [1; 2; 3; 4; 5]%Z ∧ size_ this' = 5 ∧ capacity_ this' = 8.
Proof.
  destruct (push_all_from_empty [1; 2; 3; 4; 5]%Z ∅)
    as (this' & h' & Heq & _ & Hcont & Hs & Hc); [vm_compute; discriminate|].
  exists this', h'. split_and!; done.
Defined.

Lemma Insert_move_capacity_rule_witness :
  vec_ok heap_123 vec_123 ∧
  ∃ p this' h',
    Insert_move (at_ 1 1) 9%Z vec_123 heap_123 = Ret (p, this') h' ∧
    size_ this' = 4 ∧ capacity_ this' = 6.
Proof.
  split; [apply vec_ok_123|].
  destruct (Insert_move_capacity_rule 1 9%Z vec_123 heap_123 vec_ok_123)
    as (p & this' & h' & Heq & _ & Hs & Hc & _);
    [vm_compute; discriminate | right; vm_compute; discriminate |].
  exists p, this', h'. split_and!; done.
Defined.

Lemma Insert_move_past_end_never_returns_witness :
  vec_ok heap_123 vec_123 ∧
  Insert_move (at_ 1 4) 9%Z vec_123 heap_123 = Abort ∧
  Insert_move (at_ 1 4) 9%Z vec_123 heap_123 ≠ Ret (at_ 1 4, vec_123) heap_123.
Proof.
  split; [apply vec_ok_123|]. split; [reflexivity|].
  apply (Insert_move_past_end_never_returns 4 9%Z vec_123 heap_123 (at_ 1 4, vec_123)
           heap_123 vec_ok_123); reflexivity.
Defined.

End Witnesses.
